(** * Triangle discovery over the JDM lexical network

    A shallow embedding of [api_client.py] (class [JDMAPIClient]),
    [triangle_db.py] (class [TriangleDatabase]) and [triangle_finder.py]
    (class [TriangleFinder]), of the console input of [main.py] and of
    the graph and the summaries of [visualizer.py] (class [Visualizer]),
    and the properties that follow from the code.

    Conventions of the embedding:
    - a Python [dict] used as a map is a [gmap], a Python [set] a [gset];
    - every method is a function from the object's state to a result and
      the new state; a result is a value or a raised exception;
    - the remote API, the faults of the SQLite store and the iteration
      order of Python sets are the environment, gathered in [World];
    - the answers of the API are typed as its documentation gives them: a
      node is a JSON object, of which the keys ['id'] and ['name'] may be
      missing, and a relation of a payload has its four keys;
    - a Python [float] is the rational it denotes (the weights of the API
      are finite); the weight ['w'] of a payload is a JSON number, which
      [response.json()] hands over as an [int] or as a [float], and
      [float(rel['w'])] rounds an [int] to the nearest double, to even on
      a tie, or raises [OverflowError]. *)

From Stdlib Require Import ZArith QArith String Ascii List DecimalString
  DecimalPos DecimalZ Sorted.
From stdpp Require Import base option list gmap strings.

Local Open Scope Z_scope.
Local Open Scope string_scope.
Local Open Scope list_scope.

(** ** Python values *)

Definition weight : Type := Q.

(** A node as the API returns it: a JSON object of which the program reads
    the keys ['id'] and ['name'].  Either key may be missing. *)
Record node : Type := Node {
  node_id : option Z;
  node_name : option string
}.

(** What [get_node_by_name] hands to its caller, and what [find_triangles]
    receives: any JSON value, a dict or not ([isinstance(_, dict)]). *)
Inductive pyobject : Type :=
| PyDict (n : node)
| PyOther.

(** A JSON number as [response.json()] returns it: a Python [int], of any
    size, or a Python [float]. *)
Inductive number : Type :=
| PyInt (n : Z)
| PyFloat (x : Q).

Coercion PyFloat : Q >-> number.

(** A relation of a payload: [{node1, node2, type, w}]. *)
Record raw_relation : Type := RawRelation {
  node1 : Z;
  node2 : Z;
  raw_type : Z;
  raw_w : number
}.

(** A processed relation: [{'source', 'target', 'type', 'weight'}]. *)
Record relation : Type := Relation {
  rel_source : string;
  rel_target : string;
  rel_type : Z;
  rel_weight : weight
}.

(** The body of a relations response: a dict with the keys ['relations']
    and ['nodes'], or anything else. *)
Inductive payload : Type :=
| Payload (relations : list raw_relation) (nodes : list node)
| Malformed.

(** The triangle dict built by [find_triangles]. *)
Record triangle : Type := Triangle {
  A : string;
  B : string;
  C : string;
  A_to_B : Z;
  C_to_B : Z;
  A_to_C : Z;
  A_to_B_weight : weight;
  C_to_B_weight : weight;
  A_to_C_weight : weight
}.

(** ** Exceptions and results *)

Inductive sqlite_error : Type :=
| IntegrityError
| OperationalError.

Inductive exn : Type :=
| KeyError (key : string)
| AttributeError
| StopIteration
| OverflowError
| SqliteError (e : sqlite_error).

Inductive result (X : Type) : Type :=
| Ok (x : X)
| Raise (e : exn).
Arguments Ok {X} x.
Arguments Raise {X} e.

(** ** Builtins *)

(** [float(n)] of an [int]: the double nearest to [n], the one with the
    even significand on a tie; [OverflowError] when that is beyond the
    largest double.  An [int] below [2 ** 53] in magnitude is a double
    already; a larger one keeps its 53 leading bits, rounded. *)
Definition float_of_int (n : Z) : result weight :=
  let a := Z.abs n in
  if (a <? 2 ^ 53)%Z then Ok (inject_Z n)
  else
    let e := Z.log2 a - 52 in
    let q := Z.shiftr a e in
    let r := a - Z.shiftl q e in
    let half := Z.shiftl 1 (e - 1) in
    let q :=
      if (half <? r)%Z || ((r =? half)%Z && Z.odd q) then q + 1 else q in
    let m := Z.shiftl q e in
    if (2 ^ 1024 <=? m)%Z then Raise OverflowError
    else Ok (inject_Z (Z.sgn n * m)).

(** [float(x)] of a JSON number; a [float] is returned as it is. *)
Definition float (x : number) : result weight :=
  match x with
  | PyInt n => float_of_int n
  | PyFloat x => Ok x
  end.

(** ** The environment *)

Inductive request : Type :=
| NodeById (id : Z)
| NodeByName (name : string)
| RelationsFrom (word : string)
| RelationsTo (word : string).

#[global] Instance request_eq_dec : EqDecision request.
Proof. solve_decision. Defined.

(** The answers of the network depend on the request and on the number of
    requests sent before it; [None] is a [RequestException].  [db_fault n]
    is the error, if any, that SQLite raises on the [n]-th statement.
    [set_order l] is the order in which Python iterates over the set built
    from the elements [l]. *)
Record World : Type := {
  node_by_id : nat -> Z -> option node;
  node_by_name : nat -> string -> option pyobject;
  net_relations_from : nat -> string -> option payload;
  net_relations_to : nat -> string -> option payload;
  db_fault : nat -> option sqlite_error;
  set_order : list string -> list string
}.

(** A set holds each element once, and nothing else. *)
Definition set_semantics (W : World) : Prop :=
  forall l : list string,
    NoDup (set_order W l) /\ (forall x, x ∈ set_order W l <-> x ∈ l).

(** ** api_client.py *)

Definition EXCLUDED_RELATION_TYPES : gset Z :=
  {[ 0; 666; 777; 4; 1; 2; 200; 1000; 1001; 1002; 2001 ]}.

(** [session] is the list of the requests sent so far, oldest first. *)
Record JDMAPIClient : Type := {
  session : list request;
  node_cache : gmap Z node;
  relations_cache : gmap string (list relation);
  reverse_relations_cache : gmap string (list relation);
  failed_nodes : gset Z
}.

(** [JDMAPIClient.__init__] *)
Definition new_client : JDMAPIClient :=
  {| session := []; node_cache := ∅; relations_cache := ∅;
     reverse_relations_cache := ∅; failed_nodes := ∅ |}.

Definition send (r : request) (c : JDMAPIClient) : JDMAPIClient :=
  {| session := session c ++ [r]; node_cache := node_cache c;
     relations_cache := relations_cache c;
     reverse_relations_cache := reverse_relations_cache c;
     failed_nodes := failed_nodes c |}.

Definition set_node_cache (m : gmap Z node) (c : JDMAPIClient) : JDMAPIClient :=
  {| session := session c; node_cache := m;
     relations_cache := relations_cache c;
     reverse_relations_cache := reverse_relations_cache c;
     failed_nodes := failed_nodes c |}.

Definition set_relations_cache (m : gmap string (list relation))
    (c : JDMAPIClient) : JDMAPIClient :=
  {| session := session c; node_cache := node_cache c;
     relations_cache := m;
     reverse_relations_cache := reverse_relations_cache c;
     failed_nodes := failed_nodes c |}.

Definition set_reverse_relations_cache (m : gmap string (list relation))
    (c : JDMAPIClient) : JDMAPIClient :=
  {| session := session c; node_cache := node_cache c;
     relations_cache := relations_cache c;
     reverse_relations_cache := m;
     failed_nodes := failed_nodes c |}.

Definition set_failed_nodes (s : gset Z) (c : JDMAPIClient) : JDMAPIClient :=
  {| session := session c; node_cache := node_cache c;
     relations_cache := relations_cache c;
     reverse_relations_cache := reverse_relations_cache c;
     failed_nodes := s |}.

(** Truth value of [node_map.get(..)] and of [get_node_info(..)]: [None]
    and the empty dict are false. *)
Definition truthy (o : option node) : option node :=
  match o with
  | Some (Node None None) => None
  | _ => o
  end.

Section Client.
Context (W : World).

(** [get_node_info]: the memo, then the negative memo, then the network. *)
Definition get_node_info (id : Z) (c : JDMAPIClient)
    : option node * JDMAPIClient :=
  match node_cache c !! id with
  | Some n => (Some n, c)
  | None =>
    if decide (id ∈ failed_nodes c) then (None, c)
    else
      let c1 := send (NodeById id) c in
      match node_by_id W (length (session c)) id with
      | Some node_info =>
          (Some node_info,
           set_node_cache (<[id := node_info]> (node_cache c1)) c1)
      | None =>
          (None, set_failed_nodes ({[id]} ∪ failed_nodes c1) c1)
      end
  end.

(** [filter_relations] *)
Definition filter_relations (relations : list raw_relation)
    : list raw_relation :=
  filter (fun rel => raw_type rel ∉ EXCLUDED_RELATION_TYPES) relations.

(** [{node['id']: node for node in data['nodes']}] *)
Fixpoint build_node_map (nodes : list node) (m : gmap Z node)
    : result (gmap Z node) :=
  match nodes with
  | [] => Ok m
  | n :: rest =>
    match node_id n with
    | Some i => build_node_map rest (<[i := n]> m)
    | None => Raise (KeyError "id")
    end
  end.

(** [node_map.get(id)], and [get_node_info(id)] when that is false. *)
Definition resolve_node (node_map : gmap Z node) (id : Z)
    (c : JDMAPIClient) : option node * JDMAPIClient :=
  match truthy (node_map !! id) with
  | Some n => (Some n, c)
  | None => get_node_info id c
  end.

(** The loop [for rel in data['relations']] of both accessors.  The dict
    literal of a processed relation evaluates [source_node['name']],
    [target_node['name']], [rel['type']] and [float(rel['w'])] in that
    order; neither a [KeyError] nor an [OverflowError] is a
    [RequestException], so both leave the accessor. *)
Fixpoint process_relations (node_map : gmap Z node)
    (relations : list raw_relation) (processed_relations : list relation)
    (c : JDMAPIClient) : result (list relation) * JDMAPIClient :=
  match relations with
  | [] => (Ok processed_relations, c)
  | rel :: rest =>
    let '(source_node, c1) := resolve_node node_map (node1 rel) c in
    match truthy source_node with
    | None => process_relations node_map rest processed_relations c1
    | Some source_node =>
      let '(target_node, c2) := resolve_node node_map (node2 rel) c1 in
      match truthy target_node with
      | None => process_relations node_map rest processed_relations c2
      | Some target_node =>
        match node_name source_node, node_name target_node with
        | Some s, Some t =>
          match float (raw_w rel) with
          | Ok w =>
            process_relations node_map rest
              (processed_relations ++
                 [{| rel_source := s; rel_target := t;
                     rel_type := raw_type rel; rel_weight := w |}])
              c2
          | Raise e => (Raise e, c2)
          end
        | _, _ => (Raise (KeyError "name"), c2)
        end
      end
    end
  end.

(** [get_relations_from] *)
Definition get_relations_from (word : string) (c : JDMAPIClient)
    : result (list relation) * JDMAPIClient :=
  match relations_cache c !! word with
  | Some l => (Ok l, c)
  | None =>
    let c0 := send (RelationsFrom word) c in
    match net_relations_from W (length (session c)) word with
    | None => (Ok [], c0)
    | Some Malformed => (Ok [], c0)
    | Some (Payload relations nodes) =>
      let relations := filter_relations relations in
      match build_node_map nodes ∅ with
      | Raise e => (Raise e, c0)
      | Ok node_map =>
        match process_relations node_map relations [] c0 with
        | (Ok processed_relations, c1) =>
            (Ok processed_relations,
             set_relations_cache
               (<[word := processed_relations]> (relations_cache c1)) c1)
        | (Raise e, c1) => (Raise e, c1)
        end
      end
    end
  end.

(** [get_relations_to] *)
Definition get_relations_to (word : string) (c : JDMAPIClient)
    : result (list relation) * JDMAPIClient :=
  match reverse_relations_cache c !! word with
  | Some l => (Ok l, c)
  | None =>
    let c0 := send (RelationsTo word) c in
    match net_relations_to W (length (session c)) word with
    | None => (Ok [], c0)
    | Some Malformed => (Ok [], c0)
    | Some (Payload relations nodes) =>
      let relations := filter_relations relations in
      match build_node_map nodes ∅ with
      | Raise e => (Raise e, c0)
      | Ok node_map =>
        match process_relations node_map relations [] c0 with
        | (Ok processed_relations, c1) =>
            (Ok processed_relations,
             set_reverse_relations_cache
               (<[word := processed_relations]> (reverse_relations_cache c1))
               c1)
        | (Raise e, c1) => (Raise e, c1)
        end
      end
    end
  end.

Definition sample_words : list string :=
  ["mot"; "sac"; "feuille"; "ville"; "chaine"; "chaise"; "arbre"; "fleur";
   "fruit"; "lait"; "pain"; "fromage"; "viande"; "poisson"].

(** The body of [get_all_nodes]: the loop [for word in sample_words].
    A failed fetch is skipped; a dict whose name does not start with
    ['en:'] is kept, and memoized under its id when it has one; on
    anything else the [else] branch calls [node.get], which a value that
    is no dict does not have. *)
Fixpoint fetch_nodes (words : list string) (nodes : list node)
    (c : JDMAPIClient) : result (list node) * JDMAPIClient :=
  match words with
  | [] => (Ok nodes, c)
  | word :: rest =>
    let c0 := send (NodeByName word) c in
    match node_by_name W (length (session c)) word with
    | None => fetch_nodes rest nodes c0
    | Some (PyDict n) =>
      if String.prefix "en:" (default "" (node_name n))
      then fetch_nodes rest nodes c0
      else
        let c1 :=
          match node_id n with
          | Some i => set_node_cache (<[i := n]> (node_cache c0)) c0
          | None => c0
          end in
        fetch_nodes rest (nodes ++ [n]) c1
    | Some PyOther => (Raise AttributeError, c0)
    end
  end.

(** [get_all_nodes] *)
Definition get_all_nodes (c : JDMAPIClient)
    : result (list node) * JDMAPIClient :=
  fetch_nodes sample_words [] c.

End Client.

(** ** triangle_db.py *)

Inductive status : Type :=
| in_progress
| completed.

#[global] Instance status_eq_dec : EqDecision status.
Proof. solve_decision. Defined.

(** The statements that the enumeration sends to SQLite. *)
Inductive statement : Type :=
| IsNodeProcessed (node_name : string)
| MarkNodeInProgress (node_name : string)
| MarkNodeProcessed (node_name : string)
| SaveTriangle (t : triangle).

(** The connection: the statements sent to it so far, accepted or refused,
    oldest first, and the two tables the enumeration uses.  A row of
    [triangles] is the triangle. *)
Record TriangleDatabase : Type := {
  journal : list statement;
  processed_nodes_table : gmap string status;
  triangles_table : list triangle
}.

(** The key of the [UNIQUE] constraint of the table [triangles]. *)
Definition triangle_key (t : triangle) : string * string * string * Z * Z * Z :=
  (A t, B t, C t, A_to_B t, C_to_B t, A_to_C t).

Section Database.
Context (W : World).

(** One method call executes one statement and commits it; SQLite may
    refuse it. *)
Definition execute {X : Type} (stmt : statement)
    (query : TriangleDatabase -> X * TriangleDatabase)
    (d : TriangleDatabase) : result X * TriangleDatabase :=
  let d0 := {| journal := journal d ++ [stmt];
               processed_nodes_table := processed_nodes_table d;
               triangles_table := triangles_table d |} in
  match db_fault W (length (journal d)) with
  | Some e => (Raise (SqliteError e), d0)
  | None => let '(x, d1) := query d0 in (Ok x, d1)
  end.

(** [is_node_processed] *)
Definition is_node_processed (node_name : string) (d : TriangleDatabase)
    : result bool * TriangleDatabase :=
  execute (IsNodeProcessed node_name)
    (fun d =>
       (bool_decide (processed_nodes_table d !! node_name = Some completed),
        d))
    d.

(** [INSERT OR REPLACE INTO processed_nodes] *)
Definition insert_or_replace (node_name : string) (s : status)
    (d : TriangleDatabase) : unit * TriangleDatabase :=
  (tt, {| journal := journal d;
          processed_nodes_table := <[node_name := s]> (processed_nodes_table d);
          triangles_table := triangles_table d |}).

(** [mark_node_in_progress] *)
Definition mark_node_in_progress (node_name : string) (d : TriangleDatabase)
    : result unit * TriangleDatabase :=
  execute (MarkNodeInProgress node_name)
    (insert_or_replace node_name in_progress) d.

(** [mark_node_processed] *)
Definition mark_node_processed (node_name : string) (d : TriangleDatabase)
    : result unit * TriangleDatabase :=
  execute (MarkNodeProcessed node_name)
    (insert_or_replace node_name completed) d.

(** [INSERT OR IGNORE INTO triangles]; the value is [rowcount > 0]. *)
Definition insert_or_ignore (t : triangle) (d : TriangleDatabase)
    : bool * TriangleDatabase :=
  if decide (triangle_key t ∈ triangle_key <$> triangles_table d)
  then (false, d)
  else (true, {| journal := journal d;
                 processed_nodes_table := processed_nodes_table d;
                 triangles_table := triangles_table d ++ [t] |}).

(** [save_triangle]: an [IntegrityError] is caught and gives [False]. *)
Definition save_triangle (t : triangle) (d : TriangleDatabase)
    : result bool * TriangleDatabase :=
  match execute (SaveTriangle t) (insert_or_ignore t) d with
  | (Raise (SqliteError IntegrityError), d') => (Ok false, d')
  | r => r
  end.

End Database.

(** ** triangle_finder.py *)

Record TriangleFinder : Type := {
  api_client : JDMAPIClient;
  triangles : list triangle;
  relation_stats : gmap Z nat;
  processed_nodes : gset string;
  rejected_relations : list relation;
  min_weight : weight;
  max_triangles_per_node : option Z;
  db : option TriangleDatabase
}.

(** [TriangleFinder.__init__] *)
Definition new_finder (api_client : JDMAPIClient) (min_weight : weight)
    (max_triangles_per_node : option Z) (db : option TriangleDatabase)
    : TriangleFinder :=
  {| api_client := api_client; triangles := []; relation_stats := ∅;
     processed_nodes := ∅; rejected_relations := [];
     min_weight := min_weight;
     max_triangles_per_node := max_triangles_per_node; db := db |}.

Definition set_api_client (c : JDMAPIClient) (f : TriangleFinder)
    : TriangleFinder :=
  {| api_client := c; triangles := triangles f;
     relation_stats := relation_stats f;
     processed_nodes := processed_nodes f;
     rejected_relations := rejected_relations f;
     min_weight := min_weight f;
     max_triangles_per_node := max_triangles_per_node f; db := db f |}.

Definition set_triangles (l : list triangle) (f : TriangleFinder)
    : TriangleFinder :=
  {| api_client := api_client f; triangles := l;
     relation_stats := relation_stats f;
     processed_nodes := processed_nodes f;
     rejected_relations := rejected_relations f;
     min_weight := min_weight f;
     max_triangles_per_node := max_triangles_per_node f; db := db f |}.

Definition set_relation_stats (m : gmap Z nat) (f : TriangleFinder)
    : TriangleFinder :=
  {| api_client := api_client f; triangles := triangles f;
     relation_stats := m;
     processed_nodes := processed_nodes f;
     rejected_relations := rejected_relations f;
     min_weight := min_weight f;
     max_triangles_per_node := max_triangles_per_node f; db := db f |}.

Definition set_processed_nodes (s : gset string) (f : TriangleFinder)
    : TriangleFinder :=
  {| api_client := api_client f; triangles := triangles f;
     relation_stats := relation_stats f;
     processed_nodes := s;
     rejected_relations := rejected_relations f;
     min_weight := min_weight f;
     max_triangles_per_node := max_triangles_per_node f; db := db f |}.

Definition set_min_weight (w : weight) (f : TriangleFinder) : TriangleFinder :=
  {| api_client := api_client f; triangles := triangles f;
     relation_stats := relation_stats f;
     processed_nodes := processed_nodes f;
     rejected_relations := rejected_relations f;
     min_weight := w;
     max_triangles_per_node := max_triangles_per_node f; db := db f |}.

Definition set_db (d : option TriangleDatabase) (f : TriangleFinder)
    : TriangleFinder :=
  {| api_client := api_client f; triangles := triangles f;
     relation_stats := relation_stats f;
     processed_nodes := processed_nodes f;
     rejected_relations := rejected_relations f;
     min_weight := min_weight f;
     max_triangles_per_node := max_triangles_per_node f; db := d |}.

(** How a piece of the body of [find_triangles] ends: it falls through to
    the next statement, it executes [return v], or it raises. *)
Inductive flow (X : Type) : Type :=
| Continue (x : X)
| Return (v : list triangle)
| Raised (e : exn).
Arguments Continue {X} x.
Arguments Return {X} v.
Arguments Raised {X} e.

(** [next(r for r in l if P r)] *)
Definition next {X : Type} (P : X -> Prop) `{!forall x, Decision (P x)}
    (l : list X) : result X :=
  match filter P l with
  | r :: _ => Ok r
  | [] => Raise StopIteration
  end.

(** [max_triangles_per_node is not None and
     triangles_for_node >= max_triangles_per_node] *)
Definition cap_reached (f : TriangleFinder) (triangles_for_node : nat) : bool :=
  match max_triangles_per_node f with
  | Some k => bool_decide (k <= Z.of_nat triangles_for_node)
  | None => false
  end.

(** The dict [triangle = {'A': node_name, ...}] (lines 94 to 104). *)
Definition make_triangle (node_name target_b source_c : string)
    (rel1 rel2 rel3 : relation) : triangle :=
  {| A := node_name; B := target_b; C := source_c;
     A_to_B := rel_type rel1; C_to_B := rel_type rel2;
     A_to_C := rel_type rel3;
     A_to_B_weight := rel_weight rel1;
     C_to_B_weight := rel_weight rel2;
     A_to_C_weight := rel_weight rel3 |}.

(** [relation_stats[ty] += 1] on a [defaultdict(int)] *)
Definition count_type (ty : Z) (m : gmap Z nat) : gmap Z nat :=
  <[ty := S (default 0%nat (m !! ty))]> m.

Section Finder.
Context (W : World).

(** [if self.db: self.db.op(..)], and [self.db and self.db.op(..)] *)
Definition with_db {X : Type}
    (op : TriangleDatabase -> result X * TriangleDatabase) (no_db : X)
    (f : TriangleFinder) : result X * TriangleFinder :=
  match db f with
  | None => (Ok no_db, f)
  | Some d => let '(r, d') := op d in (r, set_db (Some d') f)
  end.

(** The loop [for rel3 in relations_from] (lines 83 to 114). *)
Fixpoint close_triangles (node_name target_b source_c : string)
    (relations_from relations_to_b : list relation)
    (todo : list relation) (triangles_for_node : nat) (f : TriangleFinder)
    : flow nat * TriangleFinder :=
  match todo with
  | [] => (Continue triangles_for_node, f)
  | rel3 :: rest =>
    if decide (rel_target rel3 = source_c) then
      match next (fun r => rel_target r = target_b) relations_from with
      | Raise e => (Raised e, f)
      | Ok rel1 =>
        match next (fun r => rel_source r = source_c) relations_to_b with
        | Raise e => (Raised e, f)
        | Ok rel2 =>
          let triangle :=
            make_triangle node_name target_b source_c rel1 rel2 rel3 in
          let f1 := set_triangles (triangles f ++ [triangle]) f in
          match with_db (save_triangle W triangle) false f1 with
          | (Raise e, f2) => (Raised e, f2)
          | (Ok _, f2) =>
            let f3 :=
              set_relation_stats
                (count_type (rel_type rel1) (relation_stats f2)) f2 in
            close_triangles node_name target_b source_c
              relations_from relations_to_b rest (S triangles_for_node) f3
          end
        end
      end
    else
      close_triangles node_name target_b source_c
        relations_from relations_to_b rest triangles_for_node f
  end.

(** The loop [for source_c in source_nodes] (lines 76 to 114). *)
Fixpoint scan_sources (node_name target_b : string)
    (relations_from relations_to_b : list relation)
    (source_nodes : list string) (triangles_for_node : nat)
    (f : TriangleFinder) : flow nat * TriangleFinder :=
  match source_nodes with
  | [] => (Continue triangles_for_node, f)
  | source_c :: rest =>
    if cap_reached f triangles_for_node then (Return (triangles f), f)
    else
      match close_triangles node_name target_b source_c
              relations_from relations_to_b relations_from
              triangles_for_node f with
      | (Continue n, f') =>
          scan_sources node_name target_b relations_from relations_to_b
            rest n f'
      | stop => stop
      end
  end.

(** The loop [for target_b in target_nodes] (lines 59 to 114). *)
Fixpoint scan_targets (node_name : string) (relations_from : list relation)
    (target_nodes : list string) (triangles_for_node : nat)
    (f : TriangleFinder) : flow nat * TriangleFinder :=
  match target_nodes with
  | [] => (Continue triangles_for_node, f)
  | target_b :: rest =>
    if cap_reached f triangles_for_node then (Return (triangles f), f)
    else
      match get_relations_to W target_b (api_client f) with
      | (Raise e, c) => (Raised e, set_api_client c f)
      | (Ok [], c) =>
          scan_targets node_name relations_from rest triangles_for_node
            (set_api_client c f)
      | (Ok relations_to_b, c) =>
        let source_nodes :=
          set_order W
            (rel_source <$>
               filter (fun rel => rel_source rel <> node_name)
                 relations_to_b) in
        match scan_sources node_name target_b relations_from relations_to_b
                source_nodes triangles_for_node (set_api_client c f) with
        | (Continue n, f') =>
            scan_targets node_name relations_from rest n f'
        | stop => stop
        end
      end
  end.

(** The [try] block of [find_triangles] (lines 45 to 114). *)
Definition find_triangles_try (node_name : string) (f : TriangleFinder)
    : flow nat * TriangleFinder :=
  match get_relations_from W node_name (api_client f) with
  | (Raise e, c) => (Raised e, set_api_client c f)
  | (Ok [], c) => (Return [], set_api_client c f)
  | (Ok relations_from, c) =>
      scan_targets node_name relations_from
        (set_order W (rel_target <$> relations_from)) 0
        (set_api_client c f)
  end.

(** The guards of [find_triangles] (lines 23 to 38): [Ok None] when the
    node is skipped, which makes [find_triangles] return [[]]; else the
    name of the node, which is now visited and in progress. *)
Definition enter_node (start_node : pyobject) (f : TriangleFinder)
    : result (option string) * TriangleFinder :=
  match start_node with
  | PyOther => (Ok None, f)
  | PyDict n =>
    match node_name n with
    | None => (Ok None, f)
    | Some node_name =>
      if decide (node_name = "") then (Ok None, f)
      else
        match with_db (is_node_processed W node_name) false f with
        | (Raise e, f0) => (Raise e, f0)
        | (Ok true, f0) => (Ok None, f0)
        | (Ok false, f0) =>
          if decide (node_name ∈ processed_nodes f0) then (Ok None, f0)
          else
            let f1 :=
              set_processed_nodes ({[node_name]} ∪ processed_nodes f0) f0 in
            match with_db (mark_node_in_progress W node_name) tt f1 with
            | (Raise e, f2) => (Raise e, f2)
            | (Ok _, f2) => (Ok (Some node_name), f2)
            end
        end
    end
  end.

(** [find_triangles]: the guards, the [try] block with its handler
    [except Exception: return []], and lines 120 to 122. *)
Definition find_triangles (start_node : pyobject) (f : TriangleFinder)
    : result (list triangle) * TriangleFinder :=
  match enter_node start_node f with
  | (Raise e, f0) => (Raise e, f0)
  | (Ok None, f0) => (Ok [], f0)
  | (Ok (Some node_name), f2) =>
    match find_triangles_try node_name f2 with
    | (Raised _, f3) => (Ok [], f3)
    | (Return v, f3) => (Ok v, f3)
    | (Continue _, f3) =>
      match with_db (mark_node_processed W node_name) tt f3 with
      | (Raise e, f4) => (Raise e, f4)
      | (Ok _, f4) => (Ok (triangles f4), f4)
      end
    end
  end.

(** The loop [for node in nodes] of [find_all_triangles]. *)
Fixpoint for_each_node (nodes : list node) (f : TriangleFinder)
    : result unit * TriangleFinder :=
  match nodes with
  | [] => (Ok tt, f)
  | n :: rest =>
    match find_triangles (PyDict n) f with
    | (Raise e, f') => (Raise e, f')
    | (Ok _, f') => for_each_node rest f'
    end
  end.

(** [find_all_triangles] *)
Definition find_all_triangles (f : TriangleFinder)
    : result (list triangle) * TriangleFinder :=
  match get_all_nodes W (api_client f) with
  | (Raise e, c) => (Raise e, set_api_client c f)
  | (Ok [], c) => (Ok [], set_api_client c f)
  | (Ok nodes, c) =>
    match for_each_node nodes (set_api_client c f) with
    | (Raise e, f') => (Raise e, f')
    | (Ok _, f') => (Ok (triangles f'), f')
    end
  end.

(** [get_statistics]: the counts, the settings and the per-type counters
    of the returned dict.  Its entry ['average_weights'] is a sum and a
    quotient of floats, whose rounding is the interpreter's; it has no
    field here. *)
Record statistics : Type := {
  total_triangles : nat;
  total_rejected_relations : nat;
  minimum_weight_threshold : weight;
  stat_max_triangles_per_node : option Z;
  relation_types : gmap Z nat
}.

Definition get_statistics (f : TriangleFinder) : statistics :=
  {| total_triangles := length (triangles f);
     total_rejected_relations := length (rejected_relations f);
     minimum_weight_threshold := min_weight f;
     stat_max_triangles_per_node := max_triangles_per_node f;
     relation_types := relation_stats f |}.

End Finder.

(** ** main.py *)

Module main.

(** How a piece of [main] that reads the console ends: with a value, with
    the [ValueError] of [int(x)], or with the [EOFError] of [input] when
    the input is exhausted. *)
Inductive outcome (X : Type) : Type :=
| Value (x : X)
| ValueError
| EOFError.
Arguments Value {X} x.
Arguments ValueError {X}.
Arguments EOFError {X}.

Section Console.
(** The builtins [str.isdigit] and [int]; [int x] is [None] when [int(x)]
    raises [ValueError]. *)
Variable isdigit : string -> bool.
Variable int : string -> option Z.

(** [get_user_input]: [stdin] holds the lines that [input] will read; a
    validation function answers, or raises [ValueError]. *)
Fixpoint get_user_input (default_value : string)
    (validation_func : option (string -> option bool)) (stdin : list string)
    : outcome string * list string :=
  match stdin with
  | [] => (EOFError, [])
  | line :: rest =>
    let value := if decide (line = "") then default_value else line in
    match validation_func with
    | None => (Value value, rest)
    | Some valid =>
      match valid value with
      | None => (ValueError, rest)
      | Some true => (Value value, rest)
      | Some false => get_user_input default_value validation_func rest
      end
    end
  end.

(** [lambda x: x == "" or (x.isdigit() and int(x) > 0)] *)
Definition valid_max_triangles (x : string) : option bool :=
  if decide (x = "") then Some true
  else if isdigit x then
    match int x with
    | Some n => Some (bool_decide (0 < n))
    | None => None
    end
  else Some false.

(** Lines 38 to 44 of [main]: the cap that the finder is built with. *)
Definition read_max_triangles (stdin : list string)
    : outcome (option Z) * list string :=
  match get_user_input "" (Some valid_max_triangles) stdin with
  | (Value max_triangles, rest) =>
    if decide (max_triangles = "") then (Value None, rest)
    else
      match int max_triangles with
      | Some n => (Value (Some n), rest)
      | None => (ValueError, rest)
      end
  | (ValueError, rest) => (ValueError, rest)
  | (EOFError, rest) => (EOFError, rest)
  end.

End Console.

(** A console whose digits are the ASCII digits. *)
Definition digit_of (a : ascii) : option Z :=
  let n := Z.of_nat (nat_of_ascii a) in
  if decide (48 <= n <= 57) then Some (n - 48) else None.

Fixpoint parse_digits (s : string) (acc : Z) : option Z :=
  match s with
  | EmptyString => Some acc
  | String a s' =>
    match digit_of a with
    | Some d => parse_digits s' (10 * acc + d)
    | None => None
    end
  end.

Definition ascii_int (s : string) : option Z :=
  if decide (s = "") then None else parse_digits s 0.

Definition ascii_isdigit (s : string) : bool :=
  bool_decide (is_Some (ascii_int s)).

End main.

(** ** visualizer.py *)

Module visualizer.

(** A [networkx.DiGraph] whose edges carry the attributes [type] and
    [weight]: at most one edge from a node to another. *)
Record DiGraph : Type := {
  graph_nodes : gset string;
  graph_edges : gmap (string * string) (Z * weight)
}.

Definition empty_graph : DiGraph :=
  {| graph_nodes := ∅; graph_edges := ∅ |}.

(** [G.add_node(n)] *)
Definition add_node (n : string) (g : DiGraph) : DiGraph :=
  {| graph_nodes := {[n]} ∪ graph_nodes g; graph_edges := graph_edges g |}.

(** [G.add_edge(u, v, type=ty, weight=w)]: the attributes of an edge that
    exists are overwritten. *)
Definition add_edge (u v : string) (ty : Z) (w : weight) (g : DiGraph)
    : DiGraph :=
  {| graph_nodes := {[u; v]} ∪ graph_nodes g;
     graph_edges := <[(u, v) := (ty, w)]> (graph_edges g) |}.

Record Visualizer : Type := {
  triangles : list triangle;
  G : DiGraph
}.

(** [Visualizer.__init__] *)
Definition new_visualizer : Visualizer :=
  {| triangles := []; G := empty_graph |}.

(** [add_triangle] *)
Definition add_triangle (triangle : triangle) (v : Visualizer)
    : Visualizer :=
  {| triangles := triangles v ++ [triangle];
     G := add_edge (A triangle) (C triangle)
            (A_to_C triangle) (A_to_C_weight triangle)
            (add_edge (C triangle) (B triangle)
               (C_to_B triangle) (C_to_B_weight triangle)
               (add_edge (A triangle) (B triangle)
                  (A_to_B triangle) (A_to_B_weight triangle)
                  (add_node (C triangle)
                     (add_node (B triangle)
                        (add_node (A triangle) (G v)))))) |}.

(** The loop [for triangle in triangles: visualizer.add_triangle(triangle)]
    of [main]. *)
Definition add_triangles (ts : list triangle) (v : Visualizer) : Visualizer :=
  foldl (fun v t => add_triangle t v) v ts.

(** [str(n)] for an [int]. *)
Definition str (n : Z) : string := NilZero.string_of_int (Z.to_int n).

(** [f"R2{r2}-R3{r3}"] *)
Definition pair_key (r2 r3 : Z) : string :=
  "R2" ++ str r2 ++ "-R3" ++ str r3.

(** [d[key] += 1] on a [defaultdict(int)]; a dict keeps its keys in the
    order of their insertion. *)
Fixpoint increment (key : string) (d : list (string * nat))
    : list (string * nat) :=
  match d with
  | [] => [(key, 1%nat)]
  | (k, n) :: rest =>
    if decide (k = key) then (k, S n) :: rest
    else (k, n) :: increment key rest
  end.

(** The loop that counts the pairs R2-R3 of a list of triangles. *)
Definition count_pairs (ts : list triangle) : list (string * nat) :=
  foldl (fun d t => increment (pair_key (C_to_B t) (A_to_C t)) d) [] ts.

(** [sorted(d.items(), key=lambda x: x[1], reverse=True)]: the sort is
    stable, so the items with the same count keep their order. *)
Fixpoint insert_by_count (x : string * nat) (l : list (string * nat))
    : list (string * nat) :=
  match l with
  | [] => [x]
  | y :: rest =>
    if decide (snd y <= snd x)%nat then x :: y :: rest
    else y :: insert_by_count x rest
  end.

Definition sorted_by_count (l : list (string * nat)) : list (string * nat) :=
  foldr insert_by_count [] l.

(** What [plot_specific_relation_pairs] and [plot_specific_ab_pairs] write
    in their summary for the triangles they select: the number of the
    triangles and the sorted pairs; [None] when they select no triangle
    and return at once. *)
Definition summary (selected : list triangle)
    : option (nat * list (string * nat)) :=
  match selected with
  | [] => None
  | _ => Some (length selected, sorted_by_count (count_pairs selected))
  end.

(** [plot_specific_relation_pairs] *)
Definition plot_specific_relation_pairs (r1_type : Z) (v : Visualizer)
    : option (nat * list (string * nat)) :=
  summary (filter (fun t => A_to_B t = r1_type) (triangles v)).

(** [plot_specific_ab_pairs] *)
Definition plot_specific_ab_pairs (node_a node_b : string) (v : Visualizer)
    : option (nat * list (string * nat)) :=
  summary (filter (fun t => A t = node_a /\ B t = node_b) (triangles v)).

(** The edges that [add_triangle] sets, in the order in which it sets
    them. *)
Definition edges_of (t : triangle) : list (string * string * (Z * weight)) :=
  [ (A t, B t, (A_to_B t, A_to_B_weight t));
    (C t, B t, (C_to_B t, C_to_B_weight t));
    (A t, C t, (A_to_C t, A_to_C_weight t)) ].

End visualizer.

(** ** Notions used in the statements *)

(** The number of times the request [r] was sent. *)
Definition fetches (r : request) (c : JDMAPIClient) : nat :=
  length (filter (fun r' => r' = r) (session c)).

Definition is_node_request (r : request) : Prop :=
  match r with
  | NodeById _ => True
  | _ => False
  end.

(** A relation or a triangle none of whose type codes is excluded. *)
Definition allowed_relation (r : relation) : Prop :=
  rel_type r ∉ EXCLUDED_RELATION_TYPES.

Definition allowed (t : triangle) : Prop :=
  (A_to_B t ∉ EXCLUDED_RELATION_TYPES) /\
  (C_to_B t ∉ EXCLUDED_RELATION_TYPES) /\
  (A_to_C t ∉ EXCLUDED_RELATION_TYPES).

(** Both memos of relations hold allowed relations only. *)
Definition clean_cache (c : JDMAPIClient) : Prop :=
  (forall word l, relations_cache c !! word = Some l ->
     Forall allowed_relation l) /\
  (forall word l, reverse_relations_cache c !! word = Some l ->
     Forall allowed_relation l).

(** A node is a seed when its fetch succeeded, it is a dict, and its name
    (the empty string when it has none) does not start with ['en:']. *)
Definition english (n : node) : bool :=
  String.prefix "en:" (default "" (node_name n)).

Definition seed_of (answer : option pyobject) : option node :=
  match answer with
  | Some (PyDict n) => if english n then None else Some n
  | _ => None
  end.

(** The triangle [t] is what the matching step builds for the seed
    [node_name] and the target [target_b] out of the outgoing relations of
    the seed and the incoming relations of the target: its edges A->B and
    C->B are the first relations of the lists with these ends, its edge
    A->C is any relation of the seed to C. *)
Definition formed_from (node_name target_b : string)
    (relations_from relations_to_b : list relation) (t : triangle) : Prop :=
  exists rel1 rel2 rel3,
    next (fun r => rel_target r = target_b) relations_from = Ok rel1 /\
    next (fun r => rel_source r = C t) relations_to_b = Ok rel2 /\
    rel3 ∈ relations_from /\ rel_target rel3 = C t /\
    t = make_triangle node_name target_b (C t) rel1 rel2 rel3.

(** The triangle [t] is formed from lists that the memos of [c] hold, and
    its node C is an element of the set of sources that the enumeration
    builds for B. *)
Definition backed (W : World) (c : JDMAPIClient) (t : triangle) : Prop :=
  exists relations_from relations_to_b,
    relations_cache c !! A t = Some relations_from /\
    reverse_relations_cache c !! B t = Some relations_to_b /\
    formed_from (A t) (B t) relations_from relations_to_b t /\
    C t ∈ set_order W
            (rel_source <$>
               filter (fun rel => rel_source rel <> A t) relations_to_b).

Definition is_save (P : triangle -> Prop) (stmt : statement) : Prop :=
  match stmt with
  | SaveTriangle t => P t
  | _ => False
  end.

(** A journal entry that is harmless for [P]: a status statement, or the
    insertion of a triangle that satisfies [P]. *)
Definition saves_only (P : triangle -> Prop) (stmt : statement) : Prop :=
  match stmt with
  | SaveTriangle t => P t
  | _ => True
  end.

(** What the matching step for the seed [node_name], the target [target_b]
    and the sources [source_nodes] can append. *)
Definition matched (node_name target_b : string)
    (relations_from relations_to_b : list relation)
    (source_nodes : list string) (t : triangle) : Prop :=
  A t = node_name /\ B t = target_b /\ C t ∈ source_nodes /\
  formed_from node_name target_b relations_from relations_to_b t.

(** The statements of the status of a node, as opposed to the insertion
    of a triangle. *)
Definition is_status (stmt : statement) : Prop :=
  match stmt with
  | SaveTriangle _ => False
  | _ => True
  end.

(** A method that executes one status statement: it appends it to the
    journal, leaves the table of triangles alone, and raises exactly what
    SQLite raises on the statement. *)
Definition status_statement {X : Type} (W : World)
    (op : TriangleDatabase -> result X * TriangleDatabase) : Prop :=
  forall d r d', op d = (r, d') ->
    triangles_table d' = triangles_table d /\
    exists stmt, is_status stmt /\ journal d' = journal d ++ [stmt] /\
      match db_fault W (length (journal d)) with
      | Some s => r = Raise (SqliteError s)
      | None => exists x, r = Ok x
      end.

(** The store [o'] is the store [o] after statements that satisfy [S] and
    new rows that satisfy [P]. *)
Definition db_extends (P : triangle -> Prop) (S : statement -> Prop)
    (o o' : option TriangleDatabase) : Prop :=
  match o, o' with
  | None, None => True
  | Some d, Some d' =>
      (exists stmts, journal d' = journal d ++ stmts /\ Forall S stmts) /\
      (exists rows, triangles_table d' = triangles_table d ++ rows /\
                    Forall P rows)
  | _, _ => False
  end.

(** The finder [f'] is the finder [f] after a piece of the enumeration:
    triangles that satisfy [P] were appended, the memos grew, the
    configuration is the same. *)
Record extends (P : triangle -> Prop) (S : statement -> Prop)
    (f f' : TriangleFinder) : Prop := {
  ext_triangles :
    exists new, triangles f' = triangles f ++ new /\ Forall P new;
  ext_min_weight : min_weight f' = min_weight f;
  ext_cap : max_triangles_per_node f' = max_triangles_per_node f;
  ext_rejected : rejected_relations f' = rejected_relations f;
  ext_processed : processed_nodes f ⊆ processed_nodes f';
  ext_db : db_extends P S (db f) (db f');
  ext_relations_cache :
    relations_cache (api_client f) ⊆ relations_cache (api_client f');
  ext_reverse_relations_cache :
    reverse_relations_cache (api_client f)
      ⊆ reverse_relations_cache (api_client f');
  ext_clean : clean_cache (api_client f) -> clean_cache (api_client f')
}.

(** No memoized relation goes from a word to itself. *)
Definition loop_free (c : JDMAPIClient) : Prop :=
  (forall word l r, relations_cache c !! word = Some l -> r ∈ l ->
     rel_target r <> word) /\
  (forall word l r, reverse_relations_cache c !! word = Some l -> r ∈ l ->
     rel_source r <> word).

(** The outcome of a method of the finder, had the weight floor been [w]. *)
Definition with_floor {X : Type} (w : weight) (p : X * TriangleFinder)
    : X * TriangleFinder :=
  (fst p, set_min_weight w (snd p)).

(** The node is skipped: it is no dict, it has no name or an empty one,
    the store has it completed, or it was visited in this run. *)
Definition skipped (W : World) (start_node : pyobject) (f : TriangleFinder)
    : Prop :=
  match start_node with
  | PyOther => True
  | PyDict n =>
    match node_name n with
    | None => True
    | Some name =>
        name = "" \/
        fst (with_db (is_node_processed W name) false f) = Ok true \/
        (fst (with_db (is_node_processed W name) false f) = Ok false /\
         name ∈ processed_nodes f)
    end
  end.

(** The error, if any, with which SQLite refused the last statement of the
    journal. *)
Definition last_fault (W : World) (d : TriangleDatabase)
    : option sqlite_error :=
  db_fault W (Nat.pred (length (journal d))).

(** What the loop over [rel3] appends for the seed [node_name], the target
    [target_b] and the source [source_c]: one triangle for each relation of
    the seed to [source_c], in the order of the list, all with the first
    relation of the seed to [target_b] and the first relation of
    [source_c] to [target_b]. *)
Definition triangles_of (node_name target_b source_c : string)
    (relations_from relations_to_b todo : list relation) : list triangle :=
  match next (fun r => rel_target r = target_b) relations_from,
        next (fun r => rel_source r = source_c) relations_to_b with
  | Ok rel1, Ok rel2 =>
      make_triangle node_name target_b source_c rel1 rel2 <$>
        filter (fun rel3 => rel_target rel3 = source_c) todo
  | _, _ => []
  end.

(** [m] bounds the number of relations of the list to one target. *)
Definition multiplicity (relations_from : list relation) (m : nat) : Prop :=
  forall c, (length (filter (fun r => rel_target r = c) relations_from) <= m)%nat.

(** The incoming relations of [target_b] as the memo of [c] holds them. *)
Definition incoming (c : JDMAPIClient) (target_b : string) : list relation :=
  default [] (reverse_relations_cache c !! target_b).

(** The set [source_nodes] that the enumeration builds for a target, in
    the order in which it is iterated. *)
Definition sources_of (W : World) (node_name : string)
    (relations_to_b : list relation) : list string :=
  set_order W
    (rel_source <$>
       filter (fun rel => rel_source rel <> node_name) relations_to_b).

(** All the triangles of the seed through the target [target_b], and
    through the targets of a list, in the order of the enumeration. *)
Definition triangles_through (W : World) (node_name : string)
    (relations_from relations_to_b : list relation) (target_b : string)
    : list triangle :=
  sources_of W node_name relations_to_b ≫= fun source_c =>
    triangles_of node_name target_b source_c relations_from relations_to_b
      relations_from.

Definition motifs (W : World) (node_name : string)
    (relations_from : list relation) (c : JDMAPIClient)
    (target_nodes : list string) : list triangle :=
  target_nodes ≫= fun target_b =>
    triangles_through W node_name relations_from (incoming c target_b)
      target_b.

(** The number of statements sent to the store so far; the next one is
    the statement of this number. *)
Definition statements (f : TriangleFinder) : nat :=
  match db f with
  | Some d => length (journal d)
  | None => 0%nat
  end.

(** SQLite refused, with the error [s], a statement of the status of a
    node that was sent to the store [o] as its statement [m] or later. *)
Definition refused_status (W : World) (m : nat)
    (o : option TriangleDatabase) (s : sqlite_error) : Prop :=
  exists d n stmt,
    o = Some d /\ (m <= n)%nat /\ journal d !! n = Some stmt /\
    is_status stmt /\ db_fault W n = Some s.

(** SQLite refused, with an [OperationalError], the insertion of a
    triangle that was sent to the store [o] as its statement [m] or
    later; [save_triangle] catches [IntegrityError] only. *)
Definition refused_save (W : World) (m : nat)
    (o : option TriangleDatabase) : Prop :=
  exists d n t,
    o = Some d /\ (m <= n)%nat /\ journal d !! n = Some (SaveTriangle t) /\
    db_fault W n = Some OperationalError.

(** The client [c] is as a call of [get_relations_to] that raised left
    it, a call made after [k] requests or more. *)
Definition raised_fetch (W : World) (k : nat) (c : JDMAPIClient) : Prop :=
  exists c0 word e,
    (k <= length (session c0))%nat /\
    get_relations_to W word c0 = (Raise e, c).

(** Every payload that answered a request for incoming relations, the
    request [k] or a later one, was processed and memoized. *)
Definition memoized_from (W : World) (k : nat) (c : JDMAPIClient) : Prop :=
  forall n word relations nodes,
    (k <= n)%nat -> session c !! n = Some (RelationsTo word) ->
    net_relations_to W n word = Some (Payload relations nodes) ->
    is_Some (reverse_relations_cache c !! word).

(** ** Notions of the further properties *)

(** Lines 105 to 114 of [find_triangles]: the triangle is appended to the
    list, saved when there is a store, and then counted under the type of
    its edge A->B. *)
Definition record_triangle (W : World) (t : triangle) (f : TriangleFinder)
    : result unit * TriangleFinder :=
  let f1 := set_triangles (triangles f ++ [t]) f in
  match with_db (save_triangle W t) false f1 with
  | (Raise e, f2) => (Raise e, f2)
  | (Ok _, f2) =>
      (Ok tt,
       set_relation_stats (count_type (A_to_B t) (relation_stats f2)) f2)
  end.

(** The ids of the nodes that were requested by id, oldest first. *)
Definition node_requests (c : JDMAPIClient) : list Z :=
  omap (fun r => match r with NodeById id => Some id | _ => None end)
    (session c).

(** No node was requested twice by id, and every node that was requested
    is memoized, as a node or as a failure. *)
Definition requests_recorded (c : JDMAPIClient) : Prop :=
  NoDup (node_requests c) /\
  forall id, id ∈ node_requests c ->
    is_Some (node_cache c !! id) \/ id ∈ failed_nodes c.

(** What a relation keeps of the payload: its type, and its weight as a
    float. *)
Definition signature (r : relation) : Z * result weight :=
  (rel_type r, Ok (rel_weight r)).

Definition raw_signature (rel : raw_relation) : Z * result weight :=
  (raw_type rel, float (raw_w rel)).

(** The float of a weight of the payload, where [float] returns one. *)
Definition float_value (x : number) : weight :=
  match float x with
  | Ok w => w
  | Raise _ => 0%Q
  end.

(** The name under which the payload lists the node [id]. *)
Definition listed_name (node_map : gmap Z node) (id : Z) : option string :=
  node_map !! id ≫= node_name.

(** The relation of the payload, with the names of its ends as the
    payload lists them. *)
Definition named_relation (node_map : gmap Z node) (rel : raw_relation)
    : relation :=
  {| rel_source := default "" (listed_name node_map (node1 rel));
     rel_target := default "" (listed_name node_map (node2 rel));
     rel_type := raw_type rel; rel_weight := float_value (raw_w rel) |}.

(** The identities of the rows of the table [triangles]. *)
Definition stored_keys (d : TriangleDatabase)
    : list (string * string * string * Z * Z * Z) :=
  triangle_key <$> triangles_table d.

(** The [UNIQUE] constraint of the table [triangles] holds. *)
Definition keys_distinct (d : TriangleDatabase) : Prop :=
  NoDup (stored_keys d).

(** SQLite never answers [OperationalError]. *)
Definition never_locked (W : World) : Prop :=
  forall n, db_fault W n <> Some OperationalError.

(** SQLite never refuses a statement. *)
Definition reliable (W : World) : Prop :=
  forall n, db_fault W n = None.

(** The store of [f'] is the store of [f] after a piece of a run that
    appended the triangles [new] to the list: its new rows are triangles
    of [new], in their order; the identities of its rows stay distinct;
    a node that was completed is still completed; and all the triangles
    of [new] are stored when SQLite refuses nothing. *)
Definition stored (W : World) (new : list triangle)
    (o o' : option TriangleDatabase) : Prop :=
  match o, o' with
  | None, None => True
  | Some d, Some d' =>
      (exists rows, triangles_table d' = triangles_table d ++ rows /\
                    sublist rows new) /\
      (keys_distinct d -> keys_distinct d') /\
      (forall name, processed_nodes_table d !! name = Some completed ->
                    processed_nodes_table d' !! name = Some completed) /\
      (reliable W -> forall t, t ∈ new -> triangle_key t ∈ stored_keys d')
  | _, _ => False
  end.

Definition keeps_store (W : World) (f f' : TriangleFinder) : Prop :=
  exists new, triangles f' = triangles f ++ new /\ stored W new (db f) (db f').

(** [relation_stats[ty]] on a [defaultdict(int)], read without inserting. *)
Definition tally (m : gmap Z nat) (ty : Z) : nat := default 0%nat (m !! ty).

(** The number of triangles of a list whose edge A->B has the type [ty]. *)
Definition count_of (ty : Z) (ts : list triangle) : nat :=
  length (filter (fun t => A_to_B t = ty) ts).

(** The counters of [f'] are the counters of [f] after a piece of a run:
    no type was counted more often than triangles with it were appended,
    and exactly as often when no insertion can raise. *)
Definition counted (W : World) (f f' : TriangleFinder) : Prop :=
  exists new, triangles f' = triangles f ++ new /\
    (db f = None -> db f' = None) /\
    (forall ty, (tally (relation_stats f') ty
                 <= tally (relation_stats f) ty + count_of ty new)%nat) /\
    (db f = None \/ never_locked W ->
     forall ty, tally (relation_stats f') ty
                = (tally (relation_stats f) ty + count_of ty new)%nat).

(** Every counter of the dict is positive. *)
Definition positive_counts (m : gmap Z nat) : Prop :=
  forall ty n, m !! ty = Some n -> (0 < n)%nat.

(** The string holds no letter R. *)
Fixpoint no_R (s : string) : Prop :=
  match s with
  | EmptyString => True
  | String a s' => a <> "R"%char /\ no_R s'
  end.

(** ** Scenarios *)

(** Worlds whose network does not change over time, whose store never
    fails, and whose sets are iterated in the order [remove_dups] gives. *)
Definition steady_world (nodes : string -> option pyobject)
    (from to : string -> option payload) : World :=
  {| node_by_id := fun _ _ => None;
     node_by_name := fun _ => nodes;
     net_relations_from := fun _ => from;
     net_relations_to := fun _ => to;
     db_fault := fun _ => None;
     set_order := remove_dups |}.

Definition chat : node := Node (Some 1) (Some "chat").
Definition animal : node := Node (Some 2) (Some "animal").
Definition chien : node := Node (Some 3) (Some "chien").

(** chat -6-> animal, chien -6-> animal, chat -7-> chien. *)
Definition chat_from (word : string) : option payload :=
  if decide (word = "chat")
  then Some (Payload [RawRelation 1 2 6 1%Q; RawRelation 1 3 7 (-1 # 2)%Q]
               [chat; animal; chien])
  else None.

Definition chat_to (word : string) : option payload :=
  if decide (word = "animal")
  then Some (Payload [RawRelation 1 2 6 1%Q; RawRelation 3 2 6 1%Q]
               [chat; animal; chien])
  else if decide (word = "chien")
  then Some (Payload [RawRelation 1 3 7 (-1 # 2)%Q] [chat; animal; chien])
  else None.

Definition chat_world : World :=
  steady_world (fun _ => None) chat_from chat_to.

(** The network is down. *)
Definition offline_world : World :=
  steady_world (fun _ => None) (fun _ => None) (fun _ => None).

(** The first request fails, the later ones are answered. *)
Definition flaky_world : World :=
  {| node_by_id := fun _ _ => None;
     node_by_name := fun _ _ => None;
     net_relations_from := fun n word =>
       match n with O => None | S _ => chat_from word end;
     net_relations_to := fun n word =>
       match n with O => None | S _ => chat_to word end;
     db_fault := fun _ => None;
     set_order := remove_dups |}.

(** The store of a first run: [TriangleDatabase.__init__] on a new file. *)
Definition empty_database : TriangleDatabase :=
  {| journal := []; processed_nodes_table := ∅; triangles_table := [] |}.

(** chat -6-> animal, animal -5-> animal: a relation of a node to itself. *)
Definition loop_from (word : string) : option payload :=
  if decide (word = "chat")
  then Some (Payload [RawRelation 1 2 6 1%Q] [chat; animal])
  else None.

Definition loop_to (word : string) : option payload :=
  if decide (word = "animal")
  then Some (Payload [RawRelation 1 2 6 1%Q; RawRelation 2 2 5 1%Q]
               [chat; animal])
  else None.

Definition loop_world : World :=
  steady_world (fun _ => None) loop_from loop_to.

(** The world of the scenario, where SQLite refuses the third statement. *)
Definition faulty_world : World :=
  {| node_by_id := fun _ _ => None;
     node_by_name := fun _ _ => None;
     net_relations_from := fun _ => chat_from;
     net_relations_to := fun _ => chat_to;
     db_fault := fun n =>
       match n with 2%nat => Some OperationalError | _ => None end;
     set_order := remove_dups |}.

(** chat -6-> animal, chat -5-> chien, chat -7-> chien, chien -6-> animal:
    two relations of the seed to the same node. *)
Definition parallel_from (word : string) : option payload :=
  if decide (word = "chat")
  then Some (Payload [RawRelation 1 2 6 1%Q; RawRelation 1 3 5 1%Q;
                      RawRelation 1 3 7 (-1 # 2)%Q]
               [chat; animal; chien])
  else None.

Definition parallel_to (word : string) : option payload :=
  if decide (word = "animal")
  then Some (Payload [RawRelation 3 2 6 1%Q] [chat; animal; chien])
  else None.

Definition parallel_world : World :=
  steady_world (fun _ => None) parallel_from parallel_to.

(** The same world, with the sets iterated in the opposite order. *)
Definition reversed (W : World) : World :=
  {| node_by_id := node_by_id W;
     node_by_name := node_by_name W;
     net_relations_from := net_relations_from W;
     net_relations_to := net_relations_to W;
     db_fault := db_fault W;
     set_order := fun l => reverse (set_order W l) |}.

(** chat -6-> animal, chat -7-> chien, chien -6-> animal, animal -6-> chien:
    each target of the seed closes a triangle with the other one. *)
Definition mutual_to (word : string) : option payload :=
  if decide (word = "animal")
  then Some (Payload [RawRelation 3 2 6 1%Q] [chat; animal; chien])
  else if decide (word = "chien")
  then Some (Payload [RawRelation 2 3 6 1%Q] [chat; animal; chien])
  else None.

Definition mutual_world : World :=
  steady_world (fun _ => None) chat_from mutual_to.

(** A seed without relations. *)
Definition lonely_world : World :=
  steady_world (fun _ => None)
    (fun word => if decide (word = "chat") then Some (Payload [] [chat])
                 else None)
    (fun _ => None).

(** SQLite refuses every statement. *)
Definition locked_world : World :=
  {| node_by_id := fun _ _ => None;
     node_by_name := fun _ _ => None;
     net_relations_from := fun _ => chat_from;
     net_relations_to := fun _ => chat_to;
     db_fault := fun _ => Some OperationalError;
     set_order := remove_dups |}.

(** The node of "mot" is English, the node of "sac" is not, the other sample
    words cannot be fetched. *)
Definition seed_world : World :=
  steady_world
    (fun word =>
       if decide (word = "mot") then Some (PyDict (Node (Some 7) (Some "en:word")))
       else if decide (word = "sac") then Some (PyDict (Node (Some 8) (Some "sac")))
       else None)
    (fun _ => None) (fun _ => None).

(** The sample word "mot" is a seed: mot -6-> parole, terme -6-> parole,
    mot -7-> terme; the other sample words cannot be fetched. *)
Definition mot : node := Node (Some 10) (Some "mot").
Definition parole : node := Node (Some 11) (Some "parole").
Definition terme : node := Node (Some 12) (Some "terme").

Definition mot_from (word : string) : option payload :=
  if decide (word = "mot")
  then Some (Payload [RawRelation 10 11 6 1%Q; RawRelation 10 12 7 (-1 # 2)%Q]
               [mot; parole; terme])
  else None.

Definition mot_to (word : string) : option payload :=
  if decide (word = "parole")
  then Some (Payload [RawRelation 10 11 6 1%Q; RawRelation 12 11 6 1%Q]
               [mot; parole; terme])
  else if decide (word = "terme")
  then Some (Payload [RawRelation 10 12 7 (-1 # 2)%Q] [mot; parole; terme])
  else None.

Definition mot_world : World :=
  steady_world
    (fun word => if decide (word = "mot") then Some (PyDict mot) else None)
    mot_from mot_to.

(** The same network, whose payloads do not list their nodes: the nodes
    are requested by id, and the node 12 cannot be fetched. *)
Definition bare (answer : option payload) : option payload :=
  match answer with
  | Some (Payload relations _) => Some (Payload relations [])
  | other => other
  end.

Definition bare_world : World :=
  {| node_by_id := fun _ id =>
       if decide (id = 10) then Some mot
       else if decide (id = 11) then Some parole
       else None;
     node_by_name := fun _ word =>
       if decide (word = "mot") then Some (PyDict mot) else None;
     net_relations_from := fun _ word => bare (mot_from word);
     net_relations_to := fun _ word => bare (mot_to word);
     db_fault := fun _ => None;
     set_order := remove_dups |}.

(** A payload that lists a node without its id. *)
Definition anonymous_world : World :=
  steady_world (fun _ => None)
    (fun word =>
       if decide (word = "chat")
       then Some (Payload [RawRelation 1 2 6 1%Q]
                    [chat; Node None (Some "animal")])
       else None)
    (fun _ => None).

(** The store of a run that was interrupted after the seed "mot" had been
    completed. *)
Definition resumed_database : TriangleDatabase :=
  {| journal := []; processed_nodes_table := {["mot" := completed]};
     triangles_table := [] |}.

(** The weights of the payloads are ints: that of chat -6-> animal is
    [2 ** 53 + 1], which no double equals. *)
Definition heavy_from (word : string) : option payload :=
  if decide (word = "chat")
  then Some (Payload [RawRelation 1 2 6 (PyInt (2 ^ 53 + 1));
                      RawRelation 1 3 7 (PyInt (-25))]
               [chat; animal; chien])
  else None.

Definition heavy_world : World :=
  steady_world (fun _ => None) heavy_from (fun _ => None).

(** The weight of chien -6-> animal is the int [10 ** 400], beyond the
    largest double. *)
Definition huge_to (word : string) : option payload :=
  if decide (word = "animal")
  then Some (Payload [RawRelation 1 2 6 1%Q;
                      RawRelation 3 2 6 (PyInt (10 ^ 400))]
               [chat; animal; chien])
  else None.

Definition huge_world : World :=
  steady_world (fun _ => None) chat_from huge_to.

(** SQLite refuses the fourth statement. *)
Definition stalled_world : World :=
  {| node_by_id := fun _ _ => None;
     node_by_name := fun _ _ => None;
     net_relations_from := fun _ => chat_from;
     net_relations_to := fun _ => chat_to;
     db_fault := fun n =>
       match n with 3%nat => Some OperationalError | _ => None end;
     set_order := remove_dups |}.

(** * Properties *)

(** ** The client *)

Section ClientFacts.
Context (W : World).

Lemma get_node_info_frame id c n c' :
  get_node_info W id c = (n, c') ->
  relations_cache c' = relations_cache c /\
  reverse_relations_cache c' = reverse_relations_cache c /\
  exists rs, session c' = session c ++ rs /\ Forall is_node_request rs.
Proof.
  unfold get_node_info. intros H.
  repeat case_match; simplify_eq; simpl; repeat split; trivial;
    solve [ exists []; rewrite app_nil_r; auto
          | eexists; split; [reflexivity|]; repeat constructor ].
Qed.

(** A node whose fetch failed is not fetched again. *)
Lemma failed_node_remembered id c :
  node_cache c !! id = None ->
  node_by_id W (length (session c)) id = None ->
  id ∉ failed_nodes c ->
  let c' := snd (get_node_info W id c) in
  fetches (NodeById id) c' = S (fetches (NodeById id) c) /\
  get_node_info W id c' = (None, c').
Proof.
  intros Hcache Hnet Hfailed. unfold get_node_info.
  rewrite Hcache, Hnet, decide_False by done. simpl. split.
  - unfold fetches. simpl. rewrite filter_app, length_app, filter_cons.
    rewrite decide_True by done. simpl. lia.
  - rewrite Hcache, decide_True by set_solver. done.
Qed.

Lemma resolve_node_frame node_map id c n c' :
  resolve_node W node_map id c = (n, c') ->
  relations_cache c' = relations_cache c /\
  reverse_relations_cache c' = reverse_relations_cache c /\
  exists rs, session c' = session c ++ rs /\ Forall is_node_request rs.
Proof.
  unfold resolve_node. intros H. case_match.
  - simplify_eq. repeat split; trivial. exists []. rewrite app_nil_r. auto.
  - eauto using get_node_info_frame.
Qed.

Lemma process_relations_frame node_map relations :
  forall acc c r c',
    process_relations W node_map relations acc c = (r, c') ->
    relations_cache c' = relations_cache c /\
    reverse_relations_cache c' = reverse_relations_cache c /\
    exists rs, session c' = session c ++ rs /\ Forall is_node_request rs.
Proof.
  induction relations as [|rel rest IH]; intros acc c r c' H; simpl in H.
  - simplify_eq. repeat split; trivial. exists []. rewrite app_nil_r. auto.
  - destruct (resolve_node W node_map (node1 rel) c) as [sn c1] eqn:E1.
    apply resolve_node_frame in E1 as (Ha1 & Hb1 & rs1 & Hs1 & Hn1).
    assert (Hstep : forall acc' r c2 c',
      relations_cache c2 = relations_cache c ->
      reverse_relations_cache c2 = reverse_relations_cache c ->
      (exists rs, session c2 = session c ++ rs /\ Forall is_node_request rs) ->
      process_relations W node_map rest acc' c2 = (r, c') ->
      relations_cache c' = relations_cache c /\
      reverse_relations_cache c' = reverse_relations_cache c /\
      exists rs, session c' = session c ++ rs /\ Forall is_node_request rs).
    { intros acc' r0 c2 c0 Ha Hb (rs & Hs & Hn) Hp.
      apply IH in Hp as (Ha' & Hb' & rs' & Hs' & Hn').
      repeat split; [congruence | congruence |].
      exists (rs ++ rs'). rewrite Hs', Hs, app_assoc.
      split; [reflexivity | by apply Forall_app]. }
    destruct (truthy sn) as [sn'|]; [|by eapply Hstep; eauto].
    destruct (resolve_node W node_map (node2 rel) c1) as [tn c2] eqn:E2.
    apply resolve_node_frame in E2 as (Ha2 & Hb2 & rs2 & Hs2 & Hn2).
    assert (Hc2 : exists rs, session c2 = session c ++ rs /\
                             Forall is_node_request rs).
    { exists (rs1 ++ rs2). rewrite Hs2, Hs1, app_assoc.
      split; [reflexivity | by apply Forall_app]. }
    destruct (truthy tn) as [tn'|];
      [|eapply Hstep; [| |exact Hc2|exact H]; congruence].
    destruct (node_name sn') as [s|], (node_name tn') as [t|];
      try (simplify_eq; repeat split; [congruence|congruence|exact Hc2]).
    destruct (float (raw_w rel)) as [w|e];
      [|simplify_eq; repeat split; [congruence|congruence|exact Hc2]].
    eapply Hstep; [| |exact Hc2|exact H]; congruence.
Qed.

(** The relations that the loop adds carry type codes of the payload. *)
Lemma process_relations_types node_map relations :
  forall acc c l c',
    process_relations W node_map relations acc c = (Ok l, c') ->
    exists new, l = acc ++ new /\
      Forall (fun r => rel_type r ∈ raw_type <$> relations) new.
Proof.
  induction relations as [|rel rest IH]; intros acc c l c' H; simpl in H.
  - simplify_eq. exists []. rewrite app_nil_r. auto.
  - assert (Hweak : forall new : list relation,
      Forall (fun r => rel_type r ∈ raw_type <$> rest) new ->
      Forall (fun r => rel_type r ∈ raw_type <$> rel :: rest) new).
    { intros new Hnew. eapply Forall_impl; [exact Hnew|].
      intros r Hr. rewrite fmap_cons. by right. }
    destruct (resolve_node W node_map (node1 rel) c) as [sn c1].
    destruct (truthy sn) as [sn'|].
    2:{ apply IH in H as (new & -> & Hnew). eauto. }
    destruct (resolve_node W node_map (node2 rel) c1) as [tn c2].
    destruct (truthy tn) as [tn'|].
    2:{ apply IH in H as (new & -> & Hnew). eauto. }
    destruct (node_name sn') as [s|], (node_name tn') as [t|];
      try discriminate.
    destruct (float (raw_w rel)) as [w|e]; [|discriminate].
    apply IH in H as (new & -> & Hnew).
    eexists (_ :: new). rewrite <- app_assoc. split; [reflexivity|].
    constructor; [rewrite fmap_cons; by left | eauto].
Qed.

Lemma filter_relations_allowed relations ty :
  ty ∈ raw_type <$> filter_relations relations ->
  ty ∉ EXCLUDED_RELATION_TYPES.
Proof.
  intros (raw & -> & Hraw)%list_elem_of_fmap.
  by apply list_elem_of_filter in Hraw as [? _].
Qed.

(** The three ways a call of [get_relations_from] can go: the memo
    answers; or a request is sent, and then either nothing is memoized
    (the fetch failed, the payload is malformed, or the processing
    raised) or the processed list is memoized and returned. *)
Lemma get_relations_from_cases word c r c' :
  get_relations_from W word c = (r, c') ->
  (exists l, relations_cache c !! word = Some l /\ r = Ok l /\ c' = c) \/
  (relations_cache c !! word = None /\
   reverse_relations_cache c' = reverse_relations_cache c /\
   (exists rs, session c' = session c ++ RelationsFrom word :: rs /\
               Forall is_node_request rs) /\
   ((relations_cache c' = relations_cache c /\
     ((r = Ok [] /\
       forall relations nodes,
         net_relations_from W (length (session c)) word
           <> Some (Payload relations nodes)) \/
      exists e, r = Raise e)) \/
    (exists l relations nodes,
       net_relations_from W (length (session c)) word
         = Some (Payload relations nodes) /\
       r = Ok l /\ Forall allowed_relation l /\
       relations_cache c' = <[word := l]> (relations_cache c)))).
Proof.
  unfold get_relations_from. intros H.
  destruct (relations_cache c !! word) as [l|] eqn:Hc.
  { left. simplify_eq. eauto. }
  right. split; [done|].
  assert (Hsend : exists rs,
    session (send (RelationsFrom word) c)
      = session c ++ RelationsFrom word :: rs /\ Forall is_node_request rs).
  { exists []. split; [reflexivity | constructor]. }
  destruct (net_relations_from W (length (session c)) word)
    as [[relations nodes|]|] eqn:Hnet;
    try (simplify_eq; split; [done|]; split; [exact Hsend|]; left;
         split; [done|]; left; split; [done|]; congruence).
  destruct (build_node_map nodes ∅) as [node_map|e];
    [|simplify_eq; split; [done|]; split; [exact Hsend|]; left; eauto].
  destruct (process_relations W node_map (filter_relations relations) []
              (send (RelationsFrom word) c)) as [[l|e] c1] eqn:Hp;
    pose proof Hp as Hp';
    apply process_relations_frame in Hp' as (Ha & Hb & rs & Hs & Hn);
    simplify_eq; simpl; (split; [exact Hb|]);
    (split; [exists rs; rewrite Hs; simpl; by rewrite <- app_assoc|]).
  - right. exists l, relations, nodes.
    split; [done|]. split; [done|]. split; [|by rewrite Ha].
    apply process_relations_types in Hp as (new & -> & Hnew). simpl.
    eapply Forall_impl; [exact Hnew|].
    intros r Hr. exact (filter_relations_allowed _ _ Hr).
  - left. rewrite Ha. eauto.
Qed.

Lemma get_relations_to_cases word c r c' :
  get_relations_to W word c = (r, c') ->
  (exists l, reverse_relations_cache c !! word = Some l /\ r = Ok l /\ c' = c) \/
  (reverse_relations_cache c !! word = None /\
   relations_cache c' = relations_cache c /\
   (exists rs, session c' = session c ++ RelationsTo word :: rs /\
               Forall is_node_request rs) /\
   ((reverse_relations_cache c' = reverse_relations_cache c /\
     ((r = Ok [] /\
       forall relations nodes,
         net_relations_to W (length (session c)) word
           <> Some (Payload relations nodes)) \/
      exists e, r = Raise e)) \/
    (exists l relations nodes,
       net_relations_to W (length (session c)) word
         = Some (Payload relations nodes) /\
       r = Ok l /\ Forall allowed_relation l /\
       reverse_relations_cache c'
         = <[word := l]> (reverse_relations_cache c)))).
Proof.
  unfold get_relations_to. intros H.
  destruct (reverse_relations_cache c !! word) as [l|] eqn:Hc.
  { left. simplify_eq. eauto. }
  right. split; [done|].
  assert (Hsend : exists rs,
    session (send (RelationsTo word) c)
      = session c ++ RelationsTo word :: rs /\ Forall is_node_request rs).
  { exists []. split; [reflexivity | constructor]. }
  destruct (net_relations_to W (length (session c)) word)
    as [[relations nodes|]|] eqn:Hnet;
    try (simplify_eq; split; [done|]; split; [exact Hsend|]; left;
         split; [done|]; left; split; [done|]; congruence).
  destruct (build_node_map nodes ∅) as [node_map|e];
    [|simplify_eq; split; [done|]; split; [exact Hsend|]; left; eauto].
  destruct (process_relations W node_map (filter_relations relations) []
              (send (RelationsTo word) c)) as [[l|e] c1] eqn:Hp;
    pose proof Hp as Hp';
    apply process_relations_frame in Hp' as (Ha & Hb & rs & Hs & Hn);
    simplify_eq; simpl; (split; [exact Ha|]);
    (split; [exists rs; rewrite Hs; simpl; by rewrite <- app_assoc|]).
  - right. exists l, relations, nodes.
    split; [done|]. split; [done|]. split; [|by rewrite Hb].
    apply process_relations_types in Hp as (new & -> & Hnew). simpl.
    eapply Forall_impl; [exact Hnew|].
    intros r Hr. exact (filter_relations_allowed _ _ Hr).
  - left. rewrite Hb. eauto.
Qed.

End ClientFacts.

(** ** Memoization of the accessors *)

Section Memoization.
Context (W : World).

Lemma node_requests_not_counted (r : request) (rs : list request) :
  ~ is_node_request r -> Forall is_node_request rs ->
  filter (fun r' => r' = r) rs = [].
Proof.
  intros Hr. induction 1 as [|r' rs Hr' _ IH]; [done|].
  rewrite filter_cons. case_decide; [by subst|done].
Qed.

Lemma fetches_after_request (r : request) (c c' : JDMAPIClient) rs :
  ~ is_node_request r ->
  session c' = session c ++ r :: rs -> Forall is_node_request rs ->
  fetches r c' = S (fetches r c).
Proof.
  intros Hr Hs Hrs. unfold fetches.
  rewrite Hs, filter_app, filter_cons.
  destruct (decide (r = r)); [|done].
  rewrite (node_requests_not_counted r rs Hr Hrs).
  rewrite length_app. simpl. lia.
Qed.

(** C6, as the code has it.  When the first call of [get_relations_from]
    is answered by the memo, or by a well-formed payload that it
    processes without raising, the second call returns the same list and
    leaves the client as it is: it sends nothing.  The two calls together
    send the request [RelationsFrom word] once when the memo did not hold
    the word, and never when it did.  This covers a payload that gives
    the empty list.  The same holds for [get_relations_to]. *)
Theorem accessors_memoized (word : string) (c : JDMAPIClient) :
  (forall l c1,
     get_relations_from W word c = (Ok l, c1) ->
     (is_Some (relations_cache c !! word) \/
      exists relations nodes,
        net_relations_from W (length (session c)) word
          = Some (Payload relations nodes)) ->
     get_relations_from W word c1 = (Ok l, c1) /\
     fetches (RelationsFrom word) c1 =
       (fetches (RelationsFrom word) c +
          match relations_cache c !! word with Some _ => 0 | None => 1 end)%nat)
  /\
  (forall l c1,
     get_relations_to W word c = (Ok l, c1) ->
     (is_Some (reverse_relations_cache c !! word) \/
      exists relations nodes,
        net_relations_to W (length (session c)) word
          = Some (Payload relations nodes)) ->
     get_relations_to W word c1 = (Ok l, c1) /\
     fetches (RelationsTo word) c1 =
       (fetches (RelationsTo word) c +
          match reverse_relations_cache c !! word with
          | Some _ => 0 | None => 1 end)%nat).
Proof.
  split; intros l c1 H Hcond.
  - apply get_relations_from_cases in H
      as [(l' & Hc & ? & ->)|(Hc & _ & (rs & Hs & Hrs) & Hout)].
    + simplify_eq. unfold get_relations_from. rewrite Hc.
      split; [done | lia].
    + destruct Hcond as [[? Hsome]|(relations & nodes & Hnet)];
        [congruence|].
      destruct Hout as [[_ [[_ Hno]|[e ?]]]|(l' & ? & ? & _ & ? & _ & Hc1)];
        [by destruct (Hno relations nodes) | discriminate |].
      simplify_eq. unfold get_relations_from.
      rewrite Hc1, lookup_insert_eq, Hc. split; [done|].
      rewrite (fetches_after_request _ c c1 rs); [lia|by intros []|done..].
  - apply get_relations_to_cases in H
      as [(l' & Hc & ? & ->)|(Hc & _ & (rs & Hs & Hrs) & Hout)].
    + simplify_eq. unfold get_relations_to. rewrite Hc.
      split; [done | lia].
    + destruct Hcond as [[? Hsome]|(relations & nodes & Hnet)];
        [congruence|].
      destruct Hout as [[_ [[_ Hno]|[e ?]]]|(l' & ? & ? & _ & ? & _ & Hc1)];
        [by destruct (Hno relations nodes) | discriminate |].
      simplify_eq. unfold get_relations_to.
      rewrite Hc1, lookup_insert_eq, Hc. split; [done|].
      rewrite (fetches_after_request _ c c1 rs); [lia|by intros []|done..].
Qed.

End Memoization.

(** In the world of the scenario, the relations of "chat" are fetched once
    and then served from the memo. *)
Lemma accessors_memoized_witness :
  let l := [Relation "chat" "animal" 6 1%Q;
            Relation "chat" "chien" 7 (-1 # 2)%Q] in
  let c1 := snd (get_relations_from chat_world "chat" new_client) in
  get_relations_from chat_world "chat" new_client = (Ok l, c1) /\
  get_relations_from chat_world "chat" c1 = (Ok l, c1) /\
  fetches (RelationsFrom "chat") c1 = 1%nat.
Proof.
  intros l c1.
  assert (H : get_relations_from chat_world "chat" new_client = (Ok l, c1))
    by (vm_compute; reflexivity).
  split; [exact H|].
  apply (proj1 (accessors_memoized chat_world "chat" new_client) l c1 H).
  right. exists [RawRelation 1 2 6 1%Q; RawRelation 1 3 7 (-1 # 2)%Q],
    [chat; animal; chien]. reflexivity.
Defined.

(** C6 as stated fails: a fetch that fails is not memoized.  On a network
    that fails once, two calls with the same word send two requests and
    return different lists. *)
Lemma accessors_not_idempotent :
  let '(r1, c1) := get_relations_from flaky_world "chat" new_client in
  let '(r2, c2) := get_relations_from flaky_world "chat" c1 in
  r1 = Ok [] /\
  r2 = Ok [Relation "chat" "animal" 6 1%Q;
           Relation "chat" "chien" 7 (-1 # 2)%Q] /\
  fetches (RelationsFrom "chat") c2 = 2%nat.
Proof. vm_compute. repeat split; reflexivity. Qed.

(** ** The seed list *)

Section Seeds.
Context (W : World).

Lemma fetch_nodes_spec (words : list string) :
  forall (nodes : list node) (c : JDMAPIClient),
    match fetch_nodes W words nodes c with
    | (Ok nodes', _) =>
        nodes' = nodes ++
          omap seed_of
            (imap (fun i word => node_by_name W (length (session c) + i) word)
               words)
    | (Raise e, _) =>
        e = AttributeError /\
        exists i word, words !! i = Some word /\
          node_by_name W (length (session c) + i) word = Some PyOther
    end.
Proof.
  induction words as [|word rest IH]; intros nodes c; simpl.
  { by rewrite app_nil_r. }
  rewrite Nat.add_0_r.
  assert (Hshift : forall c0, length (session c0) = S (length (session c)) ->
    imap (fun i w => node_by_name W (length (session c0) + i) w) rest
    = imap ((fun i w => node_by_name W (length (session c) + i) w) ∘ S) rest).
  { intros c0 Hc0. apply imap_ext. intros i w _. simpl.
    f_equal. lia. }
  assert (Hlen : length (session (send (NodeByName word) c))
                 = S (length (session c))).
  { simpl. rewrite length_app. simpl. lia. }
  assert (Hraise : forall c0 e,
    length (session c0) = S (length (session c)) ->
    (e = AttributeError /\ exists i w, rest !! i = Some w /\
       node_by_name W (length (session c0) + i) w = Some PyOther) ->
    e = AttributeError /\ exists i w, (word :: rest) !! i = Some w /\
       node_by_name W (length (session c) + i) w = Some PyOther).
  { intros c0 e Hc0 (-> & i & w & Hi & Hw). split; [done|].
    exists (S i), w. split; [done|]. rewrite <- Hw. f_equal. lia. }
  destruct (node_by_name W (length (session c)) word) as [[n|]|] eqn:Hnet;
    simpl.
  - unfold english. destruct (String.prefix "en:" (default "" (node_name n))).
    + specialize (IH nodes (send (NodeByName word) c)).
      destruct (fetch_nodes W rest nodes _) as [[nodes'|e] c'].
      * by rewrite IH, Hshift.
      * eauto.
    + set (c1 := match node_id n with
                 | Some i => set_node_cache _ _
                 | None => _
                 end).
      assert (Hc1 : length (session c1) = S (length (session c))).
      { subst c1. by destruct (node_id n). }
      specialize (IH (nodes ++ [n]) c1).
      destruct (fetch_nodes W rest (nodes ++ [n]) c1) as [[nodes'|e] c'].
      * by rewrite IH, Hshift, <- app_assoc.
      * eauto.
  - split; [done|]. exists 0%nat, word. by rewrite Nat.add_0_r.
  - specialize (IH nodes (send (NodeByName word) c)).
    destruct (fetch_nodes W rest nodes _) as [[nodes'|e] c'].
    * by rewrite IH, Hshift.
    * eauto.
Qed.

(** C9.  [get_all_nodes] fetches the sample words one after the other and
    returns, in that order, the nodes whose fetch succeeded and whose name
    does not start with ['en:']; so no returned node has such a name.  It
    raises only when an answer is not a dict. *)
Theorem get_all_nodes_drops_english (c : JDMAPIClient) :
  match get_all_nodes W c with
  | (Ok nodes, _) =>
      nodes =
        omap seed_of
          (imap (fun i word => node_by_name W (length (session c) + i) word)
             sample_words) /\
      Forall (fun n => english n = false) nodes
  | (Raise e, _) =>
      e = AttributeError /\
      exists i word, sample_words !! i = Some word /\
        node_by_name W (length (session c) + i) word = Some PyOther
  end.
Proof.
  unfold get_all_nodes.
  pose proof (fetch_nodes_spec sample_words [] c) as H.
  destruct (fetch_nodes W sample_words [] c) as [[nodes|e] c']; [|done].
  rewrite app_nil_l in H. split; [done|]. rewrite H.
  apply Forall_forall. intros n (answer & _ & Hseed)%list_elem_of_omap.
  unfold seed_of in Hseed. destruct answer as [[n'|]|]; try done.
  destruct (english n') eqn:He; by simplify_eq.
Qed.

End Seeds.

Example english_seed_dropped :
  fst (get_all_nodes seed_world new_client) = Ok [Node (Some 8) (Some "sac")].
Proof. vm_compute. reflexivity. Qed.

(** ** The enumeration only appends *)

Section Extension.
Context (W : World).

Lemma db_extends_refl P S o : db_extends P S o o.
Proof.
  destruct o as [d|]; simpl; [|done].
  split; exists []; by rewrite app_nil_r.
Qed.

Lemma db_extends_trans P S o1 o2 o3 :
  db_extends P S o1 o2 -> db_extends P S o2 o3 -> db_extends P S o1 o3.
Proof.
  destruct o1 as [d1|], o2 as [d2|], o3 as [d3|]; simpl; try done.
  intros [(s1 & Hs1 & HS1) (r1 & Hr1 & HP1)]
         [(s2 & Hs2 & HS2) (r2 & Hr2 & HP2)].
  split.
  - exists (s1 ++ s2). rewrite Hs2, Hs1, app_assoc.
    split; [done | by apply Forall_app].
  - exists (r1 ++ r2). rewrite Hr2, Hr1, app_assoc.
    split; [done | by apply Forall_app].
Qed.

Lemma db_extends_weaken (P Q : triangle -> Prop) (S T : statement -> Prop)
    o o' :
  (forall t, P t -> Q t) -> (forall s, S s -> T s) ->
  db_extends P S o o' -> db_extends Q T o o'.
Proof.
  intros HPQ HST. destruct o as [d|], o' as [d'|]; simpl; try done.
  intros [(s & Hs & HS) (r & Hr & HP)]. split.
  - exists s. split; [done|]. eapply Forall_impl; eauto.
  - exists r. split; [done|]. eapply Forall_impl; eauto.
Qed.

Lemma extends_refl P S f : extends P S f f.
Proof.
  split; try done.
  - exists []. by rewrite app_nil_r.
  - apply db_extends_refl.
Qed.

Lemma extends_trans P S f1 f2 f3 :
  extends P S f1 f2 -> extends P S f2 f3 -> extends P S f1 f3.
Proof.
  intros [(n1 & Ht1 & HP1) ? ? ? ? ? ? ? ?] [(n2 & Ht2 & HP2) ? ? ? ? ? ? ? ?].
  split; try congruence; try (etrans; eassumption); eauto.
  - exists (n1 ++ n2). rewrite Ht2, Ht1, app_assoc.
    split; [done | by apply Forall_app].
  - eapply db_extends_trans; eassumption.
Qed.

Lemma extends_weaken (P Q : triangle -> Prop) (S T : statement -> Prop)
    f f' :
  (forall t, P t -> Q t) -> (forall s, S s -> T s) ->
  extends P S f f' -> extends Q T f f'.
Proof.
  intros HPQ HST [(new & Ht & HP) ? ? ? ? ? ? ? ?].
  split; try done.
  - exists new. split; [done|]. eapply Forall_impl; eauto.
  - eapply db_extends_weaken; eassumption.
Qed.

Lemma extends_append P S t f :
  P t -> extends P S f (set_triangles (triangles f ++ [t]) f).
Proof.
  intros Ht. split; try done.
  - exists [t]. split; [done | by constructor].
  - apply db_extends_refl.
Qed.

Lemma extends_count P S m f : extends P S f (set_relation_stats m f).
Proof.
  split; try done.
  - exists []. by rewrite app_nil_r.
  - apply db_extends_refl.
Qed.

Lemma extends_save (P : triangle -> Prop) t f r f' :
  P t -> with_db (save_triangle W t) false f = (r, f') ->
  extends P (is_save P) f f'.
Proof.
  intros Ht. unfold with_db. destruct (db f) as [d|] eqn:Hd.
  2:{ intros ?; simplify_eq. apply extends_refl. }
  destruct (save_triangle W t d) as [r' d'] eqn:Hsave. intros ?; simplify_eq.
  split; try done.
  - exists []. by rewrite app_nil_r.
  - simpl. rewrite Hd. simpl.
    unfold save_triangle, execute, insert_or_ignore in Hsave.
    repeat case_match; simplify_eq; simpl;
      (split; [exists [SaveTriangle t]; split; [done | by constructor]|]);
      solve [ exists []; by rewrite app_nil_r
            | exists [t]; split; [done | by constructor] ].
Qed.

Lemma extends_get_relations_to P S word f r c :
  get_relations_to W word (api_client f) = (r, c) ->
  extends P S f (set_api_client c f).
Proof.
  intros H. apply get_relations_to_cases in H
    as [(l & Hc & _ & ->)|(Hc & Hfrom & _ & Hout)].
  { destruct f; apply extends_refl. }
  split; try done; simpl.
  - exists []. by rewrite app_nil_r.
  - apply db_extends_refl.
  - by rewrite Hfrom.
  - destruct Hout as [[-> _]|(l & ? & ? & _ & _ & _ & ->)]; [done|].
    by apply insert_subseteq.
  - intros [Hclean1 Hclean2]. split; [by rewrite Hfrom|].
    destruct Hout as [[-> _]|(l & ? & ? & _ & _ & Hall & ->)]; [done|].
    intros w l' [[-> <-]|[_ ?]]%lookup_insert_Some; eauto.
Qed.

Lemma extends_get_relations_from P S word f r c :
  get_relations_from W word (api_client f) = (r, c) ->
  extends P S f (set_api_client c f).
Proof.
  intros H. apply get_relations_from_cases in H
    as [(l & Hc & _ & ->)|(Hc & Hto & _ & Hout)].
  { destruct f; apply extends_refl. }
  split; try done; simpl.
  - exists []. by rewrite app_nil_r.
  - apply db_extends_refl.
  - destruct Hout as [[-> _]|(l & ? & ? & _ & _ & _ & ->)]; [done|].
    by apply insert_subseteq.
  - by rewrite Hto.
  - intros [Hclean1 Hclean2]. split; [|by rewrite Hto].
    destruct Hout as [[-> _]|(l & ? & ? & _ & _ & Hall & ->)]; [done|].
    intros w l' [[-> <-]|[_ ?]]%lookup_insert_Some; eauto.
Qed.

Lemma next_elem_of {X : Type} (P : X -> Prop) `{!forall x, Decision (P x)}
    (l : list X) (x : X) :
  next P l = Ok x -> x ∈ l /\ P x.
Proof.
  unfold next. destruct (filter P l) as [|y ys] eqn:Hf; [done|].
  intros ?; simplify_eq.
  assert (Hx : x ∈ filter P l) by (rewrite Hf; by left).
  by apply list_elem_of_filter in Hx as [? ?].
Qed.

Lemma close_triangles_extends node_name target_b source_c
    relations_from relations_to_b :
  forall todo n f o f',
    (forall r, r ∈ todo -> r ∈ relations_from) ->
    close_triangles W node_name target_b source_c
      relations_from relations_to_b todo n f = (o, f') ->
    let P := matched node_name target_b relations_from relations_to_b
               [source_c] in
    extends P (is_save P) f f' /\ forall v, o <> Return v.
Proof.
  induction todo as [|rel3 rest IH]; intros n f o f' Hin H P; simpl in H.
  { simplify_eq. split; [apply extends_refl | done]. }
  assert (Hrest : forall r, r ∈ rest -> r ∈ relations_from).
  { intros r Hr. apply Hin. by right. }
  destruct (decide (rel_target rel3 = source_c)) as [Htarget|_];
    [|by eapply IH].
  destruct (next (fun r => rel_target r = target_b) relations_from)
    as [rel1|e] eqn:Hrel1;
    [|simplify_eq; split; [apply extends_refl | done]].
  destruct (next (fun r => rel_source r = source_c) relations_to_b)
    as [rel2|e] eqn:Hrel2;
    [|simplify_eq; split; [apply extends_refl | done]].
  set (t := make_triangle node_name target_b source_c rel1 rel2 rel3) in *.
  assert (Ht : P t).
  { split; [done|]. split; [done|]. split; [by left|].
    exists rel1, rel2, rel3. repeat split; try done.
    apply Hin. by left. }
  destruct (with_db (save_triangle W t) false
              (set_triangles (triangles f ++ [t]) f)) as [[b|e] f2] eqn:Hsave;
    apply (extends_save P) in Hsave; try done.
  - apply IH in H as [Hext Hret]; [|done]. split; [|done].
    eapply extends_trans; [apply (extends_append P _ t f Ht)|].
    eapply extends_trans; [exact Hsave|].
    eapply extends_trans; [apply extends_count|exact Hext].
  - simplify_eq. split; [|done].
    eapply extends_trans; [apply (extends_append P _ t f Ht)|exact Hsave].
Qed.

Lemma matched_weaken node_name target_b relations_from relations_to_b
    (sources sources' : list string) t :
  (forall c, c ∈ sources -> c ∈ sources') ->
  matched node_name target_b relations_from relations_to_b sources t ->
  matched node_name target_b relations_from relations_to_b sources' t.
Proof. intros Hsub (? & ? & ? & ?). repeat split; auto. Qed.

Lemma is_save_weaken (P Q : triangle -> Prop) stmt :
  (forall t, P t -> Q t) -> is_save P stmt -> is_save Q stmt.
Proof. intros HPQ. destruct stmt; simpl; auto. Qed.

Lemma scan_sources_extends node_name target_b relations_from relations_to_b :
  forall source_nodes n f o f',
    scan_sources W node_name target_b relations_from relations_to_b
      source_nodes n f = (o, f') ->
    let P := matched node_name target_b relations_from relations_to_b
               source_nodes in
    extends P (is_save P) f f'.
Proof.
  induction source_nodes as [|source_c rest IH]; intros n f o f' H P;
    simpl in H.
  { simplify_eq. apply extends_refl. }
  destruct (cap_reached f n); [simplify_eq; apply extends_refl|].
  destruct (close_triangles W node_name target_b source_c relations_from
              relations_to_b relations_from n f) as [o1 f1] eqn:Hclose.
  apply close_triangles_extends in Hclose as [Hext _]; [|done].
  assert (Hhere : extends P (is_save P) f f1).
  { eapply extends_weaken; [| |exact Hext].
    - intros t. apply matched_weaken.
      intros c ->%list_elem_of_singleton. by left.
    - intros stmt. apply is_save_weaken. intros t. apply matched_weaken.
      intros c ->%list_elem_of_singleton. by left. }
  destruct o1 as [n1|v|e]; simplify_eq; try exact Hhere.
  apply IH in H. eapply extends_trans; [exact Hhere|].
  eapply extends_weaken; [| |exact H].
  - intros t. apply matched_weaken. intros c Hc. by right.
  - intros stmt. apply is_save_weaken. intros t. apply matched_weaken.
    intros c Hc. by right.
Qed.

Lemma backed_mono (c c' : JDMAPIClient) t :
  relations_cache c ⊆ relations_cache c' ->
  reverse_relations_cache c ⊆ reverse_relations_cache c' ->
  backed W c t -> backed W c' t.
Proof.
  intros H1 H2 (l1 & l2 & Hl1 & Hl2 & ? & ?). exists l1, l2.
  repeat split; try done; eapply lookup_weaken; eassumption.
Qed.

Lemma matched_backed (c : JDMAPIClient) node_name target_b
    relations_from relations_to_b t :
  relations_cache c !! node_name = Some relations_from ->
  reverse_relations_cache c !! target_b = Some relations_to_b ->
  matched node_name target_b relations_from relations_to_b
    (set_order W
       (rel_source <$>
          filter (fun rel => rel_source rel <> node_name) relations_to_b))
    t ->
  A t = node_name /\ backed W c t.
Proof.
  intros H1 H2 (HA & HB & HC & Hformed). split; [done|].
  exists relations_from, relations_to_b. by rewrite HA, HB.
Qed.

Lemma scan_targets_extends node_name relations_from :
  forall target_nodes n f o f',
    relations_cache (api_client f) !! node_name = Some relations_from ->
    scan_targets W node_name relations_from target_nodes n f = (o, f') ->
    let P := fun t => A t = node_name /\ backed W (api_client f') t in
    extends P (is_save P) f f'.
Proof.
  induction target_nodes as [|target_b rest IH]; intros n f o f' Hfrom H P;
    simpl in H.
  { simplify_eq. apply extends_refl. }
  destruct (cap_reached f n); [simplify_eq; apply extends_refl|].
  destruct (get_relations_to W target_b (api_client f)) as [r c] eqn:Hto.
  pose proof (extends_get_relations_to P (is_save P) _ _ _ _ Hto) as Hstep.
  assert (Hfrom1 : relations_cache c !! node_name = Some relations_from).
  { eapply lookup_weaken; [exact Hfrom|]. apply Hstep. }
  destruct r as [[|rel relations_to_b]|e]; [| |by simplify_eq].
  { apply IH in H; [|done]. eapply extends_trans; [exact Hstep|exact H]. }
  assert (Hto1 : reverse_relations_cache c !! target_b
                 = Some (rel :: relations_to_b)).
  { apply get_relations_to_cases in Hto
      as [(l & Hc & ? & ->)|(_ & _ & _ & Hout)]; [by simplify_eq|].
    destruct Hout as [[_ [[? _]|[e ?]]]|(l & ? & ? & _ & ? & _ & ->)];
      simplify_eq. apply lookup_insert_eq. }
  destruct (scan_sources W node_name target_b relations_from
              (rel :: relations_to_b) _ n (set_api_client c f))
    as [o1 f1] eqn:Hscan.
  apply scan_sources_extends in Hscan.
  assert (Hlift : forall f2 : TriangleFinder,
    relations_cache (api_client f1) ⊆ relations_cache (api_client f2) ->
    reverse_relations_cache (api_client f1)
      ⊆ reverse_relations_cache (api_client f2) ->
    let Q := fun t => A t = node_name /\ backed W (api_client f2) t in
    extends Q (is_save Q) (set_api_client c f) f1).
  { intros f2 Hsub1 Hsub2 Q.
    assert (HQ : forall t,
      matched node_name target_b relations_from (rel :: relations_to_b)
        (set_order W
           (rel_source <$>
              filter (fun rel0 => rel_source rel0 <> node_name)
                (rel :: relations_to_b))) t -> Q t).
    { intros t Ht.
      apply (matched_backed (api_client f2)) in Ht; [done|..];
        (eapply lookup_weaken; [|eassumption]);
        (eapply lookup_weaken; [eassumption|]); apply Hscan. }
    eapply extends_weaken; [exact HQ| |exact Hscan].
    intros stmt. by apply is_save_weaken. }
  destruct o1 as [n1|v|e]; simplify_eq.
  - pose proof H as H'. apply IH in H'.
    2:{ eapply lookup_weaken; [exact Hfrom1|]. apply Hscan. }
    eapply extends_trans; [exact Hstep|].
    eapply extends_trans; [|exact H']. apply Hlift; apply H'.
  - eapply extends_trans; [exact Hstep|]. by apply Hlift.
  - eapply extends_trans; [exact Hstep|]. by apply Hlift.
Qed.

Lemma find_triangles_try_extends node_name f o f' :
  find_triangles_try W node_name f = (o, f') ->
  let P := fun t => A t = node_name /\ backed W (api_client f') t in
  extends P (is_save P) f f'.
Proof.
  intros H P. unfold find_triangles_try in H.
  destruct (get_relations_from W node_name (api_client f)) as [r c] eqn:Hfrom.
  pose proof (extends_get_relations_from P (is_save P) _ _ _ _ Hfrom)
    as Hstep.
  destruct r as [[|rel relations_from]|e]; try by simplify_eq.
  apply scan_targets_extends in H.
  { eapply extends_trans; [exact Hstep|exact H]. }
  apply get_relations_from_cases in Hfrom
    as [(l & Hc & ? & ->)|(_ & _ & _ & Hout)]; [by simplify_eq|].
  destruct Hout as [[_ [[? _]|[e ?]]]|(l & ? & ? & _ & ? & _ & Hc)];
    simplify_eq. simpl. rewrite Hc. apply lookup_insert_eq.
Qed.

Lemma is_node_processed_status node_name :
  status_statement W (is_node_processed W node_name).
Proof.
  intros d r d'. unfold is_node_processed, execute. intros H.
  destruct (db_fault W (length (journal d))) as [s|] eqn:Hfault;
    simplify_eq; simpl; (split; [done|]); eexists;
    (split; [|split; [reflexivity|eauto]]); done.
Qed.

Lemma mark_node_in_progress_status node_name :
  status_statement W (mark_node_in_progress W node_name).
Proof.
  intros d r d'. unfold mark_node_in_progress, execute, insert_or_replace.
  intros H.
  destruct (db_fault W (length (journal d))) as [s|] eqn:Hfault;
    simplify_eq; simpl; (split; [done|]); eexists;
    (split; [|split; [reflexivity|eauto]]); done.
Qed.

Lemma mark_node_processed_status node_name :
  status_statement W (mark_node_processed W node_name).
Proof.
  intros d r d'. unfold mark_node_processed, execute, insert_or_replace.
  intros H.
  destruct (db_fault W (length (journal d))) as [s|] eqn:Hfault;
    simplify_eq; simpl; (split; [done|]); eexists;
    (split; [|split; [reflexivity|eauto]]); done.
Qed.

Lemma extends_status {X : Type} P
    (op : TriangleDatabase -> result X * TriangleDatabase) (x0 : X) f r f' :
  status_statement W op -> with_db op x0 f = (r, f') ->
  extends P (saves_only P) f f'.
Proof.
  intros Hop. unfold with_db. destruct (db f) as [d|] eqn:Hd.
  2:{ intros ?; simplify_eq. apply extends_refl. }
  destruct (op d) as [r' d'] eqn:Hopd. intros ?; simplify_eq.
  apply Hop in Hopd as (Hrows & stmt & Hstmt & Hj & _).
  split; try done.
  - exists []. by rewrite app_nil_r.
  - simpl. rewrite Hd. simpl. split.
    + exists [stmt]. split; [done|]. constructor; [|done].
      by destruct stmt.
    + exists []. by rewrite app_nil_r.
Qed.

Lemma extends_visit P S s f :
  processed_nodes f ⊆ s -> extends P S f (set_processed_nodes s f).
Proof.
  intros Hs. split; try done.
  - exists []. by rewrite app_nil_r.
  - apply db_extends_refl.
Qed.

Lemma enter_node_extends P start_node f r f' :
  enter_node W start_node f = (r, f') -> extends P (saves_only P) f f'.
Proof.
  unfold enter_node. intros H.
  destruct start_node as [n|]; [|simplify_eq; apply extends_refl].
  destruct (node_name n) as [name|]; [|simplify_eq; apply extends_refl].
  destruct (decide (name = "")); [simplify_eq; apply extends_refl|].
  destruct (with_db (is_node_processed W name) false f)
    as [r0 f0] eqn:Hcheck.
  apply (extends_status P) in Hcheck; [|apply is_node_processed_status].
  destruct r0 as [[|]|e]; try by simplify_eq.
  destruct (decide (name ∈ processed_nodes f0)); [by simplify_eq|].
  destruct (with_db (mark_node_in_progress W name) tt _)
    as [r1 f1] eqn:Hmark.
  apply (extends_status P) in Hmark; [|apply mark_node_in_progress_status].
  assert (extends P (saves_only P) f f1).
  { eapply extends_trans; [exact Hcheck|].
    eapply extends_trans; [|exact Hmark].
    apply extends_visit. set_solver. }
  destruct r1; by simplify_eq.
Qed.

Lemma is_save_saves_only P stmt : is_save P stmt -> saves_only P stmt.
Proof. by destruct stmt. Qed.

(** Every triangle that a call of [find_triangles] appends, and every
    triangle that it inserts in the store, is backed by the memos the
    call leaves behind. *)
Lemma find_triangles_extends start_node f r f' :
  find_triangles W start_node f = (r, f') ->
  let P := backed W (api_client f') in
  extends P (saves_only P) f f'.
Proof.
  intros H P. unfold find_triangles in H.
  destruct (enter_node W start_node f) as [r0 f0] eqn:Henter.
  apply (enter_node_extends P) in Henter.
  destruct r0 as [[name|]|e]; try by simplify_eq.
  destruct (find_triangles_try W name f0) as [o f1] eqn:Htry.
  apply find_triangles_try_extends in Htry.
  assert (Hlift : forall f2 : TriangleFinder,
    relations_cache (api_client f1) ⊆ relations_cache (api_client f2) ->
    reverse_relations_cache (api_client f1)
      ⊆ reverse_relations_cache (api_client f2) ->
    let Q := backed W (api_client f2) in
    extends Q (saves_only Q) f0 f1).
  { intros f2 Hsub1 Hsub2 Q.
    assert (HQ : forall t,
      A t = name /\ backed W (api_client f1) t -> Q t).
    { intros t [_ Ht]. by eapply backed_mono. }
    eapply extends_weaken; [exact HQ| |exact Htry].
    intros stmt Hstmt. apply is_save_saves_only.
    eapply is_save_weaken; [exact HQ|exact Hstmt]. }
  destruct o as [n|v|e]; simplify_eq.
  - destruct (with_db (mark_node_processed W name) tt f1)
      as [r2 f2] eqn:Hmark.
    apply (extends_status P) in Hmark; [|apply mark_node_processed_status].
    assert (extends P (saves_only P) f f2).
    { eapply extends_trans; [exact Henter|].
      eapply extends_trans; [|exact Hmark].
      assert (f' = f2) as -> by (destruct r2; by simplify_eq).
      apply Hlift; apply Hmark. }
    destruct r2; by simplify_eq.
  - eapply extends_trans; [exact Henter|]. by apply Hlift.
  - eapply extends_trans; [exact Henter|]. by apply Hlift.
Qed.

End Extension.

(** ** A whole run *)

Section WholeRun.
Context (W : World).

Lemma fetch_nodes_frame (words : list string) :
  forall nodes c r c',
    fetch_nodes W words nodes c = (r, c') ->
    relations_cache c' = relations_cache c /\
    reverse_relations_cache c' = reverse_relations_cache c.
Proof.
  induction words as [|word rest IH]; intros nodes c r c' H; simpl in H.
  { by simplify_eq. }
  destruct (node_by_name W (length (session c)) word) as [[n|]|].
  - destruct (String.prefix "en:" (default "" (node_name n)));
      [by apply IH in H|].
    apply IH in H as [-> ->]. by destruct (node_id n).
  - by simplify_eq.
  - by apply IH in H.
Qed.

Lemma get_all_nodes_frame c r c' :
  get_all_nodes W c = (r, c') ->
  relations_cache c' = relations_cache c /\
  reverse_relations_cache c' = reverse_relations_cache c.
Proof. apply fetch_nodes_frame. Qed.

Lemma for_each_node_extends (nodes : list node) :
  forall f r f',
    for_each_node W nodes f = (r, f') ->
    let P := backed W (api_client f') in
    extends P (saves_only P) f f'.
Proof.
  induction nodes as [|n rest IH]; intros f r f' H P; simpl in H.
  { simplify_eq. apply extends_refl. }
  destruct (find_triangles W (PyDict n) f) as [r1 f1] eqn:Hfind.
  apply find_triangles_extends in Hfind.
  assert (Hlift : forall f2 : TriangleFinder,
    relations_cache (api_client f1) ⊆ relations_cache (api_client f2) ->
    reverse_relations_cache (api_client f1)
      ⊆ reverse_relations_cache (api_client f2) ->
    let Q := backed W (api_client f2) in
    extends Q (saves_only Q) f f1).
  { intros f2 Hsub1 Hsub2 Q.
    assert (HQ : forall t, backed W (api_client f1) t -> Q t).
    { intros t. by apply backed_mono. }
    eapply extends_weaken; [exact HQ| |exact Hfind].
    intros [| | |t]; simpl; auto. }
  destruct r1 as [v|e]; [|simplify_eq; by apply Hlift].
  pose proof H as H'. apply IH in H'.
  eapply extends_trans; [|exact H']. apply Hlift; apply H'.
Qed.

Lemma find_all_triangles_unfold f :
  find_all_triangles W f =
    match get_all_nodes W (api_client f) with
    | (Raise e, c) => (Raise e, set_api_client c f)
    | (Ok [], c) => (Ok [], set_api_client c f)
    | (Ok nodes, c) =>
      match for_each_node W nodes (set_api_client c f) with
      | (Raise e, f') => (Raise e, f')
      | (Ok _, f') => (Ok (triangles f'), f')
      end
    end.
Proof. reflexivity. Qed.

(** Every triangle that a run of [find_all_triangles] appends or inserts
    in the store is backed by the memos that the run leaves behind. *)
Lemma find_all_triangles_extends f r f' :
  find_all_triangles W f = (r, f') ->
  let P := backed W (api_client f') in
  extends P (saves_only P) f f'.
Proof.
  intros H P. rewrite find_all_triangles_unfold in H.
  destruct (get_all_nodes W (api_client f)) as [r0 c] eqn:Hnodes.
  apply get_all_nodes_frame in Hnodes as [Hc1 Hc2].
  assert (Hstep : extends P (saves_only P) f (set_api_client c f)).
  { split; try done; simpl.
    - exists []. by rewrite app_nil_r.
    - apply db_extends_refl.
    - by rewrite Hc1.
    - by rewrite Hc2.
    - intros [? ?]. split; by rewrite ?Hc1, ?Hc2. }
  destruct r0 as [[|n nodes]|e]; try by simplify_eq.
  destruct (for_each_node W (n :: nodes) (set_api_client c f))
    as [r1 f1] eqn:Hloop.
  apply for_each_node_extends in Hloop.
  assert (f' = f1) as -> by (destruct r1; by simplify_eq).
  eapply extends_trans; [exact Hstep|exact Hloop].
Qed.

End WholeRun.

(** ** Excluded relation types *)

Lemma backed_allowed (W : World) (c : JDMAPIClient) (t : triangle) :
  clean_cache c -> backed W c t -> allowed t.
Proof.
  intros [Hfrom Hto] (l1 & l2 & Hl1 & Hl2 & Hformed & _).
  destruct Hformed as (rel1 & rel2 & rel3 & H1 & H2 & H3 & _ & ->).
  apply next_elem_of in H1 as [H1 _]. apply next_elem_of in H2 as [H2 _].
  pose proof (Hfrom _ _ Hl1) as Hall1. pose proof (Hto _ _ Hl2) as Hall2.
  rewrite Forall_forall in Hall1, Hall2.
  repeat split; simpl; [apply Hall1|apply Hall2|apply Hall1]; done.
Qed.

Lemma clean_cache_new_client : clean_cache new_client.
Proof. split; intros word l H; simpl in H; by rewrite lookup_empty in H. Qed.

(** C4.  When the memos hold no relation of an excluded type, which is so
    for a new client and stays so, no triangle that [find_triangles]
    appends to the list, and no triangle that it hands to [save_triangle]
    or that enters the table, has an edge of an excluded type. *)
Theorem no_excluded_type (W : World) (start_node : pyobject)
    (f f' : TriangleFinder) (r : result (list triangle)) :
  clean_cache (api_client f) ->
  find_triangles W start_node f = (r, f') ->
  clean_cache (api_client f') /\
  (exists new, triangles f' = triangles f ++ new /\ Forall allowed new) /\
  db_extends allowed (saves_only allowed) (db f) (db f').
Proof.
  intros Hclean H. apply find_triangles_extends in H.
  pose proof (ext_clean _ _ _ _ H Hclean) as Hclean'.
  assert (Hext : extends allowed (saves_only allowed) f f').
  { eapply extends_weaken; [| |exact H].
    - intros t. by apply backed_allowed.
    - intros [| | |t]; simpl; try done. by apply backed_allowed. }
  split; [done|]. split; apply Hext.
Qed.

Lemma no_excluded_type_witness :
  let f := new_finder new_client 0%Q None (Some empty_database) in
  let f' := snd (find_triangles chat_world (PyDict chat) f) in
  clean_cache (api_client f') /\
  (exists new, triangles f' = triangles f ++ new /\ Forall allowed new) /\
  db_extends allowed (saves_only allowed) (db f) (db f').
Proof.
  intros f f'.
  apply (no_excluded_type chat_world (PyDict chat) f f'
           (fst (find_triangles chat_world (PyDict chat) f))).
  - exact clean_cache_new_client.
  - apply surjective_pairing.
Defined.

(** X22.  A run of [find_all_triangles] with a new finder, a new client and an
    empty store only finds triangles without an edge of an excluded type,
    in the list and in the store. *)
Lemma find_all_triangles_allowed (W : World) (w : weight) (k : option Z) :
  let f := new_finder new_client w k (Some empty_database) in
  let '(r, f') := find_all_triangles W f in
  Forall allowed (triangles f') /\
  (forall v, r = Ok v -> Forall allowed v) /\
  (forall d', db f' = Some d' -> Forall allowed (triangles_table d')).
Proof.
  intros f. destruct (find_all_triangles W f) as [r f'] eqn:H.
  pose proof H as Hext. apply find_all_triangles_extends in Hext.
  pose proof (ext_clean _ _ _ _ Hext clean_cache_new_client) as Hclean.
  assert (Hall : extends allowed (saves_only allowed) f f').
  { eapply extends_weaken; [| |exact Hext].
    - intros t. by apply backed_allowed.
    - intros [| | |t]; simpl; try done. by apply backed_allowed. }
  destruct (ext_triangles _ _ _ _ Hall) as (new & Hnew & Hallowed).
  assert (Hlist : Forall allowed (triangles f')) by (by rewrite Hnew).
  clear Hnew. split; [done|]. split.
  - intros v ->. rewrite find_all_triangles_unfold in H.
    destruct (get_all_nodes W (api_client f)) as [[[|n nodes]|e] c];
      [by simplify_eq| |done].
    destruct (for_each_node W _ _) as [[?|?] f1]; [|done].
    by simplify_eq.
  - intros d' Hd'. pose proof (ext_db _ _ _ _ Hall) as Hdb.
    rewrite Hd' in Hdb. simpl in Hdb.
    destruct Hdb as [_ (rows & -> & Hrows)]. done.
Qed.

(** ** Distinct nodes *)

(** C5, as the code has it.  The node C of a triangle that
    [find_triangles] appends is never its node A.  The nodes A and B, and
    B and C, are distinct when the memos hold no relation from a word to
    itself; the code does not check it. *)
Theorem closing_node_is_not_seed (W : World) (start_node : pyobject)
    (f f' : TriangleFinder) (r : result (list triangle)) :
  set_semantics W ->
  find_triangles W start_node f = (r, f') ->
  exists new, triangles f' = triangles f ++ new /\
    Forall (fun t => C t <> A t /\
                     (loop_free (api_client f') -> A t <> B t /\ B t <> C t))
      new.
Proof.
  intros Hset H. apply find_triangles_extends in H.
  destruct (ext_triangles _ _ _ _ H) as (new & Hnew & Hbacked).
  exists new. split; [done|].
  eapply Forall_impl; [exact Hbacked|].
  intros t (l1 & l2 & Hl1 & Hl2 & Hformed & HC). split.
  - apply (proj1 (proj2 (Hset _) _)) in HC.
    apply list_elem_of_fmap in HC as (rel & -> & Hrel).
    by apply list_elem_of_filter in Hrel as [? _].
  - intros [Hfrom Hto].
    destruct Hformed as (rel1 & rel2 & rel3 & H1 & H2 & _).
    apply next_elem_of in H1 as [H1 HB]. apply next_elem_of in H2 as [H2 HC2].
    split.
    + intros HAB. apply (Hfrom _ _ _ Hl1 H1). congruence.
    + intros HBC. apply (Hto _ _ _ Hl2 H2). congruence.
Qed.

Lemma remove_dups_set_semantics nodes from to :
  set_semantics (steady_world nodes from to).
Proof.
  intros l. split; [apply NoDup_remove_dups|].
  intros x. apply elem_of_remove_dups.
Qed.

Lemma closing_node_is_not_seed_witness :
  let f := new_finder new_client 0%Q None (Some empty_database) in
  let f' := snd (find_triangles chat_world (PyDict chat) f) in
  exists new, triangles f' = triangles f ++ new /\
    Forall (fun t => C t <> A t /\
                     (loop_free (api_client f') -> A t <> B t /\ B t <> C t))
      new.
Proof.
  intros f f'.
  apply (closing_node_is_not_seed chat_world (PyDict chat) f f'
           (fst (find_triangles chat_world (PyDict chat) f))).
  - apply remove_dups_set_semantics.
  - apply surjective_pairing.
Defined.

(** C5 as stated fails: when the target has a relation to itself, the
    triangle (chat, animal, animal) is produced, with B = C. *)
Lemma triangle_with_equal_nodes :
  fst (find_triangles loop_world (PyDict chat)
         (new_finder new_client 0%Q None None))
  = Ok [Triangle "chat" "animal" "animal" 6 5 6 1%Q 1%Q 1%Q].
Proof. vm_compute. reflexivity. Qed.

(** ** The weight floor *)

Section WeightFloor.
Context (W : World) (w : weight).

Local Arguments set_api_client : simpl never.
Local Arguments set_triangles : simpl never.
Local Arguments set_relation_stats : simpl never.
Local Arguments set_processed_nodes : simpl never.
Local Arguments set_db : simpl never.
Local Arguments set_min_weight : simpl never.

Lemma floor_api_client f : api_client (set_min_weight w f) = api_client f.
Proof. reflexivity. Qed.
Lemma floor_triangles f : triangles (set_min_weight w f) = triangles f.
Proof. reflexivity. Qed.
Lemma floor_relation_stats f :
  relation_stats (set_min_weight w f) = relation_stats f.
Proof. reflexivity. Qed.
Lemma floor_processed_nodes f :
  processed_nodes (set_min_weight w f) = processed_nodes f.
Proof. reflexivity. Qed.
Lemma floor_cap f :
  max_triangles_per_node (set_min_weight w f) = max_triangles_per_node f.
Proof. reflexivity. Qed.
Lemma floor_db f : db (set_min_weight w f) = db f.
Proof. reflexivity. Qed.
Lemma floor_set_api_client c f :
  set_api_client c (set_min_weight w f)
  = set_min_weight w (set_api_client c f).
Proof. reflexivity. Qed.
Lemma floor_set_triangles l f :
  set_triangles l (set_min_weight w f) = set_min_weight w (set_triangles l f).
Proof. reflexivity. Qed.
Lemma floor_set_relation_stats m f :
  set_relation_stats m (set_min_weight w f)
  = set_min_weight w (set_relation_stats m f).
Proof. reflexivity. Qed.
Lemma floor_set_processed_nodes s f :
  set_processed_nodes s (set_min_weight w f)
  = set_min_weight w (set_processed_nodes s f).
Proof. reflexivity. Qed.
Lemma floor_set_db d f :
  set_db d (set_min_weight w f) = set_min_weight w (set_db d f).
Proof. reflexivity. Qed.

Create Rewrite HintDb floor.

#[local] Hint Rewrite floor_api_client floor_triangles floor_relation_stats
  floor_processed_nodes floor_cap floor_db floor_set_api_client
  floor_set_triangles floor_set_relation_stats floor_set_processed_nodes
  floor_set_db : floor.

Lemma with_db_floor {X : Type}
    (op : TriangleDatabase -> result X * TriangleDatabase) (x0 : X) f :
  with_db op x0 (set_min_weight w f) = with_floor w (with_db op x0 f).
Proof.
  unfold with_db, with_floor. autorewrite with floor.
  destruct (db f) as [d|]; [|done]. by destruct (op d).
Qed.

Lemma close_triangles_floor node_name target_b source_c
    relations_from relations_to_b :
  forall todo n f,
    close_triangles W node_name target_b source_c relations_from
      relations_to_b todo n (set_min_weight w f)
    = with_floor w
        (close_triangles W node_name target_b source_c relations_from
           relations_to_b todo n f).
Proof.
  induction todo as [|rel3 rest IH]; intros n f; simpl; [done|].
  destruct (decide (rel_target rel3 = source_c)) as [_|_]; [|apply IH].
  destruct (next _ relations_from) as [rel1|e]; [|done].
  destruct (next _ relations_to_b) as [rel2|e]; [|done].
  autorewrite with floor. rewrite with_db_floor.
  destruct (with_db _ false _) as [[b|e'] f2]; simpl; [|done].
  autorewrite with floor. apply IH.
Qed.

Lemma scan_sources_floor node_name target_b relations_from relations_to_b :
  forall source_nodes n f,
    scan_sources W node_name target_b relations_from relations_to_b
      source_nodes n (set_min_weight w f)
    = with_floor w
        (scan_sources W node_name target_b relations_from relations_to_b
           source_nodes n f).
Proof.
  induction source_nodes as [|source_c rest IH]; intros n f; simpl; [done|].
  unfold cap_reached. autorewrite with floor.
  destruct (match max_triangles_per_node f with
            | Some k => bool_decide (k <= Z.of_nat n)
            | None => false
            end); [done|].
  rewrite close_triangles_floor.
  destruct (close_triangles W _ _ _ _ _ _ n f) as [[n1|v|e] f1]; simpl;
    [apply IH|done..].
Qed.

Lemma scan_targets_floor node_name relations_from :
  forall target_nodes n f,
    scan_targets W node_name relations_from target_nodes n
      (set_min_weight w f)
    = with_floor w
        (scan_targets W node_name relations_from target_nodes n f).
Proof.
  induction target_nodes as [|target_b rest IH]; intros n f; simpl; [done|].
  unfold cap_reached. autorewrite with floor.
  destruct (match max_triangles_per_node f with
            | Some k => bool_decide (k <= Z.of_nat n)
            | None => false
            end); [done|].
  destruct (get_relations_to W target_b (api_client f))
    as [[[|rel relations_to_b]|e] c]; autorewrite with floor;
    [apply IH| |done].
  rewrite scan_sources_floor.
  destruct (scan_sources W _ _ _ _ _ n _) as [[n1|v|e] f1]; simpl;
    [apply IH|done..].
Qed.

Lemma find_triangles_try_floor node_name f :
  find_triangles_try W node_name (set_min_weight w f)
  = with_floor w (find_triangles_try W node_name f).
Proof.
  unfold find_triangles_try. autorewrite with floor.
  destruct (get_relations_from W node_name (api_client f))
    as [[[|rel relations_from]|e] c]; autorewrite with floor;
    [done| |done].
  apply scan_targets_floor.
Qed.

Lemma enter_node_floor start_node f :
  enter_node W start_node (set_min_weight w f)
  = with_floor w (enter_node W start_node f).
Proof.
  unfold enter_node. destruct start_node as [n|]; [|done].
  destruct (node_name n) as [name|]; [|done].
  destruct (decide (name = "")); [done|].
  rewrite with_db_floor.
  destruct (with_db _ false f) as [[[|]|e] f0]; simpl; try done.
  autorewrite with floor.
  destruct (decide (name ∈ processed_nodes f0)); [done|].
  rewrite with_db_floor.
  by destruct (with_db _ tt _) as [[?|e] f1].
Qed.

Lemma find_triangles_floor start_node f :
  find_triangles W start_node (set_min_weight w f)
  = with_floor w (find_triangles W start_node f).
Proof.
  unfold find_triangles. rewrite enter_node_floor.
  destruct (enter_node W start_node f) as [[[name|]|e] f0]; simpl;
    try done.
  rewrite find_triangles_try_floor.
  destruct (find_triangles_try W name f0) as [[n|v|e] f1]; simpl; try done.
  rewrite with_db_floor.
  by destruct (with_db _ tt f1) as [[?|e] f2].
Qed.

Lemma for_each_node_floor nodes :
  forall f,
    for_each_node W nodes (set_min_weight w f)
    = with_floor w (for_each_node W nodes f).
Proof.
  induction nodes as [|n rest IH]; intros f; simpl; [done|].
  rewrite find_triangles_floor.
  destruct (find_triangles W (PyDict n) f) as [[v|e] f1]; simpl;
    [apply IH|done].
Qed.

Lemma find_all_triangles_floor f :
  find_all_triangles W (set_min_weight w f)
  = with_floor w (find_all_triangles W f).
Proof.
  unfold find_all_triangles. autorewrite with floor.
  destruct (get_all_nodes W (api_client f)) as [[[|n nodes]|e] c];
    autorewrite with floor; [done| |done].
  rewrite for_each_node_floor.
  by destruct (for_each_node W (n :: nodes) _) as [[?|e] f1].
Qed.

End WeightFloor.

(** C7.  The weight floor does not influence the enumeration: whatever
    [min_weight] is set to, [find_all_triangles] returns the same value and
    leaves the same triangles, memos and store; the floor is only reported
    by [get_statistics]. *)
Theorem min_weight_not_enforced (W : World) (f : TriangleFinder)
    (w1 w2 : weight) :
  fst (find_all_triangles W (set_min_weight w1 f))
    = fst (find_all_triangles W (set_min_weight w2 f)) /\
  set_min_weight w2 (snd (find_all_triangles W (set_min_weight w1 f)))
    = snd (find_all_triangles W (set_min_weight w2 f)) /\
  minimum_weight_threshold
    (get_statistics (snd (find_all_triangles W (set_min_weight w1 f)))) = w1.
Proof.
  rewrite !find_all_triangles_floor.
  generalize (find_all_triangles W f). intros [r f']. by destruct f'.
Qed.

(** ** The exits of the loops and of the guards *)

Section ReturnValue.
Context (W : World).

Lemma scan_sources_return node_name target_b relations_from relations_to_b :
  forall source_nodes n f v f',
    scan_sources W node_name target_b relations_from relations_to_b
      source_nodes n f = (Return v, f') ->
    v = triangles f' /\ exists n', cap_reached f' n' = true.
Proof.
  induction source_nodes as [|source_c rest IH]; intros n f v f' H;
    simpl in H; [done|].
  destruct (cap_reached f n) eqn:Hcap; [simplify_eq; eauto|].
  destruct (close_triangles W node_name target_b source_c relations_from
              relations_to_b relations_from n f) as [o1 f1] eqn:Hclose.
  apply close_triangles_extends in Hclose as [_ Hret]; [|done].
  destruct o1 as [n1|v1|e]; [by eapply IH|by destruct (Hret v1)|done].
Qed.

Lemma scan_targets_return node_name relations_from :
  forall target_nodes n f v f',
    scan_targets W node_name relations_from target_nodes n f
      = (Return v, f') ->
    v = triangles f' /\ exists n', cap_reached f' n' = true.
Proof.
  induction target_nodes as [|target_b rest IH]; intros n f v f' H;
    simpl in H; [done|].
  destruct (cap_reached f n) eqn:Hcap; [simplify_eq; eauto|].
  destruct (get_relations_to W target_b (api_client f))
    as [[[|rel relations_to_b]|e] c]; [by eapply IH| |done].
  destruct (scan_sources W _ _ _ _ _ n _) as [[n1|v1|e] f1] eqn:Hscan;
    [by eapply IH| |done].
  simplify_eq. by eapply scan_sources_return.
Qed.

Lemma enter_node_skipped start_node f :
  fst (enter_node W start_node f) = Ok None <-> skipped W start_node f.
Proof.
  unfold enter_node, skipped. destruct start_node as [n|]; [|done].
  destruct (node_name n) as [name|]; [|done].
  destruct (decide (name = "")) as [->|Hname]; [by intuition|].
  destruct (with_db (is_node_processed W name) false f)
    as [[[|]|e] f0] eqn:Hcheck; simpl.
  - by intuition.
  - assert (Hvisited : processed_nodes f0 = processed_nodes f).
    { unfold with_db in Hcheck. destruct (db f); [|by simplify_eq].
      destruct (is_node_processed W name t). by simplify_eq. }
    rewrite Hvisited.
    destruct (decide (name ∈ processed_nodes f)); simpl; [by intuition|].
    destruct (with_db (mark_node_in_progress W name) tt _) as [[?|?] ?];
      simpl; split; try done; intros [?|[?|[_ ?]]]; done.
  - split; [done|]. intros [?|[?|[? _]]]; done.
Qed.

End ReturnValue.

(** ** Exceptions and the value returned *)

Section Exceptions.
Context (W : World).

Lemma save_triangle_spec t d r d' :
  save_triangle W t d = (r, d') ->
  journal d' = journal d ++ [SaveTriangle t] /\
  (db_fault W (length (journal d)) = Some OperationalError ->
   exists e, r = Raise e).
Proof.
  unfold save_triangle, execute, insert_or_ignore. intros H.
  repeat case_match; simplify_eq; simpl; split; eauto; done.
Qed.

Lemma next_found {X : Type} (P : X -> Prop) `{!forall x, Decision (P x)}
    (l : list X) :
  (exists x, x ∈ l /\ P x) -> exists r, next P l = Ok r.
Proof.
  intros (x & Hin & HP). unfold next.
  destruct (filter P l) as [|r rest] eqn:Hf; [|by eexists].
  assert (Hx : x ∈ filter P l) by (by apply list_elem_of_filter).
  rewrite Hf in Hx. by apply elem_of_nil in Hx.
Qed.

Lemma nothing_refused f :
  (forall s, ~ refused_status W (statements f) (db f) s) /\
  ~ refused_save W (statements f) (db f).
Proof.
  unfold statements. split.
  - intros s (d & n & stmt & Hd & Hn & Hl & _). rewrite Hd in Hn.
    apply lookup_lt_Some in Hl. lia.
  - intros (d & n & t & Hd & Hn & Hl & _). rewrite Hd in Hn.
    apply lookup_lt_Some in Hl. lia.
Qed.

Lemma refused_status_snoc m d d' stmt s :
  journal d' = journal d ++ [stmt] ->
  refused_status W m (Some d') s ->
  refused_status W m (Some d) s \/
  (is_status stmt /\ db_fault W (length (journal d)) = Some s).
Proof.
  intros Hj (d0 & n & stmt0 & [= <-] & Hn & Hl & Hstatus & Hfault).
  rewrite Hj in Hl. apply lookup_app_Some in Hl as [Hl|[Hlen Hl]].
  - left. by exists d, n, stmt0.
  - right. destruct (n - length (journal d))%nat as [|i] eqn:Hi;
      [|by destruct i].
    simpl in Hl. injection Hl as <-.
    assert (n = length (journal d)) as -> by lia. done.
Qed.

Lemma refused_save_snoc m d d' stmt :
  journal d' = journal d ++ [stmt] ->
  refused_save W m (Some d') ->
  refused_save W m (Some d) \/
  (exists t, stmt = SaveTriangle t /\
             db_fault W (length (journal d)) = Some OperationalError).
Proof.
  intros Hj (d0 & n & t & [= <-] & Hn & Hl & Hfault).
  rewrite Hj in Hl. apply lookup_app_Some in Hl as [Hl|[Hlen Hl]].
  - left. by exists d, n, t.
  - right. destruct (n - length (journal d))%nat as [|i] eqn:Hi;
      [|by destruct i].
    simpl in Hl. injection Hl as ->.
    assert (n = length (journal d)) as -> by lia. eauto.
Qed.

(** A status statement: nothing but the statement is added to the journal;
    the method raises exactly when SQLite refuses the statement. *)
Lemma status_step {X : Type}
    (op : TriangleDatabase -> result X * TriangleDatabase) (x0 : X)
    m f r f' :
  status_statement W op -> with_db op x0 f = (r, f') ->
  (m <= statements f)%nat ->
  (exists o, f' = set_db o f) /\ (m <= statements f')%nat /\
  (refused_save W m (db f') -> refused_save W m (db f)) /\
  match r with
  | Ok _ =>
      forall s, refused_status W m (db f') s -> refused_status W m (db f) s
  | Raise e =>
      exists s, e = SqliteError s /\ refused_status W m (db f') s /\
        forall s', refused_status W m (db f') s' ->
          refused_status W m (db f) s' \/ s' = s
  end.
Proof.
  intros Hop H Hm. unfold with_db in H. unfold statements in *.
  destruct (db f) as [d|] eqn:Hd.
  2:{ injection H as <- <-. rewrite Hd. split; [|by auto].
      exists None. rewrite <- Hd. by destruct f. }
  destruct (op d) as [r' d'] eqn:Hopd. injection H as -> <-.
  apply Hop in Hopd as (_ & stmt & Hstmt & Hj & Hfault). simpl.
  split; [by eexists|]. split; [rewrite Hj, length_app; lia|]. split.
  { intros Hsave. apply (refused_save_snoc _ _ _ _ Hj) in Hsave
      as [?|(t & -> & _)]; done. }
  destruct (db_fault W (length (journal d))) as [s|] eqn:Hs.
  - subst r. exists s. split; [done|]. split.
    + exists d', (length (journal d)), stmt. repeat split; try done.
      rewrite Hj. apply list_lookup_middle. done.
    + intros s' Hs'. apply (refused_status_snoc _ _ _ _ _ Hj) in Hs'
        as [?|[_ ?]]; [by left|right; congruence].
  - destruct Hfault as [x ->]. intros s Hs'.
    apply (refused_status_snoc _ _ _ _ _ Hj) in Hs' as [?|[_ ?]];
      [done|congruence].
Qed.

(** The insertion of a triangle: nothing but the statement is added to the
    journal; [save_triangle] raises exactly when SQLite answers
    [OperationalError]. *)
Lemma save_step t m f r f' :
  with_db (save_triangle W t) false f = (r, f') ->
  (m <= statements f)%nat ->
  (exists o, f' = set_db o f) /\ (m <= statements f')%nat /\
  (forall s, refused_status W m (db f') s -> refused_status W m (db f) s) /\
  match r with
  | Ok _ => refused_save W m (db f') -> refused_save W m (db f)
  | Raise _ => refused_save W m (db f')
  end.
Proof.
  intros H Hm. unfold with_db in H. unfold statements in *.
  destruct (db f) as [d|] eqn:Hd.
  2:{ injection H as <- <-. rewrite Hd. split; [|by auto].
      exists None. rewrite <- Hd. by destruct f. }
  destruct (save_triangle W t d) as [r' d'] eqn:Hsave.
  injection H as -> <-. simpl.
  assert (Hj : journal d' = journal d ++ [SaveTriangle t]).
  { by apply save_triangle_spec in Hsave as [? _]. }
  split; [by eexists|]. split; [rewrite Hj, length_app; lia|]. split.
  { intros s Hs. apply (refused_status_snoc _ _ _ _ _ Hj) in Hs
      as [?|[? _]]; done. }
  unfold save_triangle, execute in Hsave.
  destruct (db_fault W (length (journal d))) as [[|]|] eqn:Hfault.
  - injection Hsave as <- <-. intros Hs.
    apply (refused_save_snoc _ _ _ _ Hj) in Hs as [?|(? & _ & ?)];
      [done|congruence].
  - injection Hsave as <- <-.
    eexists _, (length (journal d)), t. repeat split; try done.
    simpl. by apply list_lookup_middle.
  - destruct (insert_or_ignore t _) as [b d1]. injection Hsave as <- <-.
    intros Hs.
    apply (refused_save_snoc _ _ _ _ Hj) in Hs as [?|(? & _ & ?)];
      [done|congruence].
Qed.

(** The loop over [rel3] raises only what [save_triangle] raises, when the
    target and the source come from the two lists. *)
Lemma close_triangles_calm m node_name target_b source_c
    relations_from relations_to_b :
  forall todo n f o f',
    close_triangles W node_name target_b source_c
      relations_from relations_to_b todo n f = (o, f') ->
    (m <= statements f)%nat ->
    api_client f' = api_client f /\ (m <= statements f')%nat /\
    (forall s, refused_status W m (db f') s -> refused_status W m (db f) s) /\
    match o with
    | Raised _ =>
        (exists r, r ∈ relations_from /\ rel_target r = target_b) ->
        (exists r, r ∈ relations_to_b /\ rel_source r = source_c) ->
        refused_save W m (db f')
    | _ => refused_save W m (db f') -> refused_save W m (db f)
    end.
Proof.
  induction todo as [|rel3 rest IH]; intros n f o f' H Hm; simpl in H.
  { injection H as <- <-. by auto. }
  destruct (decide (rel_target rel3 = source_c)) as [_|_]; [|by eapply IH].
  destruct (next _ relations_from) as [rel1|e1] eqn:H1.
  2:{ injection H as <- <-. repeat split; try done.
      intros Hfrom _.
      destruct (next_found (fun r => rel_target r = target_b) _ Hfrom)
        as [r Hr].
      rewrite Hr in H1. discriminate. }
  destruct (next _ relations_to_b) as [rel2|e2] eqn:H2.
  2:{ injection H as <- <-. repeat split; try done.
      intros _ Hto.
      destruct (next_found (fun r => rel_source r = source_c) _ Hto)
        as [r Hr].
      rewrite Hr in H2. discriminate. }
  destruct (with_db _ false _) as [[b|e] f2] eqn:Hsave;
    eapply (save_step _ m) in Hsave as ([o2 ->] & Hm2 & Hstatus & Hr);
    try exact Hm.
  - apply IH in H as (Hc & Hm' & Hstatus' & Ho); [|exact Hm2].
    split; [by rewrite Hc|]. split; [done|]. split; [by auto|].
    destruct o; by auto.
  - injection H as <- <-. by auto.
Qed.

Lemma scan_sources_calm m node_name target_b relations_from relations_to_b :
  forall source_nodes n f o f',
    scan_sources W node_name target_b relations_from relations_to_b
      source_nodes n f = (o, f') ->
    (m <= statements f)%nat ->
    api_client f' = api_client f /\ (m <= statements f')%nat /\
    (forall s, refused_status W m (db f') s -> refused_status W m (db f) s) /\
    match o with
    | Raised _ =>
        (exists r, r ∈ relations_from /\ rel_target r = target_b) ->
        Forall (fun source_c =>
                  exists r, r ∈ relations_to_b /\ rel_source r = source_c)
          source_nodes ->
        refused_save W m (db f')
    | _ => refused_save W m (db f') -> refused_save W m (db f)
    end.
Proof.
  induction source_nodes as [|source_c rest IH]; intros n f o f' H Hm;
    simpl in H.
  { injection H as <- <-. by auto. }
  destruct (cap_reached f n); [injection H as <- <-; by auto|].
  destruct (close_triangles W _ _ _ _ _ _ n f) as [o1 f1] eqn:Hclose.
  apply (close_triangles_calm m) in Hclose as (Hc1 & Hm1 & Hs1 & Ho1);
    [|exact Hm].
  destruct o1 as [n1|v|e].
  - apply IH in H as (Hc & Hm' & Hs & Ho); [|exact Hm1].
    split; [congruence|]. split; [done|]. split; [by auto|].
    destruct o; [by auto..|].
    intros Hfrom Hto. apply Ho; [done|]. by apply Forall_cons in Hto as [_ ?].
  - injection H as <- <-. by auto.
  - injection H as <- <-. repeat split; try done.
    intros Hfrom Hto. apply Ho1; [done|]. by apply Forall_cons in Hto as [? _].
Qed.

Lemma raised_fetch_symptom k c :
  raised_fetch W k c ->
  exists n word relations nodes,
    (k <= n)%nat /\ session c !! n = Some (RelationsTo word) /\
    net_relations_to W n word = Some (Payload relations nodes) /\
    reverse_relations_cache c !! word = None.
Proof.
  intros (c0 & word & e & Hk & H). unfold get_relations_to in H.
  destruct (reverse_relations_cache c0 !! word) as [l|] eqn:Hcache;
    [done|].
  destruct (net_relations_to W (length (session c0)) word)
    as [[relations nodes|]|] eqn:Hnet; [|done..].
  exists (length (session c0)), word, relations, nodes.
  split; [done|].
  destruct (build_node_map nodes ∅) as [node_map|e'].
  2:{ injection H as <- <-. simpl. split; [|done].
      by apply list_lookup_middle. }
  destruct (process_relations W node_map _ [] _) as [[l|e'] c1] eqn:Hp;
    [done|].
  injection H as <- <-.
  apply process_relations_frame in Hp as (_ & Hb & rs & Hs & _).
  split; [|split; [done|by rewrite Hb]].
  rewrite Hs. simpl. rewrite <- app_assoc. by apply list_lookup_middle.
Qed.

Lemma memoized_not_raised k c : memoized_from W k c -> ~ raised_fetch W k c.
Proof.
  intros Hmemo (n & word & relations & nodes & Hk & Hs & Hnet & Hnone)
    %raised_fetch_symptom.
  destruct (Hmemo n word relations nodes Hk Hs Hnet) as [l Hl]. congruence.
Qed.

Lemma memoized_from_start c : memoized_from W (length (session c)) c.
Proof.
  intros n word relations nodes Hn Hs. apply lookup_lt_Some in Hs. lia.
Qed.

Lemma get_relations_from_calm k word c r c' :
  get_relations_from W word c = (r, c') ->
  (k <= length (session c))%nat -> memoized_from W k c ->
  (k <= length (session c'))%nat /\ memoized_from W k c'.
Proof.
  intros H Hk Hmemo.
  apply get_relations_from_cases in H
    as [(l & _ & _ & ->)|(_ & Hb & (rs & Hs & Hrs) & _)]; [done|].
  split; [rewrite Hs, length_app; lia|].
  intros n word' relations nodes Hn Hl Hnet. rewrite Hb.
  rewrite Hs in Hl. apply lookup_app_Some in Hl as [Hl|[Hlen Hl]].
  { by eapply Hmemo. }
  destruct (n - length (session c))%nat as [|i]; [done|]. simpl in Hl.
  apply list_elem_of_lookup_2 in Hl. rewrite Forall_forall in Hrs.
  by apply Hrs in Hl.
Qed.

Lemma get_relations_to_calm k word c r c' :
  get_relations_to W word c = (r, c') ->
  (k <= length (session c))%nat -> memoized_from W k c ->
  match r with
  | Ok _ => (k <= length (session c'))%nat /\ memoized_from W k c'
  | Raise _ => raised_fetch W k c'
  end.
Proof.
  intros H Hk Hmemo. destruct r as [l|e]; [|by exists c, word, e].
  apply get_relations_to_cases in H
    as [(l' & _ & _ & ->)|(_ & _ & (rs & Hs & Hrs) & Hout)]; [done|].
  split; [rewrite Hs, length_app; lia|].
  intros n word' relations nodes Hn Hl Hnet.
  rewrite Hs in Hl. apply lookup_app_Some in Hl as [Hl|[Hlen Hl]].
  { destruct (Hmemo _ _ _ _ Hn Hl Hnet) as [l0 Hl0].
    destruct Hout as [[-> _]|(l1 & ? & ? & _ & _ & _ & ->)]; [by eexists|].
    destruct (decide (word' = word)) as [->|Hne].
    - rewrite lookup_insert_eq. by eexists.
    - rewrite lookup_insert_ne by done. by eexists. }
  destruct (n - length (session c))%nat as [|i] eqn:Hi; simpl in Hl.
  - injection Hl as <-. assert (n = length (session c)) as -> by lia.
    destruct Hout as [[_ [[_ Hno]|[e ?]]]|(l1 & ? & ? & _ & _ & _ & ->)].
    + by destruct (Hno relations nodes).
    + done.
    + rewrite lookup_insert_eq. by eexists.
  - apply list_elem_of_lookup_2 in Hl. rewrite Forall_forall in Hrs.
    by apply Hrs in Hl.
Qed.

(** The loop over the targets raises only what [get_relations_to] and
    [save_triangle] raise, when the iteration over a set yields its
    elements. *)
Lemma scan_targets_calm k m node_name relations_from :
  forall target_nodes n f o f',
    scan_targets W node_name relations_from target_nodes n f = (o, f') ->
    (k <= length (session (api_client f)))%nat ->
    memoized_from W k (api_client f) ->
    (m <= statements f)%nat ->
    (forall s, refused_status W m (db f') s -> refused_status W m (db f) s) /\
    match o with
    | Raised _ =>
        set_semantics W ->
        Forall (fun target_b =>
                  exists r, r ∈ relations_from /\ rel_target r = target_b)
          target_nodes ->
        raised_fetch W k (api_client f') \/ refused_save W m (db f')
    | _ =>
        (k <= length (session (api_client f')))%nat /\
        memoized_from W k (api_client f') /\
        (m <= statements f')%nat /\
        (refused_save W m (db f') -> refused_save W m (db f))
    end.
Proof.
  induction target_nodes as [|target_b rest IH]; intros n f o f' H Hk Hmemo Hm;
    simpl in H.
  { injection H as <- <-. by auto. }
  destruct (cap_reached f n); [injection H as <- <-; by auto|].
  destruct (get_relations_to W target_b (api_client f))
    as [r c] eqn:Hto.
  pose proof (get_relations_to_calm k _ _ _ _ Hto Hk Hmemo) as Hc.
  destruct r as [[|rel relations_to_b]|e].
  - destruct Hc as [Hk' Hmemo'].
    apply IH in H as (Hs & Ho); [|done..].
    split; [done|]. destruct o; [done..|].
    intros Hset Hin. apply Ho; [done|]. by apply Forall_cons in Hin as [_ ?].
  - destruct Hc as [Hk' Hmemo'].
    destruct (scan_sources W _ _ _ _ _ n _) as [o1 f1] eqn:Hscan.
    apply (scan_sources_calm m) in Hscan as (Hc1 & Hm1 & Hs1 & Ho1);
      [|done].
    simpl in Hc1.
    destruct o1 as [n1|v|e].
    + apply IH in H as (Hs & Ho); [|by rewrite Hc1..|done].
      split; [by auto|]. destruct o.
      * destruct Ho as (? & ? & ? & Hsave). repeat split; try done.
        intros Hx. by apply Ho1, Hsave.
      * destruct Ho as (? & ? & ? & Hsave). repeat split; try done.
        intros Hx. by apply Ho1, Hsave.
      * intros Hset Hin. apply Ho; [done|].
        by apply Forall_cons in Hin as [_ ?].
    + injection H as <- <-. rewrite Hc1. by auto.
    + injection H as <- <-. split; [done|].
      intros Hset Hin. right. apply Ho1.
      * by apply Forall_cons in Hin as [? _].
      * apply Forall_forall. intros source_c Hsource.
        apply (proj1 (proj2 (Hset _) _)) in Hsource.
        apply list_elem_of_fmap in Hsource as (r & -> & Hr).
        apply list_elem_of_filter in Hr as [_ Hr]. eauto.
  - injection H as <- <-. by auto.
Qed.

Lemma find_triangles_try_calm k m node_name f o f' :
  find_triangles_try W node_name f = (o, f') ->
  (k <= length (session (api_client f)))%nat ->
  memoized_from W k (api_client f) ->
  (m <= statements f)%nat ->
  (forall s, refused_status W m (db f') s -> refused_status W m (db f) s) /\
  match o with
  | Raised _ =>
      set_semantics W ->
      (exists rel l,
         fst (get_relations_from W node_name (api_client f))
         = Ok (rel :: l)) ->
      raised_fetch W k (api_client f') \/ refused_save W m (db f')
  | _ =>
      (k <= length (session (api_client f')))%nat /\
      memoized_from W k (api_client f') /\
      (m <= statements f')%nat /\
      (refused_save W m (db f') -> refused_save W m (db f))
  end.
Proof.
  unfold find_triangles_try. intros H Hk Hmemo Hm.
  destruct (get_relations_from W node_name (api_client f))
    as [r c] eqn:Hfrom.
  destruct (get_relations_from_calm k _ _ _ _ Hfrom Hk Hmemo)
    as [Hk' Hmemo'].
  destruct r as [[|rel relations_from]|e].
  - injection H as <- <-. by auto.
  - apply (scan_targets_calm k m) in H as (Hs & Ho); [|done..].
    split; [done|]. destruct o; [done..|].
    intros Hset _. apply Ho; [done|].
    apply Forall_forall. intros target_b Hb.
    apply (proj1 (proj2 (Hset _) _)) in Hb.
    apply list_elem_of_fmap in Hb as (r & -> & Hr). eauto.
  - injection H as <- <-. split; [done|]. by intros _ (? & ? & ?).
Qed.

(** The guards send status statements only, and raise exactly when
    SQLite refuses one. *)
Lemma enter_node_calm start_node f r f' :
  enter_node W start_node f = (r, f') ->
  api_client f' = api_client f /\
  (statements f <= statements f')%nat /\
  ~ refused_save W (statements f) (db f') /\
  match r with
  | Ok _ => forall s, ~ refused_status W (statements f) (db f') s
  | Raise e =>
      exists s, e = SqliteError s /\
        refused_status W (statements f) (db f') s /\
        forall s', refused_status W (statements f) (db f') s' -> s' = s
  end.
Proof.
  destruct (nothing_refused f) as [Hstatus Hsave].
  intros H. unfold enter_node in H.
  destruct start_node as [n|]; [|by injection H as <- <-].
  destruct (node_name n) as [name|]; [|by injection H as <- <-].
  destruct (decide (name = "")); [by injection H as <- <-|].
  destruct (with_db (is_node_processed W name) false f)
    as [r0 f0] eqn:Hcheck.
  eapply (status_step _ _ (statements f)) in Hcheck
    as ([o0 ->] & Hm0 & Hsave0 & Hr0);
    [|apply is_node_processed_status|done].
  destruct r0 as [[|]|e].
  - injection H as <- <-. repeat split; try done; [tauto|].
    intros s Hs. by apply Hr0, Hstatus in Hs.
  - destruct (decide (name ∈ _)).
    { injection H as <- <-. repeat split; try done; [tauto|].
      intros s Hs. by apply Hr0, Hstatus in Hs. }
    destruct (with_db (mark_node_in_progress W name) tt _)
      as [r1 f1] eqn:Hmark.
    eapply (status_step _ _ (statements f)) in Hmark
      as ([o1 ->] & Hm1 & Hsave1 & Hr1);
      [|apply mark_node_in_progress_status|done].
    simpl in *.
    destruct r1 as [u|e]; injection H as <- <-; simpl.
    + repeat split; try done; [tauto|].
      intros s Hs. by apply Hr1, Hr0, Hstatus in Hs.
    + destruct Hr1 as (s & -> & Hs & Hunique).
      repeat split; try done; [tauto|].
      exists s. repeat split; try done.
      intros s' Hs'. apply Hunique in Hs' as [Hs'|?]; [|done].
      by apply Hr0, Hstatus in Hs'.
  - injection H as <- <-. destruct Hr0 as (s & -> & Hs & Hunique).
    repeat split; try done; [tauto|].
    exists s. repeat split; try done.
    intros s' Hs'. apply Hunique in Hs' as [Hs'|?]; [|done].
    by apply Hstatus in Hs'.
Qed.


(** What a call of [find_triangles] does, by its outcome. *)
Lemma find_triangles_outcome start_node f r f' :
  find_triangles W start_node f = (r, f') ->
  let k := length (session (api_client f)) in
  let m := statements f in
  let quiet :=
    ~ raised_fetch W k (api_client f') /\ ~ refused_save W m (db f') in
  (* the guards skip the node *)
  (skipped W start_node f /\ r = Ok [] /\ quiet /\
   forall s, ~ refused_status W m (db f') s) \/
  (* a status statement is refused *)
  (~ skipped W start_node f /\ quiet /\
   exists s, r = Raise (SqliteError s) /\ refused_status W m (db f') s /\
     forall s', refused_status W m (db f') s' -> s' = s) \/
  (* the [try] block is entered *)
  (exists name,
     fst (enter_node W start_node f) = Ok (Some name) /\
     (forall s, ~ refused_status W m (db f') s) /\
     match fst (get_relations_from W name (api_client f)) with
     | Ok (_ :: _) =>
         (r = Ok (triangles f') /\ quiet) \/
         (r = Ok [] /\
          (set_semantics W ->
           raised_fetch W k (api_client f') \/ refused_save W m (db f')))
     | _ => r = Ok [] /\ quiet
     end).
Proof.
  intros H k m quiet. subst quiet. unfold find_triangles in H.
  pose proof (enter_node_skipped W start_node f) as Hskip.
  destruct (enter_node W start_node f) as [r0 f0] eqn:Henter.
  pose proof (enter_node_calm _ _ _ _ Henter) as (Hc0 & Hm0 & Hsave0 & Hr0).
  fold m in Hm0, Hsave0, Hr0. simpl in Hskip.
  assert (Hquiet0 : ~ raised_fetch W k (api_client f0)).
  { rewrite Hc0. apply memoized_not_raised, memoized_from_start. }
  destruct r0 as [[name|]|e].
  2:{ injection H as <- <-. left. split; [by apply Hskip|]. done. }
  2:{ injection H as <- <-. right. left.
      split; [intros Hs; by apply Hskip in Hs|]. split; [done|].
      destruct Hr0 as (s & -> & ? & ?). by exists s. }
  assert (Hnot : ~ skipped W start_node f).
  { intros Hs. by apply Hskip in Hs. }
  destruct (find_triangles_try W name f0) as [o f1] eqn:Htry.
  pose proof (find_triangles_try_calm k m _ _ _ _ Htry) as [Hs1 Ho1].
  { by rewrite Hc0. }
  { rewrite Hc0. apply memoized_from_start. }
  { done. }
  rewrite Hc0 in Ho1.
  assert (Hfirst : forall v,
    o = Return v ->
    match fst (get_relations_from W name (api_client f)) with
    | Ok (_ :: _) => v = triangles f1
    | _ => v = []
    end).
  { intros v ->. unfold find_triangles_try in Htry. rewrite Hc0 in Htry.
    destruct (get_relations_from W name (api_client f))
      as [[[|rel l]|e] c]; simpl; [by injection Htry as <- _| |done].
    by apply scan_targets_return in Htry as [? _]. }
  assert (Hcont : forall n,
    o = Continue n ->
    exists rel l,
      fst (get_relations_from W name (api_client f)) = Ok (rel :: l)).
  { intros n ->. unfold find_triangles_try in Htry. rewrite Hc0 in Htry.
    destruct (get_relations_from W name (api_client f))
      as [[[|rel l]|e] c]; simpl; [done|by eauto|done]. }
  destruct o as [n|v|e].
  - destruct (Hcont n eq_refl) as (rel & l & Hrel).
    destruct Ho1 as (Hk1 & Hmemo1 & Hm1 & Hsave1).
    destruct (with_db (mark_node_processed W name) tt f1)
      as [r2 f2] eqn:Hmark.
    eapply (status_step _ _ m) in Hmark
      as ([o2 ->] & Hm2 & Hsave2 & Hr2);
      [|apply mark_node_processed_status|done].
    assert (Hq : ~ raised_fetch W k (api_client (set_db o2 f1)) /\
                 ~ refused_save W m (db (set_db o2 f1))).
    { split; [by apply memoized_not_raised|].
      intros Hs. by apply Hsave2, Hsave1, Hsave0 in Hs. }
    destruct r2 as [u|e]; injection H as <- <-.
    + right. right. exists name. split; [done|].
      split; [intros s Hs; by apply Hr2, Hs1, Hr0 in Hs|].
      rewrite Hrel. by left.
    + right. left. split; [done|]. split; [done|].
      destruct Hr2 as (s & -> & Hs & Hunique).
      exists s. repeat split; try done.
      intros s' Hs'. apply Hunique in Hs' as [Hs'|?]; [|done].
      by apply Hs1, Hr0 in Hs'.
  - injection H as <- <-. specialize (Hfirst v eq_refl).
    destruct Ho1 as (Hk1 & Hmemo1 & Hm1 & Hsave1).
    right. right. exists name. split; [done|].
    split; [intros s Hs; by apply Hs1, Hr0 in Hs|].
    assert (Hq : ~ raised_fetch W k (api_client f1) /\
                 ~ refused_save W m (db f1)).
    { split; [by apply memoized_not_raised|].
      intros Hs. by apply Hsave1, Hsave0 in Hs. }
    destruct (fst (get_relations_from W name (api_client f)))
      as [[|rel l]|e]; subst v; auto.
  - injection H as <- <-.
    right. right. exists name. split; [done|].
    split; [intros s Hs; by apply Hs1, Hr0 in Hs|].
    unfold find_triangles_try in Htry. rewrite Hc0 in Htry.
    destruct (get_relations_from W name (api_client f))
      as [[[|rel l]|e'] c] eqn:Hfrom; simpl in *.
    + done.
    + right. split; [done|]. intros Hset. apply Ho1; eauto.
    + injection Htry as <- <-. split; [done|].
      split; [|done]. simpl.
      destruct (get_relations_from_calm k _ _ _ _ Hfrom) as [_ ?];
        [done|apply memoized_from_start|].
      by apply memoized_not_raised.
Qed.


(** C8, as the code has it.  A status statement of the store
    ([is_node_processed], [mark_node_in_progress], [mark_node_processed])
    that SQLite refuses during a call of [find_triangles], whichever it
    is, makes the call raise the error of SQLite, and the call raises in
    no other case.  A refused [save_triangle] is never raised: its
    [OperationalError] is caught by the handler of the [try] block, and
    [find_triangles] returns the empty list.  The journal of the store
    only grows, so that the statements of the call are those from the
    position [statements f] on. *)
Theorem status_failures_surface (start_node : pyobject)
    (f : TriangleFinder) :
  let '(r, f') := find_triangles W start_node f in
  (forall d, db f = Some d ->
     exists d', db f' = Some d' /\ journal d `prefix_of` journal d') /\
  (forall s, refused_status W (statements f) (db f') s ->
     r = Raise (SqliteError s)) /\
  (forall e, r = Raise e ->
     exists s, e = SqliteError s /\
               refused_status W (statements f) (db f') s) /\
  (refused_save W (statements f) (db f') -> r = Ok []).
Proof.
  destruct (find_triangles W start_node f) as [r f'] eqn:H.
  split.
  { intros d Hd. apply find_triangles_extends in H.
    pose proof (ext_db _ _ _ _ H) as Hdb. rewrite Hd in Hdb.
    destruct (db f') as [d'|]; [|done].
    destruct Hdb as [(stmts & Hj & _) _]. exists d'.
    split; [done|]. rewrite Hj. by apply prefix_app_r. }
  apply find_triangles_outcome in H. simpl in H.
  destruct H as [(_ & -> & [_ Hsave] & Hstatus)
                |[(_ & [_ Hsave] & s & -> & Hs & Hunique)
                 |(name & _ & Hstatus & Hout)]].
  - split; [intros s Hs; by apply Hstatus in Hs|]. by split.
  - split; [|split].
    + intros s' Hs'. by rewrite (Hunique s' Hs').
    + intros e [= <-]. eauto.
    + done.
  - assert (Hr : (r = Ok (triangles f') /\
                  ~ refused_save W (statements f) (db f')) \/ r = Ok []).
    { destruct (fst (get_relations_from W name (api_client f)))
        as [[|rel l]|e]; [tauto| |tauto].
      destruct Hout as [[? [_ ?]]|[? _]]; auto. }
    split; [|split].
    + intros s Hs. by apply Hstatus in Hs.
    + intros e ->. by destruct Hr as [[? _]|?].
    + intros Hs. by destruct Hr as [[_ ?]|?].
Qed.


End Exceptions.

(** Here SQLite accepts the first three statements and refuses the
    fourth, [mark_node_processed], after a triangle was found and saved:
    [find_triangles] raises its error. *)
Lemma status_failures_surface_witness :
  let f := new_finder new_client 0%Q None (Some empty_database) in
  (journal <$> db (snd (find_triangles stalled_world (PyDict chat) f)))
  = Some [IsNodeProcessed "chat"; MarkNodeInProgress "chat";
          SaveTriangle
            (Triangle "chat" "animal" "chien" 6 6 7 1%Q 1%Q (-1 # 2)%Q);
          MarkNodeProcessed "chat"] /\
  fst (find_triangles stalled_world (PyDict chat) f)
  = Raise (SqliteError OperationalError).
Proof.
  intros f. split; [vm_compute; reflexivity|].
  assert (Hrefused :
    refused_status stalled_world (statements f)
      (db (snd (find_triangles stalled_world (PyDict chat) f)))
      OperationalError).
  { eexists _, 3%nat, (MarkNodeProcessed "chat").
    split; [vm_compute; reflexivity|]. by repeat split; [vm_compute; lia|..]. }
  pose proof (status_failures_surface stalled_world (PyDict chat) f) as H.
  destruct (find_triangles stalled_world (PyDict chat) f) as [r f'].
  destruct H as (_ & Hraise & _). by apply Hraise.
Defined.

(** C8 as stated fails.  SQLite refuses the third statement, the insertion
    of the triangle: [save_triangle] raises, the handler of the [try] block
    catches the error, and [find_triangles] returns the empty list.  The
    triangle stays in the list in memory and the node stays in progress. *)
Lemma save_failure_swallowed :
  let t := Triangle "chat" "animal" "chien" 6 6 7 1%Q 1%Q (-1 # 2)%Q in
  let f := new_finder new_client 0%Q None (Some empty_database) in
  let '(r, f') := find_triangles faulty_world (PyDict chat) f in
  r = Ok [] /\
  triangles f' = [t] /\
  (journal <$> db f')
    = Some [IsNodeProcessed "chat"; MarkNodeInProgress "chat"; SaveTriangle t] /\
  (last_fault faulty_world <$> db f') = Some (Some OperationalError) /\
  (triangles_table <$> db f') = Some [] /\
  ((fun d => processed_nodes_table d !! "chat") <$> db f')
    = Some (Some in_progress).
Proof. vm_compute. repeat split; reflexivity. Qed.

(** The scenario of the specification: one triangle (chat, animal, chien),
    returned as the whole list. *)
Example chat_triangle :
  fst (find_triangles chat_world (PyDict chat)
         (new_finder new_client 0%Q None (Some empty_database)))
  = Ok [Triangle "chat" "animal" "chien" 6 6 7 1%Q 1%Q (-1 # 2)%Q].
Proof. vm_compute. reflexivity. Qed.

(** With a triangle already in the list, a seed without relations and a
    seed already visited both give the empty list, not the list. *)
Example empty_list_despite_triangles :
  let t := Triangle "chat" "animal" "chien" 6 6 7 1%Q 1%Q (-1 # 2)%Q in
  let f := snd (find_triangles chat_world (PyDict chat)
                  (new_finder new_client 0%Q None None)) in
  triangles f = [t] /\
  fst (find_triangles chat_world (PyDict animal) f) = Ok [] /\
  fst (find_triangles chat_world (PyDict chat) f) = Ok [] /\
  fst (find_triangles chat_world PyOther f) = Ok [].
Proof. vm_compute. repeat split; reflexivity. Qed.

(** The conversions of [float]: exact below [2 ** 53], to the nearest
    double above, to the even one on a tie, an error beyond the largest
    double. *)
Example float_of_int_rounds :
  float (PyInt (-25)) = Ok (-25 # 1)%Q /\
  float (PyInt (2 ^ 53 + 1)) = Ok (inject_Z (2 ^ 53)) /\
  float (PyInt (2 ^ 53 + 3)) = Ok (inject_Z (2 ^ 53 + 4)) /\
  float (PyInt (2 ^ 1024 - 2 ^ 970 - 1))
    = Ok (inject_Z (2 ^ 1024 - 2 ^ 971)) /\
  float (PyInt (2 ^ 1024 - 2 ^ 970)) = Raise OverflowError /\
  float (PyInt (10 ^ 400)) = Raise OverflowError /\
  float (PyFloat (1 # 2)) = Ok (1 # 2)%Q.
Proof. vm_compute. repeat split; reflexivity. Qed.

(** An int weight of the payload is rounded by the accessor. *)
Example heavy_weight_is_rounded :
  fst (get_relations_from heavy_world "chat" new_client)
  = Ok [Relation "chat" "animal" 6 (inject_Z (2 ^ 53));
        Relation "chat" "chien" 7 (-25 # 1)%Q].
Proof. vm_compute. reflexivity. Qed.

(** An int weight beyond the doubles makes [get_relations_to] raise
    [OverflowError], which [find_triangles] turns into the empty list
    although its list holds a triangle. *)
Example overflow_gives_empty_list :
  let t := Triangle "chat" "animal" "chien" 6 6 7 1%Q 1%Q (-1 # 2)%Q in
  let f := set_triangles [t] (new_finder new_client 0%Q None None) in
  let '(r, f') := find_triangles huge_world (PyDict chat) f in
  fst (get_relations_to huge_world "animal" new_client)
    = Raise OverflowError /\
  raised_fetch huge_world 0 (api_client f') /\
  r = Ok [] /\ triangles f' = [t].
Proof.
  intros t f.
  destruct (find_triangles huge_world (PyDict chat) f) as [r f'] eqn:H.
  vm_compute in H. injection H as <- <-.
  split; [vm_compute; reflexivity|]. split; [|by split].
  exists (snd (get_relations_from huge_world "chat" new_client)), "animal",
    OverflowError.
  split; [vm_compute; lia|vm_compute; reflexivity].
Qed.

(** ** The matching step *)

Section Matching.
Context (W : World).

Lemma with_db_frame {X : Type}
    (op : TriangleDatabase -> result X * TriangleDatabase) (x0 : X) f r f' :
  with_db op x0 f = (r, f') -> exists o, f' = set_db o f.
Proof.
  unfold with_db. destruct (db f) as [d|] eqn:Hd.
  - destruct (op d). intros [= <- <-]. eauto.
  - intros [= <- <-]. exists None. rewrite <- Hd. by destruct f.
Qed.

Lemma close_triangles_spec node_name target_b source_c
    relations_from relations_to_b :
  forall todo n f,
    let new := triangles_of node_name target_b source_c
                 relations_from relations_to_b todo in
    match close_triangles W node_name target_b source_c
            relations_from relations_to_b todo n f with
    | (Continue n', f') =>
        triangles f' = triangles f ++ new /\ n' = (n + length new)%nat
    | (Raised _, f') =>
        exists k, triangles f' = triangles f ++ take k new
    | (Return _, _) => False
    end.
Proof.
  unfold triangles_of.
  induction todo as [|rel3 rest IH]; intros n f; simpl.
  { repeat case_match; rewrite ?app_nil_r; auto. }
  rewrite filter_cons.
  destruct (decide (rel_target rel3 = source_c)) as [Htarget|_];
    [|apply IH].
  destruct (next _ relations_from) as [rel1|e1];
    [|exists 0%nat; by rewrite app_nil_r].
  destruct (next _ relations_to_b) as [rel2|e2];
    [|exists 0%nat; by rewrite app_nil_r].
  rewrite fmap_cons.
  set (t := make_triangle node_name target_b source_c rel1 rel2 rel3).
  destruct (with_db _ false _) as [[b|e] f2] eqn:Hsave;
    apply with_db_frame in Hsave as [o ->].
  - specialize (IH (S n)
      (set_relation_stats
         (count_type (rel_type rel1)
            (relation_stats (set_db o (set_triangles (triangles f ++ [t]) f))))
         (set_db o (set_triangles (triangles f ++ [t]) f)))).
    destruct (close_triangles W _ _ _ _ _ rest _ _) as [[n'|v|e] f'];
      simpl in IH; [| done |].
    + destruct IH as [-> ->]. rewrite <- app_assoc. simpl. split; [done|lia].
    + destruct IH as [k ->]. exists (S k). by rewrite <- app_assoc.
  - exists 1%nat. simpl. by rewrite take_0.
Qed.

(** C3, as the code has it.  For a seed A, a target B and a source C, the
    loop over [rel3] appends one triangle (A, B, C) for each relation of
    the seed to C, in the order of the list; each of them takes its edge
    A->B from the first relation of the seed to B and its edge C->B from
    the first relation of C to B.  There is exactly one when exactly one
    relation of the seed goes to C.  The loop stops early only on an
    exception, after a part of these triangles. *)
Theorem one_triangle_per_closing_relation
    (node_name target_b source_c : string)
    (relations_from relations_to_b : list relation)
    (n : nat) (f : TriangleFinder) :
  let new := triangles_of node_name target_b source_c
               relations_from relations_to_b relations_from in
  match close_triangles W node_name target_b source_c
          relations_from relations_to_b relations_from n f with
  | (Continue n', f') =>
      triangles f' = triangles f ++ new /\ n' = (n + length new)%nat
  | (Raised _, f') =>
      exists k, triangles f' = triangles f ++ take k new
  | (Return _, _) => False
  end.
Proof. apply close_triangles_spec. Qed.

End Matching.

(** ** The enumeration is complete *)

Section Completeness.
Context (W : World).

Lemma close_triangles_api node_name target_b source_c
    relations_from relations_to_b :
  forall todo n f o f',
    close_triangles W node_name target_b source_c relations_from
      relations_to_b todo n f = (o, f') ->
    api_client f' = api_client f.
Proof.
  induction todo as [|rel3 rest IH]; intros n f o f' H; simpl in H.
  { by simplify_eq. }
  destruct (decide (rel_target rel3 = source_c)) as [_|_]; [|by eapply IH].
  destruct (next _ relations_from) as [rel1|e1]; [|by simplify_eq].
  destruct (next _ relations_to_b) as [rel2|e2]; [|by simplify_eq].
  destruct (with_db _ false _) as [[b|e] f2] eqn:Hsave;
    apply with_db_frame in Hsave as [o' ->]; [|by simplify_eq].
  by apply IH in H.
Qed.

Lemma scan_sources_spec node_name target_b relations_from relations_to_b :
  forall source_nodes n f o f',
    scan_sources W node_name target_b relations_from relations_to_b
      source_nodes n f = (o, f') ->
    let all := source_nodes ≫= fun source_c =>
                 triangles_of node_name target_b source_c relations_from
                   relations_to_b relations_from in
    api_client f' = api_client f /\
    exists new,
      triangles f' = triangles f ++ new /\ new `prefix_of` all /\
      forall n', o = Continue n' -> new = all /\ n' = (n + length new)%nat.
Proof.
  induction source_nodes as [|source_c rest IH]; intros n f o f' H;
    simpl in H.
  { simplify_eq. split; [done|]. exists []. rewrite app_nil_r.
    split; [done|]. split; [done|]. intros ? [= <-]. split; [done|simpl; lia]. }
  rewrite bind_cons.
  destruct (cap_reached f n).
  { simplify_eq. split; [done|]. exists []. rewrite app_nil_r.
    split; [done|]. split; [apply prefix_nil|done]. }
  pose proof (close_triangles_spec W node_name target_b source_c
                relations_from relations_to_b relations_from n f) as Hspec.
  destruct (close_triangles W _ _ _ _ _ _ n f) as [o1 f1] eqn:Hclose.
  apply close_triangles_api in Hclose. simpl in Hspec.
  destruct o1 as [n1|v|e]; [|done|].
  - destruct Hspec as [Ht1 ->].
    apply IH in H as (Hapi & new & Ht & Hprefix & Hall).
    split; [congruence|]. eexists. rewrite Ht, Ht1, <- app_assoc.
    split; [done|]. split; [by apply prefix_app|].
    intros n' Ho. destruct (Hall n' Ho) as [-> ->].
    split; [done|]. rewrite length_app. lia.
  - destruct Hspec as [k Ht1]. simplify_eq. split; [done|].
    eexists. split; [exact Ht1|]. split; [|done].
    apply prefix_app_r, prefix_take.
Qed.

Lemma get_relations_to_incoming word c r c' :
  get_relations_to W word c = (r, c') ->
  (forall l, r = Ok l -> incoming c' word = l) /\
  (forall word', word' <> word -> incoming c' word' = incoming c word').
Proof.
  unfold incoming. intros H. apply get_relations_to_cases in H
    as [(l & Hc & -> & ->)|(Hc & _ & _ & Hout)].
  { split; [|done]. intros ? [= <-]. by rewrite Hc. }
  destruct Hout as [[-> [[-> _]|[e ->]]]|(l & ? & ? & _ & -> & _ & ->)].
  - split; [|done]. intros ? [= <-]. by rewrite Hc.
  - by split.
  - split.
    + intros ? [= <-]. by rewrite lookup_insert_eq.
    + intros word' Hne. by rewrite lookup_insert_ne.
Qed.

Lemma scan_targets_spec node_name relations_from :
  set_semantics W ->
  forall target_nodes n f o f',
    NoDup target_nodes ->
    scan_targets W node_name relations_from target_nodes n f = (o, f') ->
    (forall b, b ∉ target_nodes ->
       incoming (api_client f') b = incoming (api_client f) b) /\
    exists new,
      triangles f' = triangles f ++ new /\
      new `prefix_of`
        motifs W node_name relations_from (api_client f') target_nodes /\
      forall n', o = Continue n' ->
        new = motifs W node_name relations_from (api_client f') target_nodes
        /\ n' = (n + length new)%nat.
Proof.
  intros Hset. unfold motifs.
  induction target_nodes as [|target_b rest IH]; intros n f o f' Hnodup H;
    simpl in H.
  { simplify_eq. split; [done|]. exists []. rewrite app_nil_r.
    split; [done|]. split; [done|]. intros ? [= <-]. split; [done|simpl; lia]. }
  apply NoDup_cons in Hnodup as [Hfresh Hnodup]. rewrite bind_cons.
  destruct (cap_reached f n).
  { simplify_eq. split; [done|]. exists []. rewrite app_nil_r.
    split; [done|]. split; [apply prefix_nil|done]. }
  destruct (get_relations_to W target_b (api_client f)) as [r c] eqn:Hto.
  apply get_relations_to_incoming in Hto as [Hhere Hother].
  destruct r as [relations_to_b|e].
  2:{ simplify_eq. split.
      - intros b Hb. apply Hother. intros ->. apply Hb. by left.
      - exists []. rewrite app_nil_r.
        split; [done|]. split; [apply prefix_nil|done]. }
  specialize (Hhere _ eq_refl).
  assert (Hstep : forall o1 f1,
    scan_sources W node_name target_b relations_from relations_to_b
      (sources_of W node_name relations_to_b) n (set_api_client c f)
      = (o1, f1) ->
    match o1 with
    | Continue n1 =>
        scan_targets W node_name relations_from rest n1 f1 = (o, f')
    | _ => (o, f') = (o1, f1)
    end ->
    (forall b, b ∉ target_b :: rest ->
       incoming (api_client f') b = incoming (api_client f) b) /\
    exists new,
      triangles f' = triangles f ++ new /\
      new `prefix_of`
        triangles_through W node_name relations_from
          (incoming (api_client f') target_b) target_b ++
        (rest ≫= fun b =>
           triangles_through W node_name relations_from
             (incoming (api_client f') b) b) /\
      forall n', o = Continue n' ->
        new = triangles_through W node_name relations_from
                (incoming (api_client f') target_b) target_b ++
              (rest ≫= fun b =>
                 triangles_through W node_name relations_from
                   (incoming (api_client f') b) b)
        /\ n' = (n + length new)%nat).
  { intros o1 f1 Hscan Hrest.
    apply scan_sources_spec in Hscan as (Hapi1 & new1 & Ht1 & Hprefix1 & Hall1).
    simpl in Hapi1, Ht1.
    destruct o1 as [n1|v|e].
    - apply IH in Hrest as (Hframe & new2 & Ht2 & Hprefix2 & Hall2); [|done].
      destruct (Hall1 n1 eq_refl) as [-> ->].
      assert (Hb : incoming (api_client f') target_b = relations_to_b).
      { rewrite (Hframe _ Hfresh). by rewrite Hapi1. }
      split.
      { intros b Hb'. rewrite Hframe, Hapi1.
        - apply Hother. intros ->. apply Hb'. by left.
        - intros ?. apply Hb'. by right. }
      rewrite Hb. eexists. rewrite Ht2, Ht1, <- app_assoc.
      split; [done|]. split; [by apply prefix_app|].
      intros n' Ho. destruct (Hall2 n' Ho) as [-> ->].
      split; [done|]. rewrite length_app. lia.
    - injection Hrest as -> ->. split.
      { intros b Hb'. rewrite Hapi1. apply Hother. intros ->.
        apply Hb'. by left. }
      rewrite Hapi1, Hhere.
      exists new1. split; [done|]. split; [by apply prefix_app_r|done].
    - injection Hrest as -> ->. split.
      { intros b Hb'. rewrite Hapi1. apply Hother. intros ->.
        apply Hb'. by left. }
      rewrite Hapi1, Hhere.
      exists new1. split; [done|]. split; [by apply prefix_app_r|done]. }
  destruct relations_to_b as [|rel relations_to_b].
  - (* nothing comes into the target: the set of sources is empty *)
    apply (Hstep (Continue n) (set_api_client c f)); [|exact H].
    assert (Hempty : sources_of W node_name [] = []).
    { unfold sources_of. simpl.
      destruct (set_order W []) as [|x l] eqn:Horder; [done|].
      assert (Hx : x ∈ set_order W []) by (rewrite Horder; by left).
      apply (proj1 (proj2 (Hset _) _)) in Hx. inversion Hx. }
    rewrite Hempty. reflexivity.
  - set (X := scan_sources W node_name target_b relations_from
                (rel :: relations_to_b)
                (sources_of W node_name (rel :: relations_to_b)) n
                (set_api_client c f)).
    apply (Hstep (fst X) (snd X)); [apply surjective_pairing|].
    subst X. unfold sources_of. clear Hstep.
    destruct (scan_sources W _ _ _ _ _ n _) as [[n1|v|e] f1]; simpl; done.
Qed.

(** X19.  When the enumeration of a seed examines all its targets, it appends
    exactly the triangles [motifs]: for each target B of the seed, once,
    and each source C of B other than the seed, once, one triangle for
    each relation of the seed to C. *)
Lemma enumeration_complete node_name f n f' :
  set_semantics W ->
  find_triangles_try W node_name f = (Continue n, f') ->
  exists relations_from,
    relations_cache (api_client f') !! node_name = Some relations_from /\
    let all := motifs W node_name relations_from (api_client f')
                 (set_order W (rel_target <$> relations_from)) in
    triangles f' = triangles f ++ all /\ n = length all.
Proof.
  intros Hset H. pose proof H as Hext.
  unfold find_triangles_try in H.
  destruct (get_relations_from W node_name (api_client f)) as [r c] eqn:Hfrom.
  destruct r as [[|rel relations_from]|e]; try done.
  assert (Hc : relations_cache c !! node_name = Some (rel :: relations_from)).
  { apply get_relations_from_cases in Hfrom
      as [(l & Hc & ? & ->)|(_ & _ & _ & Hout)]; [by simplify_eq|].
    destruct Hout as [[_ [[? _]|[e ?]]]|(l & ? & ? & _ & ? & _ & Hc)];
      simplify_eq. rewrite Hc. apply lookup_insert_eq. }
  exists (rel :: relations_from). split.
  { pose proof H as Hext'. apply scan_targets_extends in Hext'; [|exact Hc].
    eapply lookup_weaken; [exact Hc|]. apply Hext'. }
  apply scan_targets_spec in H as (_ & new & Ht & _ & Hall);
    [|done|apply Hset].
  destruct (Hall n eq_refl) as [-> ->]. by split.
Qed.

Lemma filter_all {X : Type} (P : X -> Prop) `{!forall x, Decision (P x)}
    (l : list X) :
  Forall P l -> filter P l = l.
Proof.
  induction 1 as [|x l Hx _ IH]; [done|].
  by rewrite filter_cons, decide_True, IH.
Qed.

Lemma filter_none {X : Type} (P : X -> Prop) `{!forall x, Decision (P x)}
    (l : list X) :
  Forall (fun x => ~ P x) l -> filter P l = [].
Proof.
  induction 1 as [|x l Hx _ IH]; [done|].
  by rewrite filter_cons, decide_False, IH.
Qed.

(** In a concatenation indexed by distinct keys, the elements of one key
    are those of its index. *)
Lemma filter_bind_key {K X : Type} `{EqDecision K} (key : X -> K)
    (g : K -> list X) (l : list K) (k0 : K) :
  (forall k x, x ∈ g k -> key x = k) -> NoDup l ->
  filter (fun x => key x = k0) (l ≫= g) = if decide (k0 ∈ l) then g k0 else [].
Proof.
  intros Hkey. induction 1 as [|k l Hk Hl IH]; [done|].
  rewrite bind_cons, filter_app, IH.
  destruct (decide (k = k0)) as [->|Hne].
  - destruct (decide (k0 ∈ l)) as [?|_]; [done|].
    destruct (decide (k0 ∈ k0 :: l)) as [_|Hn]; [|destruct Hn; by left].
    rewrite app_nil_r. apply filter_all, Forall_forall. intros x. apply Hkey.
  - rewrite filter_none.
    2:{ apply Forall_forall. intros x Hx ?. apply Hne.
        by rewrite <- (Hkey _ _ Hx). }
    destruct (decide (k0 ∈ l)) as [Hin|Hnin];
      destruct (decide (k0 ∈ k :: l)) as [Hin'|Hnin']; try done.
    + destruct Hnin'. by right.
    + apply elem_of_cons in Hin' as [?|?]; [by destruct Hne|by destruct Hnin].
Qed.

Lemma triangles_of_nodes node_name target_b source_c
    relations_from relations_to_b todo t :
  t ∈ triangles_of node_name target_b source_c relations_from relations_to_b
        todo ->
  A t = node_name /\ B t = target_b /\ C t = source_c.
Proof.
  unfold triangles_of.
  destruct (next _ relations_from) as [rel1|]; [|by intros ?%elem_of_nil].
  destruct (next _ relations_to_b) as [rel2|]; [|by intros ?%elem_of_nil].
  by intros (rel3 & -> & _)%list_elem_of_fmap.
Qed.

(** The triangles of [motifs] for one target B and one source C: the
    triangles of the matching step for this pair, once. *)
Lemma motifs_of_pair node_name relations_from (c : JDMAPIClient)
    (target_nodes : list string) (target_b source_c : string) :
  set_semantics W -> NoDup target_nodes ->
  filter (fun t => C t = source_c)
    (filter (fun t => B t = target_b)
       (motifs W node_name relations_from c target_nodes))
  = if decide (target_b ∈ target_nodes /\
               source_c ∈ sources_of W node_name (incoming c target_b))
    then triangles_of node_name target_b source_c relations_from
           (incoming c target_b) relations_from
    else [].
Proof.
  intros Hset Hnodup. unfold motifs.
  rewrite (filter_bind_key B); [|clear|done].
  2:{ intros b t (s & Ht & _)%list_elem_of_bind.
      by apply triangles_of_nodes in Ht as (_ & ? & _). }
  destruct (decide (target_b ∈ target_nodes)) as [Hb|Hb].
  2:{ destruct (decide (_ /\ _)) as [[? _]|_]; done. }
  unfold triangles_through. rewrite (filter_bind_key C).
  - destruct (decide (source_c ∈ _)) as [Hc|Hc];
      destruct (decide (_ /\ _)) as [[_ Hc']|Hn]; try done.
    destruct Hn. by split.
  - intros s t Ht. by apply triangles_of_nodes in Ht as (_ & _ & ?).
  - apply Hset.
Qed.

End Completeness.

(** C3 as stated fails: the seed has two relations to "chien", of the types
    5 and 7, and the triple (chat, animal, chien) gives two triangles. *)
Lemma two_triangles_for_one_triple :
  fst (find_triangles parallel_world (PyDict chat)
         (new_finder new_client 0%Q None None))
  = Ok [Triangle "chat" "animal" "chien" 6 6 5 1%Q 1%Q 1%Q;
        Triangle "chat" "animal" "chien" 6 6 7 1%Q 1%Q (-1 # 2)%Q].
Proof. vm_compute. reflexivity. Qed.

(** ** The cap and the status of the node *)

Section Cap.
Context (W : World).

Lemma nothing_appended (S : statement -> Prop) f f' :
  extends (fun _ => False) S f f' ->
  triangles f' = triangles f /\
  max_triangles_per_node f' = max_triangles_per_node f.
Proof.
  intros H. split; [|apply H].
  destruct (ext_triangles _ _ _ _ H) as ([|t new] & -> & Hnew).
  - by rewrite app_nil_r.
  - by apply Forall_cons in Hnew as [[] _].
Qed.

Lemma close_triangles_count node_name target_b source_c
    relations_from relations_to_b (m n : nat) f o f' :
  multiplicity relations_from m ->
  close_triangles W node_name target_b source_c relations_from
    relations_to_b relations_from n f = (o, f') ->
  exists new,
    triangles f' = triangles f ++ new /\ (length new <= m)%nat /\
    max_triangles_per_node f' = max_triangles_per_node f /\
    forall n', o = Continue n' -> n' = (n + length new)%nat.
Proof.
  intros Hm H.
  pose proof (close_triangles_spec W node_name target_b source_c
                relations_from relations_to_b relations_from n f) as Hspec.
  pose proof H as Hext.
  apply close_triangles_extends in Hext as [Hext _]; [|done].
  rewrite H in Hspec. simpl in Hspec.
  assert (Hlen : (length (triangles_of node_name target_b source_c
                            relations_from relations_to_b relations_from)
                  <= m)%nat).
  { unfold triangles_of.
    destruct (next _ relations_from); [destruct (next _ relations_to_b)|];
      simpl; try lia.
    rewrite length_fmap. apply Hm. }
  destruct o as [n'|v|e]; [|done|].
  - destruct Hspec as [Ht ->]. eexists. split; [exact Ht|].
    split; [done|]. split; [apply Hext|]. by intros ? [= <-].
  - destruct Hspec as [k Ht]. eexists. split; [exact Ht|].
    split; [rewrite length_take; lia|]. split; [apply Hext|done].
Qed.

Lemma scan_sources_count node_name target_b relations_from relations_to_b
    (m : nat) (k : Z) :
  multiplicity relations_from m ->
  forall source_nodes n f o f',
    max_triangles_per_node f = Some k -> Z.of_nat n <= k - 1 + Z.of_nat m ->
    scan_sources W node_name target_b relations_from relations_to_b
      source_nodes n f = (o, f') ->
    exists new,
      triangles f' = triangles f ++ new /\
      Z.of_nat (n + length new) <= k - 1 + Z.of_nat m /\
      max_triangles_per_node f' = Some k /\
      forall n', o = Continue n' -> n' = (n + length new)%nat.
Proof.
  intros Hm. induction source_nodes as [|source_c rest IH];
    intros n f o f' Hcap Hn H; simpl in H.
  { simplify_eq. exists []. rewrite app_nil_r, Nat.add_0_r.
    repeat split; try done. by intros ? [= <-]. }
  unfold cap_reached in H. rewrite Hcap in H. case_bool_decide as Hk.
  { simplify_eq. exists []. rewrite app_nil_r, Nat.add_0_r.
    repeat split; done. }
  destruct (close_triangles W _ _ _ _ _ _ n f) as [o1 f1] eqn:Hclose.
  eapply close_triangles_count in Hclose
    as (new1 & Ht1 & Hlen1 & Hcap1 & Hn1); [|exact Hm].
  rewrite Hcap in Hcap1.
  destruct o1 as [n1|v|e].
  - rewrite (Hn1 n1 eq_refl) in H.
    apply IH in H as (new2 & Ht2 & Hlen2 & Hcap2 & Hn2); [|done|lia].
    exists (new1 ++ new2). rewrite Ht2, Ht1, <- app_assoc, length_app.
    repeat split; try done; [lia|].
    intros n' Ho. rewrite (Hn2 n' Ho). lia.
  - simplify_eq. exists new1. repeat split; try done. lia.
  - simplify_eq. exists new1. repeat split; try done. lia.
Qed.

Lemma scan_targets_count node_name relations_from (m : nat) (k : Z) :
  multiplicity relations_from m ->
  forall target_nodes n f o f',
    max_triangles_per_node f = Some k -> Z.of_nat n <= k - 1 + Z.of_nat m ->
    scan_targets W node_name relations_from target_nodes n f = (o, f') ->
    exists new,
      triangles f' = triangles f ++ new /\
      Z.of_nat (n + length new) <= k - 1 + Z.of_nat m /\
      max_triangles_per_node f' = Some k /\
      forall n', o = Continue n' -> n' = (n + length new)%nat.
Proof.
  intros Hm. induction target_nodes as [|target_b rest IH];
    intros n f o f' Hcap Hn H; simpl in H.
  { simplify_eq. exists []. rewrite app_nil_r, Nat.add_0_r.
    repeat split; try done. by intros ? [= <-]. }
  unfold cap_reached in H. rewrite Hcap in H. case_bool_decide as Hk.
  { simplify_eq. exists []. rewrite app_nil_r, Nat.add_0_r.
    repeat split; done. }
  destruct (get_relations_to W target_b (api_client f))
    as [[[|rel relations_to_b]|e] c].
  - by apply IH in H.
  - destruct (scan_sources W _ _ _ _ _ n _) as [o1 f1] eqn:Hscan.
    eapply scan_sources_count in Hscan
      as (new1 & Ht1 & Hlen1 & Hcap1 & Hn1); [|exact Hm|exact Hcap|exact Hn].
    simpl in Ht1. destruct o1 as [n1|v|e].
    + rewrite (Hn1 n1 eq_refl) in H.
      apply IH in H as (new2 & Ht2 & Hlen2 & Hcap2 & Hn2); [|done|lia].
      exists (new1 ++ new2). rewrite Ht2, Ht1, <- app_assoc, length_app.
      repeat split; try done; [lia|].
      intros n' Ho. rewrite (Hn2 n' Ho). lia.
    + simplify_eq. exists new1. repeat split; done.
    + simplify_eq. exists new1. repeat split; done.
  - simplify_eq. exists []. rewrite app_nil_r, Nat.add_0_r.
    repeat split; done.
Qed.

(** X18.  What the cap does guarantee: when no [m + 1] relations of the seed go
    to one node, a seed contributes at most [k - 1 + m] triangles; this is
    [k] when the seed has at most one relation to each node. *)
Lemma cap_bound (start_node : pyobject) (f f' : TriangleFinder)
    (r : result (list triangle)) (k : Z) (m : nat) :
  max_triangles_per_node f = Some k -> 0 < k -> (1 <= m)%nat ->
  (forall node_name relations_from,
     relations_cache (api_client f') !! node_name = Some relations_from ->
     multiplicity relations_from m) ->
  find_triangles W start_node f = (r, f') ->
  exists new, triangles f' = triangles f ++ new /\
              Z.of_nat (length new) <= k - 1 + Z.of_nat m.
Proof.
  intros Hcap Hk Hm Hmult H. unfold find_triangles in H.
  assert (Hnone : forall f0, triangles f0 = triangles f ->
    exists new, triangles f0 = triangles f ++ new /\
                Z.of_nat (length new) <= k - 1 + Z.of_nat m).
  { intros f0 ->. exists []. rewrite app_nil_r. split; [done|simpl; lia]. }
  destruct (enter_node W start_node f) as [r0 f0] eqn:Henter.
  apply (enter_node_extends W (fun _ => False)) in Henter.
  apply nothing_appended in Henter as [Ht0 Hcap0]. rewrite Hcap in Hcap0.
  destruct r0 as [[name|]|e]; try (simplify_eq; by apply Hnone).
  destruct (find_triangles_try W name f0) as [o f1] eqn:Htry.
  assert (Hsame : api_client f' = api_client f1 /\
                  triangles f' = triangles f1).
  { destruct o as [n|v|e]; [|by simplify_eq..].
    destruct (with_db (mark_node_processed W name) tt f1)
      as [r2 f2] eqn:Hmark.
    apply with_db_frame in Hmark as [o' ->]. by destruct r2; simplify_eq. }
  destruct Hsame as [Hapi Htri]. rewrite Htri. clear H Htri.
  unfold find_triangles_try in Htry.
  destruct (get_relations_from W name (api_client f0)) as [r1 c] eqn:Hfrom.
  destruct r1 as [[|rel relations_from]|e];
    try (simplify_eq; by apply Hnone).
  assert (Hc : relations_cache c !! name = Some (rel :: relations_from)).
  { apply get_relations_from_cases in Hfrom
      as [(l & Hc & ? & ->)|(_ & _ & _ & Hout)]; [by simplify_eq|].
    destruct Hout as [[_ [[? _]|[e ?]]]|(l & ? & ? & _ & ? & _ & Hc)];
      simplify_eq. rewrite Hc. apply lookup_insert_eq. }
  assert (Hc1 : relations_cache (api_client f1) !! name
                = Some (rel :: relations_from)).
  { pose proof Htry as Hext. apply scan_targets_extends in Hext; [|exact Hc].
    eapply lookup_weaken; [exact Hc|]. apply Hext. }
  rewrite <- Hapi in Hc1.
  eapply scan_targets_count in Htry
    as (new & Ht & Hlen & _ & _);
    [|exact (Hmult _ _ Hc1)|exact Hcap0|simpl; lia].
  exists new. simpl in Ht, Hlen. by rewrite Ht, Ht0.
Qed.

(** X20.  The status of the node in the store is in progress once the
    guards are passed. *)
Lemma in_progress_after_guards start_node f name f0 d0 :
  enter_node W start_node f = (Ok (Some name), f0) ->
  db f0 = Some d0 ->
  processed_nodes_table d0 !! name = Some in_progress.
Proof.
  unfold enter_node. intros H Hd0.
  destruct start_node as [n|]; [|done].
  destruct (node_name n) as [name'|]; [|done].
  destruct (decide (name' = "")); [done|].
  destruct (with_db (is_node_processed W name') false f) as [[[|]|e] f1];
    try done.
  destruct (decide (name' ∈ processed_nodes f1)); [done|].
  unfold with_db, mark_node_in_progress, execute, insert_or_replace in H.
  simpl in H. destruct (db f1) as [d1|] eqn:Hd1.
  - destruct (db_fault W (length (journal d1))); simplify_eq.
    simpl in Hd0. simplify_eq. simpl. apply lookup_insert_eq.
  - simplify_eq. simpl in Hd0. congruence.
Qed.

(** X21.  The status of the node is completed once all its targets were
    examined and SQLite accepts the statement; [find_triangles] then
    returns the whole list. *)
Lemma completed_after_all_targets start_node f name f0 n f1 d1 :
  enter_node W start_node f = (Ok (Some name), f0) ->
  find_triangles_try W name f0 = (Continue n, f1) ->
  db f1 = Some d1 -> db_fault W (length (journal d1)) = None ->
  exists f' d',
    find_triangles W start_node f = (Ok (triangles f'), f') /\
    db f' = Some d' /\
    processed_nodes_table d' !! name = Some completed.
Proof.
  intros Henter Htry Hd1 Hfault. unfold find_triangles.
  rewrite Henter, Htry.
  unfold with_db, mark_node_processed, execute, insert_or_replace.
  rewrite Hd1, Hfault.
  set (d' := {| journal := journal d1 ++ [MarkNodeProcessed name];
                processed_nodes_table :=
                  <[name := completed]> (processed_nodes_table d1);
                triangles_table := triangles_table d1 |}).
  exists (set_db (Some d') f1), d'.
  split; [reflexivity|]. split; [reflexivity|]. apply lookup_insert_eq.
Qed.

End Cap.

(** C1 fails on the code: with the cap 1, the seed "chat" contributes two
    triangles, in whichever order the set of its targets is iterated.  The
    cap is tested before each target and before each source, not inside
    the loop over [rel3]. *)
Lemma cap_exceeded :
  let f := new_finder new_client 0%Q (Some 1) None in
  (let '(r, f') := find_triangles parallel_world (PyDict chat) f in
   max_triangles_per_node f' = Some 1 /\
   length (triangles f') = 2%nat /\
   r = Ok (triangles f') /\
   Forall (fun t => A t = "chat") (triangles f')) /\
  (let '(r, f') := find_triangles (reversed parallel_world) (PyDict chat) f in
   max_triangles_per_node f' = Some 1 /\
   length (triangles f') = 2%nat /\
   r = Ok (triangles f') /\
   Forall (fun t => A t = "chat") (triangles f')).
Proof. vm_compute. repeat split; repeat constructor. Qed.

(** C2 fails on the code.  When the cap stops the enumeration with a target
    left, in whichever order the targets are iterated, and when the seed
    has no outgoing relation, [find_triangles] returns before
    [mark_node_processed]: the node stays in progress in the store, and
    [is_node_processed] will answer [False]. *)
Lemma early_return_leaves_in_progress :
  (let f := new_finder new_client 0%Q (Some 1) (Some empty_database) in
   let '(r, f') := find_triangles mutual_world (PyDict chat) f in
   length (triangles f') = 1%nat /\ r = Ok (triangles f') /\
   ((fun d => processed_nodes_table d !! "chat") <$> db f')
     = Some (Some in_progress) /\
   ((fun d => fst (is_node_processed mutual_world "chat" d)) <$> db f')
     = Some (Ok false)) /\
  (let f := new_finder new_client 0%Q (Some 1) (Some empty_database) in
   let '(r, f') := find_triangles (reversed mutual_world) (PyDict chat) f in
   length (triangles f') = 1%nat /\ r = Ok (triangles f') /\
   ((fun d => processed_nodes_table d !! "chat") <$> db f')
     = Some (Some in_progress) /\
   ((fun d => fst (is_node_processed mutual_world "chat" d)) <$> db f')
     = Some (Ok false)) /\
  (let f := new_finder new_client 0%Q None (Some empty_database) in
   let '(r, f') := find_triangles lonely_world (PyDict chat) f in
   r = Ok [] /\
   relations_cache (api_client f') !! "chat" = Some [] /\
   ((fun d => processed_nodes_table d !! "chat") <$> db f')
     = Some (Some in_progress) /\
   ((fun d => fst (is_node_processed lonely_world "chat" d)) <$> db f')
     = Some (Ok false)).
Proof. vm_compute. repeat split; reflexivity. Qed.

(** * Further properties *)

(** ** The steps of a run *)

(** A relation between finders that is reflexive and transitive, and that
    every step of a run satisfies, holds between the finder before and
    the finder after [find_triangles] and [find_all_triangles].  The
    steps are: a call of an accessor of the client, the recording of a
    triangle, the guards, the final status statement, and the fetch of
    the seeds. *)

Section Closure.
Context (W : World) (R : TriangleFinder -> TriangleFinder -> Prop).
Hypothesis R_refl : forall f, R f f.
Hypothesis R_trans : forall f g h, R f g -> R g h -> R f h.
Hypothesis R_from : forall word f,
  R f (set_api_client (snd (get_relations_from W word (api_client f))) f).
Hypothesis R_to : forall word f,
  R f (set_api_client (snd (get_relations_to W word (api_client f))) f).
Hypothesis R_record : forall t f, R f (snd (record_triangle W t f)).
Hypothesis R_enter : forall start_node f, R f (snd (enter_node W start_node f)).
Hypothesis R_done : forall name f,
  R f (snd (with_db (mark_node_processed W name) tt f)).
Hypothesis R_seeds : forall f,
  R f (set_api_client (snd (get_all_nodes W (api_client f))) f).

Lemma close_triangles_cons node_name target_b source_c
    relations_from relations_to_b rel3 rest n f :
  close_triangles W node_name target_b source_c relations_from
    relations_to_b (rel3 :: rest) n f
  = if decide (rel_target rel3 = source_c) then
      match next (fun r => rel_target r = target_b) relations_from with
      | Raise e => (Raised e, f)
      | Ok rel1 =>
        match next (fun r => rel_source r = source_c) relations_to_b with
        | Raise e => (Raised e, f)
        | Ok rel2 =>
          match record_triangle W
                  (make_triangle node_name target_b source_c rel1 rel2 rel3)
                  f with
          | (Raise e, f2) => (Raised e, f2)
          | (Ok _, f3) =>
              close_triangles W node_name target_b source_c relations_from
                relations_to_b rest (S n) f3
          end
        end
      end
    else
      close_triangles W node_name target_b source_c relations_from
        relations_to_b rest n f.
Proof.
  simpl. destruct (decide (rel_target rel3 = source_c)) as [_|_]; [|done].
  destruct (next _ relations_from) as [rel1|e1]; [|done].
  destruct (next _ relations_to_b) as [rel2|e2]; [|done].
  unfold record_triangle.
  by destruct (with_db _ false _) as [[b|e] f2].
Qed.

Lemma close_triangles_closure node_name target_b source_c
    relations_from relations_to_b :
  forall todo n f,
    R f (snd (close_triangles W node_name target_b source_c relations_from
                relations_to_b todo n f)).
Proof using R_refl R_trans R_record.
  induction todo as [|rel3 rest IH]; intros n f; [apply R_refl|].
  rewrite close_triangles_cons.
  destruct (decide (rel_target rel3 = source_c)) as [_|_]; [|apply IH].
  destruct (next _ relations_from) as [rel1|e1]; [|apply R_refl].
  destruct (next _ relations_to_b) as [rel2|e2]; [|apply R_refl].
  pose proof (R_record (make_triangle node_name target_b source_c
                          rel1 rel2 rel3) f) as Hstep.
  destruct (record_triangle W _ f) as [[u|e] f2]; [|exact Hstep].
  eapply R_trans; [exact Hstep|apply IH].
Qed.

Lemma scan_sources_closure node_name target_b relations_from
    relations_to_b :
  forall source_nodes n f,
    R f (snd (scan_sources W node_name target_b relations_from
                relations_to_b source_nodes n f)).
Proof using R_refl R_trans R_record.
  induction source_nodes as [|source_c rest IH]; intros n f; simpl;
    [apply R_refl|].
  destruct (cap_reached f n); [apply R_refl|].
  pose proof (close_triangles_closure node_name target_b source_c
                relations_from relations_to_b relations_from n f) as Hstep.
  destruct (close_triangles W _ _ _ _ _ _ n f) as [[n1|v|e] f1];
    [|exact Hstep|exact Hstep].
  eapply R_trans; [exact Hstep|apply IH].
Qed.

Lemma scan_targets_closure node_name relations_from :
  forall target_nodes n f,
    R f (snd (scan_targets W node_name relations_from target_nodes n f)).
Proof using R_refl R_trans R_record R_to.
  induction target_nodes as [|target_b rest IH]; intros n f; simpl;
    [apply R_refl|].
  destruct (cap_reached f n); [apply R_refl|].
  pose proof (R_to target_b f) as Hto.
  destruct (get_relations_to W target_b (api_client f))
    as [[[|rel relations_to_b]|e] c]; simpl in Hto; [| |exact Hto].
  { eapply R_trans; [exact Hto|apply IH]. }
  pose proof (scan_sources_closure node_name target_b relations_from
                (rel :: relations_to_b)
                (set_order W
                   (rel_source <$>
                      filter (fun rel => rel_source rel <> node_name)
                        (rel :: relations_to_b)))
                n (set_api_client c f)) as Hstep.
  destruct (scan_sources W _ _ _ _ _ n _) as [[n1|v|e] f1];
    simpl in Hstep; [|by eapply R_trans|by eapply R_trans].
  eapply R_trans; [exact Hto|]. eapply R_trans; [exact Hstep|apply IH].
Qed.

Lemma find_triangles_try_closure node_name f :
  R f (snd (find_triangles_try W node_name f)).
Proof using R_refl R_trans R_record R_to R_from.
  unfold find_triangles_try. pose proof (R_from node_name f) as Hfrom.
  destruct (get_relations_from W node_name (api_client f))
    as [[[|rel relations_from]|e] c]; simpl in Hfrom; try exact Hfrom.
  eapply R_trans; [exact Hfrom|apply scan_targets_closure].
Qed.

Lemma find_triangles_closure start_node f :
  R f (snd (find_triangles W start_node f)).
Proof using R_refl R_trans R_record R_to R_from R_enter R_done.
  unfold find_triangles. pose proof (R_enter start_node f) as Henter.
  destruct (enter_node W start_node f) as [[[name|]|e] f0]; simpl in Henter;
    try exact Henter.
  pose proof (find_triangles_try_closure name f0) as Htry.
  destruct (find_triangles_try W name f0) as [[n|v|e] f1]; simpl in Htry;
    try by eapply R_trans.
  pose proof (R_done name f1) as Hdone.
  destruct (with_db (mark_node_processed W name) tt f1) as [[u|e] f2];
    simpl in Hdone; (eapply R_trans; [exact Henter|]); by eapply R_trans.
Qed.

Lemma for_each_node_closure (nodes : list node) :
  forall f, R f (snd (for_each_node W nodes f)).
Proof using R_refl R_trans R_record R_to R_from R_enter R_done.
  induction nodes as [|n rest IH]; intros f; simpl; [apply R_refl|].
  pose proof (find_triangles_closure (PyDict n) f) as Hstep.
  destruct (find_triangles W (PyDict n) f) as [[v|e] f1]; simpl in Hstep;
    [|exact Hstep].
  eapply R_trans; [exact Hstep|apply IH].
Qed.

Lemma find_all_triangles_closure f :
  R f (snd (find_all_triangles W f)).
Proof using All.
  rewrite find_all_triangles_unfold. pose proof (R_seeds f) as Hseeds.
  destruct (get_all_nodes W (api_client f)) as [[[|n nodes]|e] c];
    simpl in Hseeds; try exact Hseeds.
  pose proof (for_each_node_closure (n :: nodes) (set_api_client c f))
    as Hloop.
  destruct (for_each_node W (n :: nodes) (set_api_client c f))
    as [[u|e] f1]; simpl in Hloop; by eapply R_trans.
Qed.

End Closure.

(** ** Nodes fetched by id *)

Section NodeRequests.
Context (W : World).

(** X1.  [get_node_info] memoizes its answer, a node or a failure: a
    second call for the same id returns the same answer and leaves the
    client as it is, so it sends nothing; one call sends at most one
    request. *)
Theorem get_node_info_memoized (id : Z) (c : JDMAPIClient) :
  let '(n, c1) := get_node_info W id c in
  get_node_info W id c1 = (n, c1) /\
  (fetches (NodeById id) c1 <= S (fetches (NodeById id) c))%nat.
Proof.
  unfold get_node_info.
  destruct (node_cache c !! id) as [n|] eqn:Hcache.
  { rewrite Hcache. split; [done|lia]. }
  destruct (decide (id ∈ failed_nodes c)) as [Hfailed|Hfailed].
  { rewrite Hcache, decide_True by done. split; [done|lia]. }
  assert (Hcount : (fetches (NodeById id) (send (NodeById id) c)
                    <= S (fetches (NodeById id) c))%nat).
  { unfold fetches. simpl. rewrite filter_app, length_app, filter_cons.
    rewrite decide_True by done. simpl. lia. }
  destruct (node_by_id W (length (session c)) id) as [node_info|]; simpl.
  - rewrite lookup_insert_eq. done.
  - rewrite Hcache, decide_True by set_solver. done.
Qed.

Lemma node_requests_send r c :
  node_requests (send r c)
  = node_requests c ++ match r with NodeById id => [id] | _ => [] end.
Proof.
  unfold node_requests. simpl. rewrite omap_app. by destruct r.
Qed.

Lemma get_node_info_recorded id c :
  requests_recorded c -> requests_recorded (snd (get_node_info W id c)).
Proof.
  intros [Hnodup Hrec]. unfold get_node_info.
  destruct (node_cache c !! id) as [n|] eqn:Hcache; [done|].
  destruct (decide (id ∈ failed_nodes c)) as [Hfailed|Hfailed]; [done|].
  assert (Hnew : id ∉ node_requests c).
  { intros Hin. destruct (Hrec _ Hin) as [[n Hn]|?]; [congruence|done]. }
  assert (Hnodup' : NoDup (node_requests c ++ [id])).
  { apply NoDup_app. split; [done|]. split; [|apply NoDup_singleton].
    intros x Hx ->%list_elem_of_singleton. done. }
  destruct (node_by_id W (length (session c)) id) as [node_info|]; simpl;
    (split; unfold node_requests; simpl; rewrite omap_app; simpl;
     [exact Hnodup'|]);
    intros i [Hi| ->%list_elem_of_singleton]%elem_of_app.
  - destruct (Hrec _ Hi) as [[n Hn]|?]; [left|by right].
    destruct (decide (i = id)) as [->|Hne]; [congruence|].
    rewrite lookup_insert_ne by done. eauto.
  - left. rewrite lookup_insert_eq. eauto.
  - destruct (Hrec _ Hi) as [?|?]; [by left|right; set_solver].
  - right. set_solver.
Qed.

Lemma resolve_node_recorded node_map id c :
  requests_recorded c ->
  requests_recorded (snd (resolve_node W node_map id c)).
Proof.
  intros H. unfold resolve_node.
  destruct (truthy (node_map !! id)); [done|].
  by apply get_node_info_recorded.
Qed.

Lemma process_relations_recorded node_map relations :
  forall acc c,
    requests_recorded c ->
    requests_recorded (snd (process_relations W node_map relations acc c)).
Proof.
  induction relations as [|rel rest IH]; intros acc c H; simpl; [done|].
  pose proof (resolve_node_recorded node_map (node1 rel) c H) as H1.
  destruct (resolve_node W node_map (node1 rel) c) as [sn c1]. simpl in H1.
  destruct (truthy sn) as [sn'|]; [|by apply IH].
  pose proof (resolve_node_recorded node_map (node2 rel) c1 H1) as H2.
  destruct (resolve_node W node_map (node2 rel) c1) as [tn c2]. simpl in H2.
  destruct (truthy tn) as [tn'|]; [|by apply IH].
  destruct (node_name sn') as [s|], (node_name tn') as [t|]; try done.
  destruct (float (raw_w rel)) as [w|e]; [by apply IH|done].
Qed.

Lemma requests_recorded_send r c :
  ~ is_node_request r -> requests_recorded c -> requests_recorded (send r c).
Proof.
  intros Hr [Hnodup Hrec]. unfold requests_recorded.
  rewrite node_requests_send. destruct r; simpl in Hr; try done;
    by rewrite app_nil_r.
Qed.

Lemma get_relations_from_recorded word c :
  requests_recorded c ->
  requests_recorded (snd (get_relations_from W word c)).
Proof.
  intros H. unfold get_relations_from.
  destruct (relations_cache c !! word); [done|].
  assert (H0 : requests_recorded (send (RelationsFrom word) c))
    by (apply requests_recorded_send; [by intros []|done]).
  destruct (net_relations_from W (length (session c)) word)
    as [[relations nodes|]|]; [|done|done].
  destruct (build_node_map nodes ∅) as [node_map|e]; [|done].
  pose proof (process_relations_recorded node_map
                (filter_relations relations) [] _ H0) as H1.
  by destruct (process_relations W node_map _ [] _) as [[l|e] c1].
Qed.

Lemma get_relations_to_recorded word c :
  requests_recorded c ->
  requests_recorded (snd (get_relations_to W word c)).
Proof.
  intros H. unfold get_relations_to.
  destruct (reverse_relations_cache c !! word); [done|].
  assert (H0 : requests_recorded (send (RelationsTo word) c))
    by (apply requests_recorded_send; [by intros []|done]).
  destruct (net_relations_to W (length (session c)) word)
    as [[relations nodes|]|]; [|done|done].
  destruct (build_node_map nodes ∅) as [node_map|e]; [|done].
  pose proof (process_relations_recorded node_map
                (filter_relations relations) [] _ H0) as H1.
  by destruct (process_relations W node_map _ [] _) as [[l|e] c1].
Qed.

Lemma fetch_nodes_recorded (words : list string) :
  forall nodes c,
    requests_recorded c ->
    requests_recorded (snd (fetch_nodes W words nodes c)).
Proof.
  induction words as [|word rest IH]; intros nodes c H; simpl; [done|].
  assert (H0 : requests_recorded (send (NodeByName word) c))
    by (apply requests_recorded_send; [by intros []|done]).
  destruct (node_by_name W (length (session c)) word) as [[n|]|];
    [|done|by apply IH].
  destruct (String.prefix "en:" (default "" (node_name n))); [by apply IH|].
  apply IH. destruct (node_id n) as [i|]; [|done].
  destruct H0 as [Hnodup Hrec]. split; [done|]. simpl.
  intros id Hid. destruct (Hrec _ Hid) as [[n' Hn']|?]; [left|by right].
  destruct (decide (id = i)) as [->|Hne].
  - rewrite lookup_insert_eq. eauto.
  - rewrite lookup_insert_ne by done. eauto.
Qed.

Lemma record_triangle_api t f :
  api_client (snd (record_triangle W t f)) = api_client f.
Proof.
  unfold record_triangle.
  destruct (with_db _ false _) as [[b|e] f2] eqn:Hsave;
    by apply with_db_frame in Hsave as [o ->].
Qed.

Lemma enter_node_api start_node f :
  api_client (snd (enter_node W start_node f)) = api_client f.
Proof.
  unfold enter_node. destruct start_node as [n|]; [|done].
  destruct (node_name n) as [name|]; [|done].
  destruct (decide (name = "")); [done|].
  destruct (with_db (is_node_processed W name) false f)
    as [[[|]|e] f0] eqn:Hcheck;
    apply with_db_frame in Hcheck as [o ->]; try done.
  destruct (decide (name ∈ _)); [done|].
  destruct (with_db (mark_node_in_progress W name) tt _)
    as [[u|e] f1] eqn:Hmark;
    by apply with_db_frame in Hmark as [o' ->].
Qed.

Lemma mark_node_processed_api name f :
  api_client (snd (with_db (mark_node_processed W name) tt f)) = api_client f.
Proof.
  destruct (with_db _ tt f) as [r f1] eqn:Hdone.
  by apply with_db_frame in Hdone as [o ->].
Qed.

(** A property of the client that its accessors preserve holds at the end
    of a run. *)
Lemma client_invariant (I : JDMAPIClient -> Prop) :
  (forall word c, I c -> I (snd (get_relations_from W word c))) ->
  (forall word c, I c -> I (snd (get_relations_to W word c))) ->
  (forall c, I c -> I (snd (get_all_nodes W c))) ->
  forall f, I (api_client f) ->
    I (api_client (snd (find_all_triangles W f))).
Proof.
  intros Hfrom Hto Hseeds.
  apply (find_all_triangles_closure W
           (fun f f' => I (api_client f) -> I (api_client f'))); auto.
  - intros word f. apply Hfrom.
  - intros word f. apply Hto.
  - intros t f. by rewrite record_triangle_api.
  - intros s f. by rewrite enter_node_api.
  - intros name f. by rewrite mark_node_processed_api.
  - intros f. apply Hseeds.
Qed.

(** X2.  During a run of [find_all_triangles] no node is requested twice
    by id, and every node that was requested is in the memo of the nodes
    or in the set of the failed nodes: the property holds after the run
    when it holds before, as it does for a new client. *)
Theorem node_ids_requested_once (f : TriangleFinder) :
  requests_recorded (api_client f) ->
  requests_recorded (api_client (snd (find_all_triangles W f))).
Proof.
  apply client_invariant.
  - apply get_relations_from_recorded.
  - apply get_relations_to_recorded.
  - intros c. apply fetch_nodes_recorded.
Qed.

End NodeRequests.

(** ** What the accessors return *)

Section Accessors.
Context (W : World).

Lemma process_relations_order node_map relations :
  forall acc c l c',
    process_relations W node_map relations acc c = (Ok l, c') ->
    exists new, l = acc ++ new /\
      sublist (signature <$> new) (raw_signature <$> relations).
Proof.
  induction relations as [|rel rest IH]; intros acc c l c' H; simpl in H.
  - simplify_eq. exists []. by rewrite app_nil_r.
  - destruct (resolve_node W node_map (node1 rel) c) as [sn c1].
    destruct (truthy sn) as [sn'|].
    2:{ apply IH in H as (new & -> & Hnew). exists new. split; [done|].
        rewrite fmap_cons. by apply sublist_cons. }
    destruct (resolve_node W node_map (node2 rel) c1) as [tn c2].
    destruct (truthy tn) as [tn'|].
    2:{ apply IH in H as (new & -> & Hnew). exists new. split; [done|].
        rewrite fmap_cons. by apply sublist_cons. }
    destruct (node_name sn') as [s|], (node_name tn') as [t|];
      try discriminate.
    destruct (float (raw_w rel)) as [w|e] eqn:Hw; [|discriminate].
    apply IH in H as (new & -> & Hnew).
    eexists (_ :: new). rewrite <- app_assoc. split; [reflexivity|].
    rewrite !fmap_cons. unfold signature at 1, raw_signature at 1. simpl.
    rewrite Hw. by apply sublist_skip.
Qed.

(** X3.  [get_relations_from] invents and reorders nothing: when it
    fetches and returns a list, the relations of the list carry, in
    order, the types and the weights, converted by [float], of some of
    the relations of the payload that have no excluded type; the list is
    empty when the fetch fails or the payload is malformed. *)
Theorem relations_in_payload_order word c l c' :
  relations_cache c !! word = None ->
  get_relations_from W word c = (Ok l, c') ->
  match net_relations_from W (length (session c)) word with
  | Some (Payload relations _) =>
      sublist (signature <$> l) (raw_signature <$> filter_relations relations)
  | _ => l = []
  end.
Proof.
  intros Hcache. unfold get_relations_from. rewrite Hcache.
  destruct (net_relations_from W (length (session c)) word)
    as [[relations nodes|]|]; [|by intros [= <- _]|by intros [= <- _]].
  destruct (build_node_map nodes ∅) as [node_map|e]; [|done].
  destruct (process_relations W node_map _ [] _) as [[l'|e] c1] eqn:Hp;
    [|done].
  intros [= <- _].
  by apply process_relations_order in Hp as (new & -> & Hnew).
Qed.

(** X4.  The same for [get_relations_to]. *)
Theorem incoming_relations_in_payload_order word c l c' :
  reverse_relations_cache c !! word = None ->
  get_relations_to W word c = (Ok l, c') ->
  match net_relations_to W (length (session c)) word with
  | Some (Payload relations _) =>
      sublist (signature <$> l) (raw_signature <$> filter_relations relations)
  | _ => l = []
  end.
Proof.
  intros Hcache. unfold get_relations_to. rewrite Hcache.
  destruct (net_relations_to W (length (session c)) word)
    as [[relations nodes|]|]; [|by intros [= <- _]|by intros [= <- _]].
  destruct (build_node_map nodes ∅) as [node_map|e]; [|done].
  destruct (process_relations W node_map _ [] _) as [[l'|e] c1] eqn:Hp;
    [|done].
  intros [= <- _].
  by apply process_relations_order in Hp as (new & -> & Hnew).
Qed.

Lemma resolve_node_listed node_map id c s :
  listed_name node_map id = Some s ->
  exists n, resolve_node W node_map id c = (Some n, c) /\
            truthy (Some n) = Some n /\ node_name n = Some s.
Proof.
  unfold listed_name, resolve_node. intros H.
  destruct (node_map !! id) as [[[i|] [s'|]]|]; simplify_eq/=;
    eexists; (split; [reflexivity|]); by split.
Qed.

Lemma process_relations_listed node_map relations :
  forall acc c,
    Forall (fun rel => is_Some (listed_name node_map (node1 rel)) /\
                       is_Some (listed_name node_map (node2 rel)) /\
                       exists w, float (raw_w rel) = Ok w)
      relations ->
    process_relations W node_map relations acc c
    = (Ok (acc ++ (named_relation node_map <$> relations)), c).
Proof.
  induction relations as [|rel rest IH]; intros acc c H; simpl.
  { by rewrite app_nil_r. }
  apply Forall_cons in H as [([s Hs] & [t Ht] & [w Hw]) Hrest].
  destruct (resolve_node_listed node_map (node1 rel) c s Hs)
    as (sn & -> & -> & Hsn).
  destruct (resolve_node_listed node_map (node2 rel) c t Ht)
    as (tn & -> & -> & Htn).
  rewrite Hsn, Htn, Hw, IH by done. rewrite <- app_assoc. simpl.
  unfold named_relation at 2, float_value. by rewrite Hs, Ht, Hw.
Qed.

(** X5.  When the payload lists, with their names, the two ends of all
    its relations that have no excluded type, and [float] converts the
    weights of these relations, [get_relations_from] returns one relation
    for each of them, in order, with these names, its type and the float
    of its weight; it sends its own request and no other, and memoizes
    the list. *)
Theorem listed_nodes_need_no_request word c relations nodes node_map :
  relations_cache c !! word = None ->
  net_relations_from W (length (session c)) word
    = Some (Payload relations nodes) ->
  build_node_map nodes ∅ = Ok node_map ->
  Forall (fun rel => is_Some (listed_name node_map (node1 rel)) /\
                     is_Some (listed_name node_map (node2 rel)) /\
                     exists w, float (raw_w rel) = Ok w)
    (filter_relations relations) ->
  let l := named_relation node_map <$> filter_relations relations in
  let c0 := send (RelationsFrom word) c in
  get_relations_from W word c
  = (Ok l, set_relations_cache (<[word := l]> (relations_cache c)) c0).
Proof.
  intros Hcache Hnet Hmap Hlisted. unfold get_relations_from.
  rewrite Hcache, Hnet, Hmap, process_relations_listed by done. done.
Qed.

Lemma build_node_map_raises (nodes : list node) :
  forall m,
    (exists n, n ∈ nodes /\ node_id n = None) ->
    build_node_map nodes m = Raise (KeyError "id").
Proof.
  induction nodes as [|n rest IH]; intros m (n0 & Hin & Hid).
  { by apply elem_of_nil in Hin. }
  simpl. destruct (node_id n) as [i|] eqn:Hn; [|done].
  apply IH. exists n0. split; [|done].
  apply elem_of_cons in Hin as [->|?]; [congruence|done].
Qed.

(** X6.  A payload that lists a node without the key ['id'] makes both
    accessors raise [KeyError('id')] after their request; nothing is
    memoized. *)
Theorem node_without_id_raises word c relations nodes n :
  n ∈ nodes -> node_id n = None ->
  (relations_cache c !! word = None ->
   net_relations_from W (length (session c)) word
     = Some (Payload relations nodes) ->
   get_relations_from W word c
   = (Raise (KeyError "id"), send (RelationsFrom word) c)) /\
  (reverse_relations_cache c !! word = None ->
   net_relations_to W (length (session c)) word
     = Some (Payload relations nodes) ->
   get_relations_to W word c
   = (Raise (KeyError "id"), send (RelationsTo word) c)).
Proof.
  intros Hin Hid.
  assert (Hraise : build_node_map nodes ∅ = Raise (KeyError "id"))
    by (apply build_node_map_raises; eauto).
  split; intros Hcache Hnet.
  - unfold get_relations_from. by rewrite Hcache, Hnet, Hraise.
  - unfold get_relations_to. by rewrite Hcache, Hnet, Hraise.
Qed.

End Accessors.

(** ** The seeds are memoized *)

Section SeedCache.
Context (W : World).

Lemma fetch_nodes_cached (words : list string) :
  forall nodes c nodes' c',
    fetch_nodes W words nodes c = (Ok nodes', c') ->
    session c' = session c ++ (NodeByName <$> words) /\
    exists new, nodes' = nodes ++ new /\
      (forall i, node_cache c' !! i = node_cache c !! i \/
         exists n, n ∈ new /\ node_id n = Some i /\
                   node_cache c' !! i = Some n) /\
      (forall n i, n ∈ new -> node_id n = Some i ->
         exists n', n' ∈ new /\ node_id n' = Some i /\
                    node_cache c' !! i = Some n').
Proof.
  induction words as [|word rest IH]; intros nodes c nodes' c' H; simpl in H.
  { simplify_eq. split; [by rewrite app_nil_r|]. exists [].
    rewrite app_nil_r. split; [done|]. split; [by left|].
    by intros n i ?%elem_of_nil. }
  destruct (node_by_name W (length (session c)) word) as [[n|]|];
    [|done|].
  2:{ apply IH in H as (Hs & new & -> & Ha & Hb). split.
      - rewrite Hs. simpl. by rewrite <- app_assoc.
      - exists new. done. }
  destruct (String.prefix "en:" (default "" (node_name n))).
  { apply IH in H as (Hs & new & -> & Ha & Hb). split.
    - rewrite Hs. simpl. by rewrite <- app_assoc.
    - exists new. done. }
  apply IH in H as (Hs & new & -> & Ha & Hb). split.
  { rewrite Hs. destruct (node_id n); simpl; by rewrite <- app_assoc. }
  exists (n :: new). rewrite <- app_assoc. split; [done|].
  assert (Ha' : forall i, node_cache c' !! i = node_cache c !! i \/
            exists n0, n0 ∈ n :: new /\ node_id n0 = Some i /\
                       node_cache c' !! i = Some n0).
  { intros j. destruct (Ha j) as [Hj|(n0 & ? & ? & ?)].
    - destruct (node_id n) as [i|] eqn:Hi; [|by left]. simpl in Hj.
      destruct (decide (j = i)) as [->|Hne].
      + right. exists n. rewrite lookup_insert_eq in Hj.
        split; [by left|done].
      + left. by rewrite lookup_insert_ne in Hj.
    - right. exists n0. split; [by right|done]. }
  split; [exact Ha'|].
  intros n0 i [->|Hin]%elem_of_cons Hi.
  - destruct (Ha i) as [Hj|(n1 & ? & ? & ?)].
    + rewrite Hi in Hj. simpl in Hj. rewrite lookup_insert_eq in Hj.
      exists n. split; [by left|done].
    + exists n1. split; [by right|done].
  - destruct (Hb _ _ Hin Hi) as (n1 & ? & ? & ?).
    exists n1. split; [by right|done].
Qed.

Lemma get_all_nodes_cached c nodes' c' :
  get_all_nodes W c = (Ok nodes', c') ->
  session c' = session c ++ (NodeByName <$> sample_words) /\
  exists new, nodes' = [] ++ new /\
    (forall i, node_cache c' !! i = node_cache c !! i \/
       exists n, n ∈ new /\ node_id n = Some i /\
                 node_cache c' !! i = Some n) /\
    (forall n i, n ∈ new -> node_id n = Some i ->
       exists n', n' ∈ new /\ node_id n' = Some i /\
                  node_cache c' !! i = Some n').
Proof. apply fetch_nodes_cached. Qed.

(** X7.  [get_all_nodes] sends one request for each sample word, in
    order, and memoizes the seeds: [get_node_info] answers for the id of
    a seed from the memo, with a seed of that id, and sends nothing. *)
Theorem seeds_are_memoized (c : JDMAPIClient) (nodes : list node)
    (c' : JDMAPIClient) :
  get_all_nodes W c = (Ok nodes, c') ->
  session c' = session c ++ (NodeByName <$> sample_words) /\
  forall n i, n ∈ nodes -> node_id n = Some i ->
    exists n', n' ∈ nodes /\ node_id n' = Some i /\
      get_node_info W i c' = (Some n', c').
Proof.
  intros H. apply get_all_nodes_cached in H as (Hs & new & Hnew & _ & Hb).
  split; [exact Hs|]. rewrite app_nil_l in Hnew. subst new.
  intros n i Hin Hi. destruct (Hb _ _ Hin Hi) as (n' & ? & ? & Hc).
  exists n'. split; [done|]. split; [done|].
  unfold get_node_info. by rewrite Hc.
Qed.

End SeedCache.

(** ** The store *)

Section Store.
Context (W : World).

Lemma save_triangle_cases (t : triangle) (d : TriangleDatabase) :
  let '(r, d') := save_triangle W t d in
  (keys_distinct d -> keys_distinct d') /\
  (r = Ok true ->
     (triangle_key t ∉ stored_keys d) /\
     triangles_table d' = triangles_table d ++ [t]) /\
  (r <> Ok true -> triangles_table d' = triangles_table d) /\
  (db_fault W (length (journal d)) = None -> triangle_key t ∈ stored_keys d') /\
  processed_nodes_table d' = processed_nodes_table d.
Proof.
  unfold save_triangle, execute, insert_or_ignore, keys_distinct, stored_keys.
  destruct (db_fault W (length (journal d))) as [[|]|]; simpl;
    try (repeat split; done).
  destruct (decide (triangle_key t ∈ triangle_key <$> triangles_table d))
    as [Hin|Hnew]; simpl.
  { repeat split; done. }
  split; [|split; [done|split; [done|split; [|done]]]].
  - intros Hd. rewrite fmap_app. apply NoDup_app. split; [done|].
    split; [|apply NoDup_singleton].
    intros k Hk ->%list_elem_of_singleton. done.
  - intros _. rewrite fmap_app. apply elem_of_app. right. by left.
Qed.


(** X9.  When SQLite accepts the statements, [is_node_processed] is
    true after [mark_node_processed] and false after
    [mark_node_in_progress], which replaces the row of a node, completed
    or not; the rows of the other nodes and the triangles are left
    alone. *)
Theorem status_round_trip (name : string) (d : TriangleDatabase) :
  db_fault W (length (journal d)) = None ->
  db_fault W (S (length (journal d))) = None ->
  let d1 := snd (mark_node_processed W name d) in
  let d2 := snd (mark_node_in_progress W name d) in
  fst (is_node_processed W name d1) = Ok true /\
  fst (is_node_processed W name d2) = Ok false /\
  (forall other, other <> name ->
     processed_nodes_table d1 !! other = processed_nodes_table d !! other /\
     processed_nodes_table d2 !! other = processed_nodes_table d !! other) /\
  triangles_table d1 = triangles_table d /\
  triangles_table d2 = triangles_table d.
Proof.
  intros H0 H1.
  unfold mark_node_processed, mark_node_in_progress, is_node_processed,
    execute, insert_or_replace.
  rewrite H0. simpl. rewrite !length_app. simpl. rewrite Nat.add_1_r, H1.
  simpl. rewrite !lookup_insert_eq.
  split; [by rewrite bool_decide_true|].
  split; [by rewrite bool_decide_false|].
  split; [|done]. intros other Hne. by rewrite !lookup_insert_ne.
Qed.

End Store.

(** ** The store during a run *)

Section StoreRun.
Context (W : World).

Lemma stored_refl o : stored W [] o o.
Proof.
  destruct o as [d|]; [|done]. simpl. split; [|split; [done|split; [done|]]].
  - exists []. by rewrite app_nil_r.
  - by intros _ t ?%elem_of_nil.
Qed.

Lemma stored_trans new1 new2 o o1 o2 :
  stored W new1 o o1 -> stored W new2 o1 o2 -> stored W (new1 ++ new2) o o2.
Proof.
  destruct o as [d|], o1 as [d1|], o2 as [d2|]; try done. simpl.
  intros ((rows1 & Hr1 & Hs1) & Hk1 & Hc1 & Ha1)
         ((rows2 & Hr2 & Hs2) & Hk2 & Hc2 & Ha2).
  split; [|split; [auto|split; [auto|]]].
  - exists (rows1 ++ rows2). rewrite Hr2, Hr1, <- app_assoc.
    split; [done|]. by apply sublist_app.
  - intros Hrel t [Ht|Ht]%elem_of_app; [|by apply Ha2].
    unfold stored_keys. rewrite Hr2, fmap_app. apply elem_of_app. left.
    by apply Ha1.
Qed.

Lemma keeps_store_refl f : keeps_store W f f.
Proof. exists []. rewrite app_nil_r. split; [done|apply stored_refl]. Qed.

Lemma keeps_store_trans f g h :
  keeps_store W f g -> keeps_store W g h -> keeps_store W f h.
Proof.
  intros (new1 & Ht1 & H1) (new2 & Ht2 & H2). exists (new1 ++ new2).
  split; [by rewrite Ht2, Ht1, <- app_assoc|]. by eapply stored_trans.
Qed.

Lemma keeps_store_api c f : keeps_store W f (set_api_client c f).
Proof. exists []. rewrite app_nil_r. split; [done|apply stored_refl]. Qed.

Lemma keeps_store_record t f : keeps_store W f (snd (record_triangle W t f)).
Proof.
  assert (Hstep : forall f2 (r : result bool),
    with_db (save_triangle W t) false
      (set_triangles (triangles f ++ [t]) f) = (r, f2) ->
    triangles f2 = triangles f ++ [t] /\ stored W [t] (db f) (db f2)).
  { unfold with_db. simpl. intros f2 r H.
    destruct (db f) as [d|] eqn:Hd; [|simplify_eq; simpl; by rewrite Hd].
    pose proof (save_triangle_cases W t d) as Hsave.
    destruct (save_triangle W t d) as [r' d']. simplify_eq. simpl.
    split; [done|].
    destruct Hsave as (Hk & Htrue & Hfalse & Hin & Hnodes).
    split; [|split; [done|split; [by rewrite Hnodes|]]].
    - destruct r as [[|]|e].
      + exists [t]. by destruct (Htrue eq_refl).
      + exists []. rewrite app_nil_r. split; [by apply Hfalse|].
        apply sublist_nil_l.
      + exists []. rewrite app_nil_r. split; [by apply Hfalse|].
        apply sublist_nil_l.
    - intros Hrel t' ->%list_elem_of_singleton. apply Hin, Hrel. }
  unfold record_triangle.
  destruct (with_db _ false _) as [r f2].
  destruct (Hstep f2 r eq_refl) as [Ht Hs]. exists [t]. by destruct r.
Qed.

Lemma keeps_store_status f f' :
  triangles f' = triangles f ->
  (forall d, db f = Some d ->
     exists d', db f' = Some d' /\
       triangles_table d' = triangles_table d /\
       forall name, processed_nodes_table d !! name = Some completed ->
                    processed_nodes_table d' !! name = Some completed) ->
  (db f = None -> db f' = None) ->
  keeps_store W f f'.
Proof.
  intros Ht Hsome Hnone. exists []. rewrite app_nil_r. split; [done|].
  destruct (db f) as [d|] eqn:Hd.
  - destruct (Hsome d eq_refl) as (d' & -> & Hrows & Hcompleted). simpl.
    split; [|split; [|split; [done|]]].
    + exists []. by rewrite app_nil_r.
    + unfold keys_distinct, stored_keys. by rewrite Hrows.
    + by intros _ t ?%elem_of_nil.
  - by rewrite Hnone.
Qed.

Lemma keeps_store_enter start_node f :
  keeps_store W f (snd (enter_node W start_node f)).
Proof.
  unfold enter_node. destruct start_node as [n|]; [|apply keeps_store_refl].
  destruct (node_name n) as [name|]; [|apply keeps_store_refl].
  destruct (decide (name = "")); [apply keeps_store_refl|].
  unfold with_db. destruct (db f) as [d|] eqn:Hd.
  2:{ destruct (decide (name ∈ processed_nodes f)); simpl;
        [apply keeps_store_refl|]. rewrite Hd. simpl.
      apply keeps_store_status; simpl; [done| |done].
      intros d. by rewrite Hd. }
  unfold is_node_processed, execute.
  destruct (db_fault W (length (journal d))) as [e|]; simpl.
  { apply keeps_store_status; simpl; [done| |by rewrite Hd].
    rewrite Hd. intros ? [= <-]. eauto. }
  destruct (bool_decide (processed_nodes_table d !! name = Some completed))
    eqn:Hcompleted; simpl.
  { apply keeps_store_status; simpl; [done| |by rewrite Hd].
    rewrite Hd. intros ? [= <-]. eauto. }
  apply bool_decide_eq_false in Hcompleted.
  destruct (decide (name ∈ processed_nodes f)); simpl.
  { apply keeps_store_status; simpl; [done| |by rewrite Hd].
    rewrite Hd. intros ? [= <-]. eauto. }
  unfold mark_node_in_progress, execute, insert_or_replace. simpl.
  destruct (db_fault W _) as [e|]; simpl;
    (apply keeps_store_status; simpl; [done| |by rewrite Hd]);
    rewrite Hd; intros ? [= <-]; eexists; (split; [reflexivity|]); simpl;
    (split; [done|]); [done|].
  intros x Hx. rewrite lookup_insert_ne; [done|congruence].
Qed.

Lemma keeps_store_done name f :
  keeps_store W f (snd (with_db (mark_node_processed W name) tt f)).
Proof.
  unfold with_db. destruct (db f) as [d|] eqn:Hd; [|apply keeps_store_refl].
  unfold mark_node_processed, execute, insert_or_replace.
  destruct (db_fault W _) as [e|]; simpl;
    (apply keeps_store_status; simpl; [done| |by rewrite Hd]);
    rewrite Hd; intros ? [= <-]; eexists; (split; [reflexivity|]); simpl;
    (split; [done|]); [done|].
  intros x Hx. destruct (decide (x = name)) as [->|Hne].
  - by rewrite lookup_insert_eq.
  - by rewrite lookup_insert_ne.
Qed.

Lemma find_triangles_keeps_store start_node f :
  keeps_store W f (snd (find_triangles W start_node f)).
Proof.
  apply find_triangles_closure.
  - apply keeps_store_refl.
  - apply keeps_store_trans.
  - intros. apply keeps_store_api.
  - intros. apply keeps_store_api.
  - apply keeps_store_record.
  - apply keeps_store_enter.
  - apply keeps_store_done.
Qed.

Lemma find_all_triangles_keeps_store f :
  keeps_store W f (snd (find_all_triangles W f)).
Proof.
  apply find_all_triangles_closure.
  - apply keeps_store_refl.
  - apply keeps_store_trans.
  - intros. apply keeps_store_api.
  - intros. apply keeps_store_api.
  - apply keeps_store_record.
  - apply keeps_store_enter.
  - apply keeps_store_done.
  - intros. apply keeps_store_api.
Qed.


(** X11.  A run of [find_all_triangles] keeps the identities of the
    rows of the table [triangles] distinct. *)
Theorem identities_stay_distinct (f : TriangleFinder) (d : TriangleDatabase) :
  db f = Some d -> keys_distinct d ->
  exists d', db (snd (find_all_triangles W f)) = Some d' /\ keys_distinct d'.
Proof.
  intros Hd Hk. destruct (find_all_triangles_keeps_store f) as (new & _ & Hs).
  rewrite Hd in Hs. destruct (db (snd _)) as [d'|]; [|done].
  exists d'. split; [done|]. by apply Hs.
Qed.

(** X12.  A node that the store has completed stays completed through
    [find_triangles] and [find_all_triangles]: [mark_node_in_progress]
    is only reached for a node that [is_node_processed] denied. *)
Theorem completed_nodes_stay_completed (start_node : pyobject)
    (f : TriangleFinder) (d : TriangleDatabase) (name : string) :
  db f = Some d ->
  processed_nodes_table d !! name = Some completed ->
  (exists d', db (snd (find_triangles W start_node f)) = Some d' /\
              processed_nodes_table d' !! name = Some completed) /\
  (exists d', db (snd (find_all_triangles W f)) = Some d' /\
              processed_nodes_table d' !! name = Some completed).
Proof.
  intros Hd Hname. split.
  - destruct (find_triangles_keeps_store start_node f) as (new & _ & Hs).
    rewrite Hd in Hs. destruct (db (snd _)) as [d'|]; [|done].
    exists d'. split; [done|]. by apply Hs.
  - destruct (find_all_triangles_keeps_store f) as (new & _ & Hs).
    rewrite Hd in Hs. destruct (db (snd _)) as [d'|]; [|done].
    exists d'. split; [done|]. by apply Hs.
Qed.

End StoreRun.

(** ** The statistics *)

Section Statistics.
Context (W : World).

Lemma count_of_app ty l1 l2 :
  count_of ty (l1 ++ l2) = (count_of ty l1 + count_of ty l2)%nat.
Proof. unfold count_of. by rewrite filter_app, length_app. Qed.

Lemma counted_refl f : counted W f f.
Proof.
  exists []. rewrite app_nil_r. unfold count_of. simpl.
  split; [done|]. split; [done|]. split; intros; lia.
Qed.

Lemma counted_trans f g h : counted W f g -> counted W g h -> counted W f h.
Proof.
  intros (new1 & Ht1 & Hn1 & Hle1 & Heq1) (new2 & Ht2 & Hn2 & Hle2 & Heq2).
  exists (new1 ++ new2). split; [by rewrite Ht2, Ht1, <- app_assoc|].
  split; [auto|]. split.
  - intros ty. rewrite count_of_app.
    specialize (Hle1 ty). specialize (Hle2 ty). lia.
  - intros Hok ty. rewrite count_of_app.
    rewrite Heq2, Heq1; [lia|done|].
    destruct Hok as [Hnone|?]; [left; auto|by right].
Qed.

Lemma counted_frame f f' :
  triangles f' = triangles f -> relation_stats f' = relation_stats f ->
  (db f = None -> db f' = None) -> counted W f f'.
Proof.
  intros Ht Hs Hd. exists []. rewrite app_nil_r, Hs. unfold count_of. simpl.
  split; [done|]. split; [done|]. split; intros; lia.
Qed.

Lemma tally_count_type ty ty' m :
  tally (count_type ty m) ty'
  = (tally m ty' + if decide (ty = ty') then 1 else 0)%nat.
Proof.
  unfold tally, count_type. destruct (decide (ty = ty')) as [->|Hne].
  - rewrite lookup_insert_eq. simpl. lia.
  - rewrite lookup_insert_ne by done. lia.
Qed.

Lemma count_of_singleton ty t :
  count_of ty [t] = if decide (A_to_B t = ty) then 1%nat else 0%nat.
Proof.
  unfold count_of. rewrite filter_cons, filter_nil.
  by destruct (decide (A_to_B t = ty)).
Qed.

Lemma counted_record t f : counted W f (snd (record_triangle W t f)).
Proof.
  unfold record_triangle, with_db. simpl. exists [t].
  destruct (db f) as [d|] eqn:Hd; simpl.
  - destruct (save_triangle W t d) as [[b|e] d'] eqn:Hsave; simpl.
    + split; [done|]. split; [by rewrite ?Hd|].
      split; [intros ty|intros _ ty];
        rewrite tally_count_type, count_of_singleton; lia.
    + split; [done|]. split; [by rewrite ?Hd|]. split; [intros; lia|].
      intros [Hnone|Hlock] ty; [done|].
      exfalso. unfold save_triangle, execute in Hsave.
      destruct (db_fault W (length (journal d))) as [[|]|] eqn:Hfault;
        [done|by apply Hlock in Hfault|].
      by destruct (insert_or_ignore t _).
  - split; [done|]. split; [by rewrite ?Hd|].
    split; [intros ty|intros _ ty];
      rewrite tally_count_type, count_of_singleton; lia.
Qed.

Lemma enter_node_frame start_node f :
  exists s o, snd (enter_node W start_node f)
              = set_db o (set_processed_nodes s f) /\
    processed_nodes f ⊆ s /\ (db f = None -> o = None).
Proof.
  assert (Hrefl : exists s o, f = set_db o (set_processed_nodes s f) /\
            processed_nodes f ⊆ s /\ (db f = None -> o = None)).
  { exists (processed_nodes f), (db f). split; [by destruct f|done]. }
  unfold enter_node. destruct start_node as [n|]; [|exact Hrefl].
  destruct (node_name n) as [name|]; [|exact Hrefl].
  destruct (decide (name = "")); [exact Hrefl|].
  unfold with_db. destruct (db f) as [d|] eqn:Hd.
  - destruct (is_node_processed W name d) as [[[|]|e] d0]; simpl;
      try (exists (processed_nodes f), (Some d0); done).
    destruct (decide (name ∈ processed_nodes f)); simpl;
      [exists (processed_nodes f), (Some d0); done|].
    destruct (mark_node_in_progress W name d0) as [[u|e] d1]; simpl;
      exists ({[name]} ∪ processed_nodes f), (Some d1);
      (split; [done|split; [apply union_subseteq_r|done]]).
  - simpl. destruct (decide (name ∈ processed_nodes f)); simpl;
      [exact Hrefl|]. rewrite Hd. simpl.
    exists ({[name]} ∪ processed_nodes f), None.
    split; [|split; [apply union_subseteq_r|done]].
    unfold set_db, set_processed_nodes. simpl. by rewrite Hd.
Qed.

Lemma counted_enter start_node f :
  counted W f (snd (enter_node W start_node f)).
Proof.
  destruct (enter_node_frame start_node f) as (s & o & -> & _ & Ho).
  by apply counted_frame.
Qed.

Lemma counted_done name f :
  counted W f (snd (with_db (mark_node_processed W name) tt f)).
Proof.
  unfold with_db. destruct (db f) as [d|] eqn:Hd; [|apply counted_refl].
  destruct (mark_node_processed W name d) as [r d']. simpl.
  apply counted_frame; try done. by rewrite Hd.
Qed.

Lemma find_triangles_counted start_node f :
  counted W f (snd (find_triangles W start_node f)).
Proof.
  apply find_triangles_closure.
  - apply counted_refl.
  - apply counted_trans.
  - intros. by apply counted_frame.
  - intros. by apply counted_frame.
  - apply counted_record.
  - apply counted_enter.
  - apply counted_done.
Qed.

Lemma find_all_triangles_counted f :
  counted W f (snd (find_all_triangles W f)).
Proof.
  apply find_all_triangles_closure.
  - apply counted_refl.
  - apply counted_trans.
  - intros. by apply counted_frame.
  - intros. by apply counted_frame.
  - apply counted_record.
  - apply counted_enter.
  - apply counted_done.
  - intros. by apply counted_frame.
Qed.


(** X14.  A run of [find_all_triangles] rejects no relation and keeps
    the configuration: [get_statistics] reports the same number of
    rejected relations, the same threshold and the same cap after the
    run as before it. *)
Theorem no_relation_is_rejected (f : TriangleFinder) :
  let f' := snd (find_all_triangles W f) in
  total_rejected_relations (get_statistics f')
    = total_rejected_relations (get_statistics f) /\
  minimum_weight_threshold (get_statistics f')
    = minimum_weight_threshold (get_statistics f) /\
  stat_max_triangles_per_node (get_statistics f')
    = stat_max_triangles_per_node (get_statistics f).
Proof.
  intros f'.
  pose proof (find_all_triangles_extends W f (fst (find_all_triangles W f)) f'
                (surjective_pairing _)) as H.
  simpl in H. unfold get_statistics. simpl.
  rewrite (ext_rejected _ _ _ _ H), (ext_min_weight _ _ _ _ H),
    (ext_cap _ _ _ _ H). done.
Qed.

End Statistics.

(** ** Skipped nodes *)

Section Skips.
Context (W : World).

Lemma enter_node_visits start_node f name f0 :
  enter_node W start_node f = (Ok (Some name), f0) ->
  start_node <> PyOther /\ name ∈ processed_nodes f0.
Proof.
  intros H. unfold enter_node in H. destruct start_node as [n|]; [|done].
  split; [done|].
  destruct (node_name n) as [name'|]; [|done].
  destruct (decide (name' = "")); [done|].
  destruct (with_db (is_node_processed W name') false f)
    as [[[|]|e] f1]; try done.
  destruct (decide (name' ∈ processed_nodes f1)); [done|].
  destruct (with_db (mark_node_in_progress W name') tt _)
    as [[u|e] f2] eqn:Hmark; [|done].
  apply with_db_frame in Hmark as [o' ->]. injection H as <- <-. simpl.
  apply elem_of_union_l. by apply elem_of_singleton.
Qed.

Lemma with_db_raises {X : Type} (stmt : statement)
    (query : TriangleDatabase -> X * TriangleDatabase) (x0 : X) f e f' :
  with_db (execute W stmt query) x0 f = (Raise e, f') ->
  exists s, e = SqliteError s.
Proof.
  unfold with_db, execute. destruct (db f) as [d|]; [|done].
  destruct (db_fault W (length (journal d))) as [s|].
  - intros [= <- _]. eauto.
  - by destruct (query _).
Qed.

Lemma known_node_is_skipped n name f :
  node_name n = Some name ->
  (name ∈ processed_nodes f \/
   exists d, db f = Some d /\
             processed_nodes_table d !! name = Some completed) ->
  exists o,
    snd (find_triangles W (PyDict n) f) = set_db o f /\
    (fst (find_triangles W (PyDict n) f) = Ok [] \/
     exists s, fst (find_triangles W (PyDict n) f) = Raise (SqliteError s)).
Proof.
  intros Hn Hknown. unfold find_triangles, enter_node. rewrite Hn.
  destruct (decide (name = "")).
  { exists (db f). split; [by destruct f|by left]. }
  destruct (with_db (is_node_processed W name) false f)
    as [[[|]|e] f0] eqn:Hcheck; pose proof Hcheck as Hframe;
    apply with_db_frame in Hframe as [o ->]; simpl.
  - exists o. split; [done|by left].
  - destruct (decide (name ∈ processed_nodes f)) as [Hin|Hout]; simpl.
    { exists o. split; [done|by left]. }
    destruct Hknown as [?|(d & Hd & Hcompleted)]; [done|]. exfalso.
    unfold with_db, is_node_processed, execute in Hcheck. rewrite Hd in Hcheck.
    destruct (db_fault W (length (journal d))); [done|]. simpl in Hcheck.
    by rewrite bool_decide_true in Hcheck.
  - exists o. split; [done|]. right.
    apply with_db_raises in Hcheck as [s ->]. eauto.
Qed.

Lemma find_triangles_marks start_node f v :
  fst (find_triangles W start_node f) = Ok v ->
  match start_node with
  | PyDict (Node _ (Some name)) =>
      name = "" \/
      name ∈ processed_nodes (snd (find_triangles W start_node f)) \/
      exists d, db (snd (find_triangles W start_node f)) = Some d /\
                processed_nodes_table d !! name = Some completed
  | _ => True
  end.
Proof.
  destruct start_node as [[i [name|]]|]; try done. intros Hfirst.
  destruct (decide (name = "")) as [|Hname]; [by left|]. right.
  revert Hfirst. unfold find_triangles.
  destruct (enter_node W (PyDict (Node i (Some name))) f)
    as [[[name'|]|e] f0] eqn:Henter; simpl; [| |done].
  - intros _. left.
    assert (name' = name) as ->.
    { unfold enter_node in Henter. simpl in Henter.
      rewrite decide_False in Henter by done.
      destruct (with_db (is_node_processed W name) false f)
        as [[[|]|e] f1]; try done.
      destruct (decide (name ∈ processed_nodes f1)); [done|].
      destruct (with_db (mark_node_in_progress W name) tt _)
        as [[u|e] f2]; by simplify_eq. }
    apply enter_node_visits in Henter as [_ Hin].
    destruct (find_triangles_try W name f0) as [o f1] eqn:Htry.
    apply find_triangles_try_extends in Htry. simpl in Htry.
    pose proof (ext_processed _ _ _ _ Htry) as Hsub.
    assert (Hin1 : name ∈ processed_nodes f1) by (by apply Hsub).
    destruct o as [n|v'|e]; simpl; try done.
    destruct (with_db (mark_node_processed W name) tt f1)
      as [[u|e] f2] eqn:Hdone;
      by apply with_db_frame in Hdone as [o' ->].
  - intros _.
    pose proof (proj1 (enter_node_skipped W (PyDict (Node i (Some name))) f))
      as Hskip.
    rewrite Henter in Hskip. specialize (Hskip eq_refl). simpl in Hskip.
    unfold enter_node in Henter. simpl in Henter.
    rewrite decide_False in Henter by done.
    destruct Hskip as [?|[Htrue|[Hfalse Hin]]]; [done| |].
    + right. rewrite (surjective_pairing (with_db _ false f)) in Henter.
      rewrite Htrue in Henter. injection Henter as <-.
      unfold with_db, is_node_processed, execute in *.
      destruct (db f) as [d|] eqn:Hd; [|done].
      destruct (db_fault W (length (journal d))); [done|].
      simpl in *. eexists. split; [reflexivity|]. simpl.
      injection Htrue as Htrue. by apply bool_decide_eq_true in Htrue.
    + left. rewrite (surjective_pairing (with_db _ false f)) in Henter.
      rewrite Hfalse in Henter.
      destruct (with_db (is_node_processed W name) false f)
        as [r f1] eqn:Hcheck. apply with_db_frame in Hcheck as [o ->].
      simpl in Henter. rewrite decide_True in Henter by done.
      by injection Henter as <-.
Qed.

(** X15.  A node is not enumerated twice: after a call of
    [find_triangles] that returned, a second call for the same node
    changes nothing but the store, and returns the empty list or raises
    the error of SQLite. *)
Theorem seed_not_enumerated_twice (start_node : pyobject)
    (f : TriangleFinder) (v : list triangle) :
  fst (find_triangles W start_node f) = Ok v ->
  let f1 := snd (find_triangles W start_node f) in
  exists o,
    snd (find_triangles W start_node f1) = set_db o f1 /\
    (fst (find_triangles W start_node f1) = Ok [] \/
     exists s, fst (find_triangles W start_node f1) = Raise (SqliteError s)).
Proof.
  intros Hfirst f1. apply find_triangles_marks in Hfirst. fold f1 in Hfirst.
  assert (Hrefl : exists o,
    (Ok ([] : list triangle), f1).2 = set_db o f1 /\
    ((Ok ([] : list triangle), f1).1 = Ok [] \/
     exists s, (Ok ([] : list triangle), f1).1 = Raise (SqliteError s))).
  { exists (db f1). split; [by destruct f1|by left]. }
  destruct start_node as [[i [name|]]|]; [| |]; try exact Hrefl.
  destruct Hfirst as [->|Hknown].
  { unfold find_triangles, enter_node. simpl. exact Hrefl. }
  by apply (known_node_is_skipped _ name).
Qed.

Lemma for_each_node_completed (nodes : list node) :
  forall f d,
    reliable W -> db f = Some d ->
    Forall (fun n => forall name, node_name n = Some name -> name <> "" ->
              processed_nodes_table d !! name = Some completed) nodes ->
    exists d',
      for_each_node W nodes f = (Ok tt, set_db (Some d') f) /\
      triangles_table d' = triangles_table d /\
      processed_nodes_table d' = processed_nodes_table d.
Proof.
  induction nodes as [|n rest IH]; intros f d Hrel Hd Hall; simpl.
  { exists d. split; [|done]. f_equal. destruct f. simpl in Hd. by subst. }
  apply Forall_cons in Hall as [Hn Hrest].
  unfold find_triangles, enter_node.
  destruct (node_name n) as [name|] eqn:Hname; [|by apply IH].
  destruct (decide (name = "")) as [|Hne]; [by apply IH|].
  unfold with_db, is_node_processed, execute. rewrite Hd, Hrel. simpl.
  rewrite bool_decide_true by auto.
  set (d0 := {| journal := journal d ++ [IsNodeProcessed name];
                processed_nodes_table := processed_nodes_table d;
                triangles_table := triangles_table d |}).
  destruct (IH (set_db (Some d0) f) d0 Hrel eq_refl Hrest)
    as (d' & Hloop & Ht & Hp).
  exists d'. split; [exact Hloop|done].
Qed.

(** X16.  Resuming: when the store has completed all the seeds and
    SQLite refuses nothing, [find_all_triangles] fetches no relation,
    appends no triangle, and leaves the two tables as they are. *)
Theorem completed_seeds_are_skipped (f : TriangleFinder)
    (d : TriangleDatabase) (nodes : list node) (c : JDMAPIClient) :
  reliable W -> db f = Some d ->
  get_all_nodes W (api_client f) = (Ok nodes, c) ->
  Forall (fun n => forall name, node_name n = Some name -> name <> "" ->
            processed_nodes_table d !! name = Some completed) nodes ->
  exists d',
    find_all_triangles W f
    = (Ok (match nodes with [] => [] | _ => triangles f end),
       set_db (Some d') (set_api_client c f)) /\
    triangles_table d' = triangles_table d /\
    processed_nodes_table d' = processed_nodes_table d.
Proof.
  intros Hrel Hd Hnodes Hall. rewrite find_all_triangles_unfold, Hnodes.
  destruct nodes as [|n rest].
  { exists d. split; [|done]. do 2 f_equal. destruct f. simpl in *. by subst. }
  destruct (for_each_node_completed (n :: rest) (set_api_client c f) d)
    as (d' & Hloop & Ht & Hp); [done|done|done|].
  rewrite Hloop. exists d'. done.
Qed.

Lemma enter_node_no_store start_node f :
  db f = None -> exists o, fst (enter_node W start_node f) = Ok o.
Proof.
  intros Hd. unfold enter_node. destruct start_node as [n|]; [|by eexists].
  destruct (node_name n) as [name|]; [|by eexists].
  destruct (decide (name = "")); [by eexists|].
  unfold with_db. rewrite Hd. simpl.
  destruct (decide (name ∈ processed_nodes f)); [by eexists|].
  simpl. rewrite Hd. by eexists.
Qed.

Lemma find_triangles_no_store start_node f :
  db f = None ->
  (exists v, fst (find_triangles W start_node f) = Ok v) /\
  db (snd (find_triangles W start_node f)) = None.
Proof.
  intros Hd.
  assert (Hnone : db (snd (find_triangles W start_node f)) = None).
  { destruct (find_triangles_counted W start_node f) as (_ & _ & Hdb & _).
    by apply Hdb. }
  split; [|exact Hnone]. revert Hnone. unfold find_triangles.
  destruct (enter_node_no_store start_node f Hd) as [o Ho].
  destruct (enter_node W start_node f) as [r0 f0]. simpl in Ho. subst r0.
  destruct o as [name|]; [|by eexists].
  destruct (find_triangles_try W name f0) as [[n|v|e] f1]; [|by eexists..].
  unfold with_db. destruct (db f1) as [d1|]; [|by eexists].
  by destruct (mark_node_processed W name d1) as [[u|e] d2].
Qed.

Lemma for_each_node_no_store (nodes : list node) :
  forall f, db f = None -> fst (for_each_node W nodes f) = Ok tt.
Proof.
  induction nodes as [|n rest IH]; intros f Hd; simpl; [done|].
  destruct (find_triangles_no_store (PyDict n) f Hd) as [[v Hv] Hnone].
  destruct (find_triangles W (PyDict n) f) as [r f1]. simpl in *. subst r.
  by apply IH.
Qed.

Lemma get_all_nodes_raises c e :
  fst (get_all_nodes W c) = Raise e -> e = AttributeError.
Proof.
  unfold get_all_nodes.
  pose proof (fetch_nodes_spec W sample_words [] c) as H.
  destruct (fetch_nodes W sample_words [] c) as [[nodes|e'] c']; [done|].
  intros [= <-]. apply H.
Qed.

(** X17.  Without a store, [find_triangles] raises nothing, and
    [find_all_triangles] raises only the [AttributeError] of
    [get_all_nodes]. *)
Theorem no_store_no_exception (start_node : pyobject) (f : TriangleFinder) :
  db f = None ->
  (exists v, fst (find_triangles W start_node f) = Ok v) /\
  ((exists v, fst (find_all_triangles W f) = Ok v) \/
   fst (find_all_triangles W f) = Raise AttributeError).
Proof.
  intros Hd. split; [by apply find_triangles_no_store|].
  rewrite find_all_triangles_unfold.
  pose proof (get_all_nodes_raises (api_client f)) as Hraise.
  destruct (get_all_nodes W (api_client f)) as [[[|n nodes]|e] c].
  - left. by eexists.
  - pose proof (for_each_node_no_store (n :: nodes) (set_api_client c f) Hd)
      as Hloop.
    destruct (for_each_node W (n :: nodes) (set_api_client c f)) as [r f1].
    simpl in Hloop. subst r. left. by eexists.
  - right. simpl. by rewrite (Hraise e eq_refl).
Qed.

End Skips.

(** ** The console *)

Section ConsoleFacts.
Context (isdigit : string -> bool) (int : string -> option Z).

Lemma get_user_input_valid (default_value : string)
    (valid : string -> option bool) (stdin : list string)
    (value : string) (rest : list string) :
  main.get_user_input default_value (Some valid) stdin
    = (main.Value value, rest) ->
  valid value = Some true.
Proof.
  induction stdin as [|line stdin IH]; simpl; [done|].
  destruct (valid (if decide (line = "") then default_value else line))
    as [[|]|] eqn:Hvalid; [| |done].
  - by intros [= <- <-].
  - exact IH.
Qed.

(** X23.  [get_user_input] returns the first line of the input, the
    empty line standing for the default value, that the validation
    function accepts; the lines before it were rejected, the lines after
    it are left unread. *)
Theorem get_user_input_accepts (default_value : string)
    (valid : string -> option bool) (stdin : list string)
    (value : string) (rest : list string) :
  main.get_user_input default_value (Some valid) stdin
    = (main.Value value, rest) ->
  valid value = Some true /\
  exists rejected line,
    stdin = rejected ++ line :: rest /\
    value = (if decide (line = "") then default_value else line) /\
    Forall (fun l => valid (if decide (l = "") then default_value else l)
                     = Some false) rejected.
Proof.
  induction stdin as [|line stdin IH]; simpl; [done|].
  destruct (valid (if decide (line = "") then default_value else line))
    as [[|]|] eqn:Hvalid; [| |done].
  - intros [= <- <-]. split; [done|]. exists [], line. done.
  - intros H. apply IH in H as (Hv & rejected & line' & -> & -> & Hrej).
    split; [done|]. exists (line :: rejected), line'.
    split; [done|]. split; [done|]. by constructor.
Qed.

(** X24.  The cap that [main] reads from the console is [None] or a
    positive integer, whatever [str.isdigit] and [int] are. *)
Theorem configured_cap_is_positive (stdin : list string)
    (cap : option Z) (rest : list string) :
  main.read_max_triangles isdigit int stdin = (main.Value cap, rest) ->
  match cap with
  | Some k => 0 < k
  | None => True
  end.
Proof.
  unfold main.read_max_triangles.
  destruct (main.get_user_input "" _ stdin) as [[x| |] rest'] eqn:Hinput;
    [|done|done].
  apply get_user_input_valid in Hinput as Hvalid.
  unfold main.valid_max_triangles in Hvalid.
  destruct (decide (x = "")) as [_|_]; [by intros [= <- _]|].
  destruct (isdigit x); [|done].
  destruct (int x) as [n|]; [|done].
  intros [= <- _]. injection Hvalid as Hn.
  by apply bool_decide_eq_true in Hn.
Qed.

End ConsoleFacts.

(** ** The network of the visualizer *)

Section Network.
Import visualizer.

Lemma add_triangle_edges t v e :
  graph_edges (G (add_triangle t v)) !! e
  = match last (filter (fun x => x.1 = e) (edges_of t)) with
    | Some x => Some x.2
    | None => graph_edges (G v) !! e
    end.
Proof.
  unfold add_triangle, edges_of. simpl.
  rewrite !filter_cons, filter_nil. simpl.
  destruct (decide ((A t, C t) = e)) as [<-|H3].
  { rewrite lookup_insert_eq.
    by destruct (decide ((A t, B t) = (A t, C t))),
                (decide ((C t, B t) = (A t, C t))). }
  rewrite lookup_insert_ne by done.
  destruct (decide ((C t, B t) = e)) as [<-|H2].
  { rewrite lookup_insert_eq.
    by destruct (decide ((A t, B t) = (C t, B t))). }
  rewrite lookup_insert_ne by done.
  destruct (decide ((A t, B t) = e)) as [<-|H1].
  { by rewrite lookup_insert_eq. }
  by rewrite lookup_insert_ne.
Qed.

Lemma add_triangles_edges ts :
  forall v e,
    graph_edges (G (add_triangles ts v)) !! e
    = match last (filter (fun x => x.1 = e) (ts ≫= edges_of)) with
      | Some x => Some x.2
      | None => graph_edges (G v) !! e
      end.
Proof.
  induction ts as [|t ts IH]; intros v e; [done|].
  change (add_triangles (t :: ts) v) with (add_triangles ts (add_triangle t v)).
  rewrite IH, bind_cons, filter_app, last_app.
  destruct (last (filter _ (ts ≫= edges_of))); [done|].
  apply add_triangle_edges.
Qed.

Lemma add_triangles_nodes ts :
  forall v,
    graph_nodes (G (add_triangles ts v))
    = graph_nodes (G v) ∪ list_to_set (ts ≫= fun t => [A t; B t; C t]).
Proof.
  induction ts as [|t ts IH]; intros v.
  { simpl. by rewrite union_empty_r_L. }
  change (add_triangles (t :: ts) v) with (add_triangles ts (add_triangle t v)).
  rewrite IH. simpl. apply set_eq. intros x.
  rewrite !elem_of_union, !elem_of_singleton. tauto.
Qed.

Lemma add_triangles_list ts :
  forall v, triangles (add_triangles ts v) = triangles v ++ ts.
Proof.
  induction ts as [|t ts IH]; intros v; [by rewrite app_nil_r|].
  change (add_triangles (t :: ts) v) with (add_triangles ts (add_triangle t v)).
  rewrite IH. simpl. by rewrite <- app_assoc.
Qed.

(** X25.  The network after [add_triangle] was called for each triangle
    of a list: it keeps the list, its nodes are the nodes of the
    triangles, and the edge from a node to another carries the type and
    the weight that were set last for these two nodes. *)
Theorem network_keeps_last_edge (ts : list triangle) :
  let v := add_triangles ts new_visualizer in
  triangles v = ts /\
  graph_nodes (G v) = list_to_set (ts ≫= fun t => [A t; B t; C t]) /\
  forall e, graph_edges (G v) !! e
            = snd <$> last (filter (fun x => x.1 = e) (ts ≫= edges_of)).
Proof.
  intros v. subst v. split; [apply add_triangles_list|]. split.
  - rewrite add_triangles_nodes. simpl. by rewrite union_empty_l_L.
  - intros e. rewrite add_triangles_edges. simpl.
    by destruct (last _).
Qed.

End Network.

(** ** The summaries of the visualizer *)

Section Summaries.
Import visualizer.

Lemma elem_of_increment key d k n :
  NoDup (d.*1) ->
  (k, n) ∈ increment key d <->
  (k <> key /\ (k, n) ∈ d) \/
  (k = key /\ ((exists m, (key, m) ∈ d /\ n = S m) \/
               ((key ∉ d.*1) /\ n = 1%nat))).
Proof.
  induction d as [|[k0 n0] d IH]; simpl; intros Hnodup.
  { rewrite list_elem_of_singleton. split.
    - intros Heq. injection Heq as -> ->. right. split; [done|]. right.
      split; [apply not_elem_of_nil|done].
    - intros [[_ Hin]|[-> [(m & Hin & _)|[_ ->]]]];
        [by apply elem_of_nil in Hin|by apply elem_of_nil in Hin|done]. }
  apply NoDup_cons in Hnodup as [Hk0 Hnodup].
  assert (Hfresh : forall m, (k0, m) ∉ d).
  { intros m Hm. apply Hk0, list_elem_of_fmap. by exists (k0, m). }
  destruct (decide (k0 = key)) as [->|Hne].
  - rewrite !elem_of_cons. split.
    + intros [Heq|Hin].
      * injection Heq as -> ->. right. split; [done|]. left. exists n0.
        split; [by left|done].
      * left. split; [|by right]. intros ->. by destruct (Hfresh n).
    + intros [[Hk [Heq|Hin]]|[-> Hcase]].
      * injection Heq as ? ?. done.
      * by right.
      * destruct Hcase as [(m & [Heq|Hin]%elem_of_cons & ->)|[Hout _]].
        -- injection Heq as ->. by left.
        -- by destruct (Hfresh m).
        -- destruct Hout. apply elem_of_cons. by left.
  - rewrite !elem_of_cons, (IH Hnodup). split.
    + intros [Heq|[[Hk Hin]|[-> Hcase]]].
      * injection Heq as -> ->. left. split; [done|by left].
      * left. split; [done|by right].
      * right. split; [done|].
        destruct Hcase as [(m & Hin & ->)|[Hout ->]].
        -- left. exists m. split; [by right|done].
        -- right. split; [|done]. intros [Heq|Hin]; [by subst|done].
    + intros [[Hk [Heq|Hin]]|[-> Hcase]].
      * by left.
      * right. left. done.
      * right. right. split; [done|].
        destruct Hcase as [(m & [Heq|Hin]%elem_of_cons & ->)|[Hout ->]].
        -- injection Heq as ? ?. done.
        -- left. by exists m.
        -- right. split; [|done]. intros Hin. apply Hout. by right.
Qed.

Lemma increment_keys key d :
  NoDup (d.*1) -> NoDup ((increment key d).*1).
Proof.
  induction d as [|[k0 n0] d IH]; simpl; intros Hnodup.
  { apply NoDup_singleton. }
  apply NoDup_cons in Hnodup as [Hk0 Hnodup].
  destruct (decide (k0 = key)) as [->|Hne]; simpl.
  { by apply NoDup_cons. }
  apply NoDup_cons. split; [|by apply IH].
  intros ([k n] & Hk & Hin)%list_elem_of_fmap. simpl in Hk. subst k.
  apply elem_of_increment in Hin; [|done].
  destruct Hin as [[_ Hin]|[-> _]]; [|done].
  apply Hk0. apply list_elem_of_fmap. by exists (k0, n).
Qed.

Lemma increment_sum key d :
  sum_list ((increment key d).*2) = S (sum_list (d.*2)).
Proof.
  induction d as [|[k0 n0] d IH]; simpl; [done|].
  destruct (decide (k0 = key)); rewrite !fmap_cons; simpl; [done|].
  rewrite IH, Nat.add_succ_r. reflexivity.
Qed.

(** The counts after the loop, for any dict it starts with. *)
Lemma count_pairs_spec (ts : list triangle) :
  NoDup ((count_pairs ts).*1) /\
  sum_list ((count_pairs ts).*2) = length ts /\
  forall k n, (k, n) ∈ count_pairs ts <->
    (0 < n)%nat /\
    n = length (filter (fun t => pair_key (C_to_B t) (A_to_C t) = k) ts).
Proof.
  unfold count_pairs. induction ts as [|t ts IH] using rev_ind.
  { simpl. split; [apply NoDup_nil_2|]. split; [done|].
    intros k n. split; [by intros ?%elem_of_nil|]. intros [? ->]. simpl in *.
    lia. }
  rewrite foldl_snoc. destruct IH as (Hnodup & Hsum & Hcount).
  split; [by apply increment_keys|].
  split; [rewrite increment_sum, Hsum, length_app; simpl; lia|].
  intros k n. rewrite elem_of_increment by done.
  rewrite filter_app, length_app, filter_cons, filter_nil.
  set (key := pair_key (C_to_B t) (A_to_C t)).
  destruct (decide (key = k)) as [Hk|Hk]; simpl.
  - subst k. split.
    + intros [[? _]|[_ [(m & Hm & ->)|[Hout ->]]]]; [done| |].
      * apply Hcount in Hm as [? ->]. lia.
      * split; [lia|].
        destruct (length (filter _ ts)) as [|m] eqn:Hlen; [done|].
        destruct Hout. apply list_elem_of_fmap. exists (key, S m).
        split; [done|]. apply Hcount. rewrite Hlen. split; [lia|done].
    + intros [Hpos ->]. right. split; [done|].
      destruct (length (filter _ ts)) as [|m] eqn:Hlen.
      * right. split; [|done].
        intros ([k' n'] & Hk' & Hin)%list_elem_of_fmap. simpl in Hk'.
        subst k'. apply Hcount in Hin as [? Hn']. rewrite Hlen in Hn'. lia.
      * left. exists (S m). split; [|lia]. apply Hcount.
        rewrite Hlen. split; [lia|done].
  - rewrite Nat.add_0_r. split.
    + intros [[_ Hin]|[-> _]]; [by apply Hcount|done].
    + intros Hn. left. split; [done|]. by apply Hcount.
Qed.

Lemma insert_by_count_perm x l : insert_by_count x l ≡ₚ x :: l.
Proof.
  induction l as [|y l IH]; simpl; [done|].
  destruct (decide (y.2 <= x.2)%nat); [done|].
  rewrite IH. apply Permutation_swap.
Qed.

Lemma sorted_by_count_perm l : sorted_by_count l ≡ₚ l.
Proof.
  induction l as [|x l IH]; simpl; [done|].
  by rewrite insert_by_count_perm, IH.
Qed.

Lemma insert_by_count_sorted x l :
  Sorted (fun a b => (b.2 <= a.2)%nat) l ->
  Sorted (fun a b => (b.2 <= a.2)%nat) (insert_by_count x l).
Proof.
  induction l as [|y l IH]; simpl; intros Hl.
  { by repeat constructor. }
  destruct (decide (y.2 <= x.2)%nat) as [Hle|Hgt].
  { constructor; [done|]. by constructor. }
  apply Sorted_inv in Hl as [Hl Hhd]. constructor; [by apply IH|].
  destruct l as [|z l]; simpl.
  { constructor. lia. }
  destruct (decide (z.2 <= x.2)%nat); constructor; [lia|].
  by apply HdRel_inv in Hhd.
Qed.

Lemma sorted_by_count_sorted l :
  Sorted (fun a b => (b.2 <= a.2)%nat) (sorted_by_count l).
Proof.
  induction l as [|x l IH]; simpl; [constructor|].
  by apply insert_by_count_sorted.
Qed.

Lemma summary_spec (selected : list triangle) :
  match summary selected with
  | None => selected = []
  | Some (total, pairs) =>
      total = length selected /\ (0 < total)%nat /\
      sum_list (pairs.*2) = total /\
      NoDup (pairs.*1) /\
      Sorted (fun a b => (b.2 <= a.2)%nat) pairs /\
      forall k n, (k, n) ∈ pairs <->
        (0 < n)%nat /\
        n = length (filter (fun t => pair_key (C_to_B t) (A_to_C t) = k)
                      selected)
  end.
Proof.
  unfold summary. destruct selected as [|t ts]; [done|].
  destruct (count_pairs_spec (t :: ts)) as (Hnodup & Hsum & Hcount).
  pose proof (sorted_by_count_perm (count_pairs (t :: ts))) as Hperm.
  split; [done|]. split; [simpl; lia|].
  split; [by rewrite Hperm|]. split; [by rewrite Hperm|].
  split; [apply sorted_by_count_sorted|].
  intros k n. by rewrite Hperm.
Qed.

(** X26.  The summary of [plot_specific_relation_pairs]: the total is
    the number of the triangles with the type R1, and is not zero; the
    pairs have distinct keys, are sorted by decreasing count, and their
    counts, which add up to the total, are the numbers of the selected
    triangles with each key.  There is no summary exactly when no
    triangle has the type. *)
Theorem relation_pairs_summary (r1_type : Z) (v : Visualizer) :
  match plot_specific_relation_pairs r1_type v with
  | None => forall t, t ∈ triangles v -> A_to_B t <> r1_type
  | Some (total, pairs) =>
      total = count_of r1_type (triangles v) /\ (0 < total)%nat /\
      sum_list (pairs.*2) = total /\
      NoDup (pairs.*1) /\
      Sorted (fun a b => (b.2 <= a.2)%nat) pairs /\
      forall k n, (k, n) ∈ pairs <->
        (0 < n)%nat /\
        n = length
              (filter (fun t => pair_key (C_to_B t) (A_to_C t) = k)
                 (filter (fun t => A_to_B t = r1_type) (triangles v)))
  end.
Proof.
  unfold plot_specific_relation_pairs.
  pose proof (summary_spec (filter (fun t => A_to_B t = r1_type)
                              (triangles v))) as H.
  destruct (summary _) as [[total pairs]|]; [exact H|].
  intros t Hin Ht.
  assert (Hsel : t ∈ filter (fun t => A_to_B t = r1_type) (triangles v))
    by (by apply list_elem_of_filter).
  rewrite H in Hsel. by apply elem_of_nil in Hsel.
Qed.

(** X27.  The same for the summary of [plot_specific_ab_pairs] and the
    triangles with the nodes A and B. *)
Theorem ab_pairs_summary (node_a node_b : string) (v : Visualizer) :
  match plot_specific_ab_pairs node_a node_b v with
  | None => forall t, t ∈ triangles v -> ~ (A t = node_a /\ B t = node_b)
  | Some (total, pairs) =>
      (0 < total)%nat /\
      sum_list (pairs.*2) = total /\
      NoDup (pairs.*1) /\
      Sorted (fun a b => (b.2 <= a.2)%nat) pairs /\
      forall k n, (k, n) ∈ pairs <->
        (0 < n)%nat /\
        n = length
              (filter (fun t => pair_key (C_to_B t) (A_to_C t) = k)
                 (filter (fun t => A t = node_a /\ B t = node_b)
                    (triangles v)))
  end.
Proof.
  unfold plot_specific_ab_pairs.
  pose proof (summary_spec (filter (fun t => A t = node_a /\ B t = node_b)
                              (triangles v))) as H.
  destruct (summary _) as [[total pairs]|]; [apply H|].
  intros t Hin Ht.
  assert (Hsel : t ∈ filter (fun t => A t = node_a /\ B t = node_b)
                       (triangles v))
    by (by apply list_elem_of_filter).
  rewrite H in Hsel. by apply elem_of_nil in Hsel.
Qed.

End Summaries.

(** ** From the run to the summaries *)

Section Pipeline.
Context (W : World).

Lemma find_all_triangles_positive f :
  positive_counts (relation_stats f) ->
  positive_counts (relation_stats (snd (find_all_triangles W f))).
Proof.
  apply (find_all_triangles_closure W
           (fun f f' => positive_counts (relation_stats f) ->
                        positive_counts (relation_stats f'))); auto.
  - intros t f0 Hpos. unfold record_triangle.
    destruct (with_db _ false _) as [[b|e] f2] eqn:Hsave;
      apply with_db_frame in Hsave as [o ->]; simpl; [|done].
    intros ty n. unfold count_type.
    destruct (decide (ty = A_to_B t)) as [->|Hne].
    + rewrite lookup_insert_eq. intros [= <-]. lia.
    + rewrite lookup_insert_ne by done. apply Hpos.
  - intros s f0 Hpos.
    destruct (enter_node_frame W s f0) as (s' & o & -> & _). done.
  - intros name f0 Hpos.
    destruct (with_db _ tt f0) as [r f1] eqn:Hdone.
    by apply with_db_frame in Hdone as [o ->].
Qed.

Lemma find_all_triangles_value f v :
  fst (find_all_triangles W f) = Ok v ->
  v = triangles (snd (find_all_triangles W f)) \/
  (v = [] /\
   relation_stats (snd (find_all_triangles W f)) = relation_stats f).
Proof.
  rewrite find_all_triangles_unfold.
  destruct (get_all_nodes W (api_client f)) as [[[|n nodes]|e] c].
  - intros [= <-]. by right.
  - destruct (for_each_node W (n :: nodes) (set_api_client c f))
      as [[u|e] f1]; intros Hv; simpl in Hv; [|discriminate].
    injection Hv as <-. by left.
  - done.
Qed.

(** X28.  From the run to the summary: after [find_all_triangles] on a
    new finder, for a type that [get_statistics] lists and the
    visualizer loaded with the returned triangles,
    [plot_specific_relation_pairs] finds triangles, at least as many as
    the statistics count. *)
Theorem listed_type_has_triangles (c : JDMAPIClient) (w : weight)
    (k : option Z) (d : option TriangleDatabase) (v : list triangle)
    (r1_type : Z) :
  let f := new_finder c w k d in
  let stats := get_statistics (snd (find_all_triangles W f)) in
  fst (find_all_triangles W f) = Ok v ->
  is_Some (relation_types stats !! r1_type) ->
  exists total pairs,
    visualizer.plot_specific_relation_pairs r1_type
      (visualizer.add_triangles v visualizer.new_visualizer)
    = Some (total, pairs) /\
    (tally (relation_types stats) r1_type <= total)%nat.
Proof.
  intros f stats Hv [n Hn]. subst stats.
  pose proof (find_all_triangles_positive f) as Hpos.
  pose proof (find_all_triangles_value f v Hv) as Hval.
  pose proof (find_all_triangles_counted W f) as Hcount.
  clear Hv. revert Hn Hpos Hval Hcount.
  generalize (snd (find_all_triangles W f)). intros f' Hn Hpos Hval Hcount.
  assert (Hempty : relation_stats f = ∅) by reflexivity.
  assert (Hnil : triangles f = []) by reflexivity.
  clearbody f. unfold get_statistics in *. cbn [relation_types] in *.
  unfold counted in Hcount. rewrite Hempty in Hpos, Hval, Hcount.
  assert (Hn0 : (0 < n)%nat).
  { eapply Hpos; [|exact Hn]. intros ty m Hm. by rewrite lookup_empty in Hm. }
  destruct Hval as [Hv|[_ Hv]].
  2:{ rewrite Hv, lookup_empty in Hn. done. }
  destruct Hcount as (new & Ht & _ & Hle & _).
  rewrite Hnil, app_nil_l, <- Hv in Ht. subst new.
  specialize (Hle r1_type). unfold tally in Hle at 2.
  rewrite lookup_empty in Hle. simpl in Hle.
  unfold visualizer.plot_specific_relation_pairs.
  rewrite add_triangles_list. cbn [visualizer.triangles
    visualizer.new_visualizer]. rewrite app_nil_l.
  pose proof (summary_spec (filter (fun t => A_to_B t = r1_type) v)) as Hsum.
  unfold count_of in Hle.
  destruct (visualizer.summary _) as [[total pairs]|].
  - exists total, pairs. split; [done|]. destruct Hsum as [-> _]. lia.
  - rewrite Hsum in Hle. cbn [length] in Hle. unfold tally in Hle.
    rewrite Hn in Hle. simpl in Hle. lia.
Qed.

End Pipeline.

(** ** The keys of the pairs *)

Section PairKeys.
Import visualizer.

Lemma string_of_uint_no_R (d : Decimal.uint) :
  no_R (NilEmpty.string_of_uint d).
Proof. induction d; simpl; try done; by split. Qed.

Lemma str_no_R (n : Z) : no_R (str n).
Proof.
  unfold str, NilZero.string_of_int, NilZero.string_of_uint.
  destruct (Z.to_int n) as [d|d]; [|split; [done|]];
    destruct d; try apply (string_of_uint_no_R (_ _)); simpl; by split.
Qed.

Lemma str_parsed (n : Z) :
  NilZero.int_of_string (str n) = Some (Z.to_int n).
Proof.
  unfold str. apply NilZero.isi; destruct n as [|p|p]; simpl; intros [= H];
    by apply DecimalPos.Unsigned.to_uint_nonnil in H.
Qed.

Lemma str_inj (n n' : Z) : str n = str n' -> n = n'.
Proof.
  intros H. apply DecimalZ.to_int_inj.
  pose proof (str_parsed n) as Hn. rewrite H, str_parsed in Hn.
  by injection Hn.
Qed.

Lemma append_delimiter (s1 : string) :
  forall s1' t t',
    no_R s1 -> no_R s1' ->
    (s1 ++ String "-" (String "R" t))%string
    = (s1' ++ String "-" (String "R" t'))%string ->
    s1 = s1' /\ t = t'.
Proof.
  induction s1 as [|a s1 IH]; intros [|a' s1'] t t' H1 H1' H; simpl in *.
  - by injection H as ->.
  - injection H as <- H. destruct s1' as [|b s1']; simpl in *.
    + discriminate H.
    + injection H as <- _. by destruct H1' as [_ [? _]].
  - injection H as -> H. destruct s1 as [|b s1]; simpl in *.
    + discriminate H.
    + injection H as -> _. by destruct H1 as [_ [? _]].
  - injection H as <- H. destruct H1 as [_ H1], H1' as [_ H1'].
    by destruct (IH _ _ _ H1 H1' H) as [-> ->].
Qed.

(** X29.  The keys [f"R2{r2}-R3{r3}"] of the summaries are distinct for
    distinct pairs of types: a count under a key is a count of the
    triangles with one pair (R2, R3). *)
Theorem pair_key_injective (r2 r3 r2' r3' : Z) :
  pair_key r2 r3 = pair_key r2' r3' -> r2 = r2' /\ r3 = r3'.
Proof.
  unfold pair_key. simpl. intros [= H].
  apply append_delimiter in H as [H2 [= H3]]; [|apply str_no_R..].
  split; by apply str_inj.
Qed.

End PairKeys.

(** ** Instances *)

(** The further properties at concrete inputs, and what the scenarios
    evaluate to. *)

Lemma node_ids_requested_once_witness :
  requests_recorded
    (api_client
       (snd (find_all_triangles bare_world
               (new_finder new_client 0%Q None None)))).
Proof.
  apply (node_ids_requested_once bare_world). split.
  - apply NoDup_nil_2.
  - intros id Hid. by apply elem_of_nil in Hid.
Defined.

(** The seed "mot" is memoized by [get_all_nodes]: only the two other
    nodes are requested by id, once each. *)
Example bare_world_requests :
  node_requests
    (api_client
       (snd (find_all_triangles bare_world
               (new_finder new_client 0%Q None None))))
  = [11; 12].
Proof. vm_compute. reflexivity. Qed.

Lemma relations_in_payload_order_witness :
  let l := [Relation "chat" "animal" 6 (inject_Z (2 ^ 53));
            Relation "chat" "chien" 7 (-25 # 1)%Q] in
  match net_relations_from heavy_world (length (session new_client)) "chat" with
  | Some (Payload relations _) =>
      sublist (signature <$> l) (raw_signature <$> filter_relations relations)
  | _ => l = []
  end.
Proof.
  intros l.
  apply (relations_in_payload_order heavy_world "chat" new_client l
           (snd (get_relations_from heavy_world "chat" new_client))).
  - reflexivity.
  - vm_compute. reflexivity.
Defined.

Lemma incoming_relations_in_payload_order_witness :
  let l := [Relation "chat" "animal" 6 1%Q;
            Relation "chien" "animal" 6 1%Q] in
  match net_relations_to chat_world (length (session new_client)) "animal" with
  | Some (Payload relations _) =>
      sublist (signature <$> l) (raw_signature <$> filter_relations relations)
  | _ => l = []
  end.
Proof.
  intros l.
  apply (incoming_relations_in_payload_order chat_world "animal" new_client l
           (snd (get_relations_to chat_world "animal" new_client))).
  - reflexivity.
  - vm_compute. reflexivity.
Defined.

Lemma listed_nodes_need_no_request_witness :
  let l := [Relation "chat" "animal" 6 1%Q;
            Relation "chat" "chien" 7 (-1 # 2)%Q] in
  fst (get_relations_from chat_world "chat" new_client) = Ok l /\
  session (snd (get_relations_from chat_world "chat" new_client))
    = [RelationsFrom "chat"].
Proof.
  intros l.
  rewrite (listed_nodes_need_no_request chat_world "chat" new_client
             [RawRelation 1 2 6 1%Q; RawRelation 1 3 7 (-1 # 2)%Q]
             [chat; animal; chien]
             (<[3 := chien]> (<[2 := animal]> (<[1 := chat]> ∅)))).
  - split; reflexivity.
  - reflexivity.
  - reflexivity.
  - reflexivity.
  - change (filter_relations _)
      with [RawRelation 1 2 6 1%Q; RawRelation 1 3 7 (-1 # 2)%Q].
    repeat (apply Forall_cons; split;
            [split; [|split]; vm_compute; eexists; reflexivity|]).
    apply Forall_nil_2.
Defined.

Lemma node_without_id_raises_witness :
  get_relations_from anonymous_world "chat" new_client
  = (Raise (KeyError "id"), send (RelationsFrom "chat") new_client).
Proof.
  apply (proj1 (node_without_id_raises anonymous_world "chat" new_client
                  [RawRelation 1 2 6 1%Q] [chat; Node None (Some "animal")]
                  (Node None (Some "animal"))
                  ltac:(apply elem_of_cons; right; apply elem_of_cons; by left)
                  eq_refl)).
  - reflexivity.
  - reflexivity.
Defined.

Lemma seeds_are_memoized_witness :
  let c' := snd (get_all_nodes mot_world new_client) in
  session c' = session new_client ++ (NodeByName <$> sample_words) /\
  forall n i, n ∈ [mot] -> node_id n = Some i ->
    exists n', n' ∈ [mot] /\ node_id n' = Some i /\
      get_node_info mot_world i c' = (Some n', c').
Proof.
  intros c'. apply (seeds_are_memoized mot_world new_client [mot] c').
  vm_compute. reflexivity.
Defined.


Lemma status_round_trip_witness :
  let d1 := snd (mark_node_processed chat_world "chat" empty_database) in
  let d2 := snd (mark_node_in_progress chat_world "chat" d1) in
  fst (is_node_processed chat_world "chat" d1) = Ok true /\
  fst (is_node_processed chat_world "chat" d2) = Ok false.
Proof.
  intros d1 d2. split.
  - apply (status_round_trip chat_world "chat" empty_database);
      reflexivity.
  - apply (status_round_trip chat_world "chat" d1); reflexivity.
Defined.


Lemma identities_stay_distinct_witness :
  let f := new_finder new_client 0%Q None (Some empty_database) in
  exists d', db (snd (find_all_triangles mot_world f)) = Some d' /\
             keys_distinct d'.
Proof.
  intros f.
  apply (identities_stay_distinct mot_world f empty_database eq_refl).
  apply NoDup_nil_2.
Defined.

Lemma completed_nodes_stay_completed_witness :
  let f := new_finder new_client 0%Q None (Some resumed_database) in
  exists d', db (snd (find_all_triangles mot_world f)) = Some d' /\
             processed_nodes_table d' !! "mot" = Some completed.
Proof.
  intros f.
  apply (proj2 (completed_nodes_stay_completed mot_world PyOther f
                  resumed_database "mot" eq_refl eq_refl)).
Defined.

Lemma seed_not_enumerated_twice_witness :
  let f := new_finder new_client 0%Q None None in
  let f1 := snd (find_triangles chat_world (PyDict chat) f) in
  exists o,
    snd (find_triangles chat_world (PyDict chat) f1) = set_db o f1 /\
    (fst (find_triangles chat_world (PyDict chat) f1) = Ok [] \/
     exists s, fst (find_triangles chat_world (PyDict chat) f1)
               = Raise (SqliteError s)).
Proof.
  intros f.
  apply (seed_not_enumerated_twice chat_world (PyDict chat) f
           [Triangle "chat" "animal" "chien" 6 6 7 1%Q 1%Q (-1 # 2)%Q]).
  vm_compute. reflexivity.
Defined.

Lemma completed_seeds_are_skipped_witness :
  let f := new_finder new_client 0%Q None (Some resumed_database) in
  let c := snd (get_all_nodes mot_world new_client) in
  exists d',
    find_all_triangles mot_world f
    = (Ok [], set_db (Some d') (set_api_client c f)) /\
    triangles_table d' = [] /\
    processed_nodes_table d' = {["mot" := completed]}.
Proof.
  intros f c.
  apply (completed_seeds_are_skipped mot_world f resumed_database [mot] c).
  - intros n. reflexivity.
  - reflexivity.
  - vm_compute. reflexivity.
  - constructor; [|constructor]. intros name [= <-] _. reflexivity.
Defined.

Lemma no_store_no_exception_witness :
  let f := new_finder new_client 0%Q None None in
  (exists v, fst (find_triangles chat_world (PyDict chat) f) = Ok v) /\
  ((exists v, fst (find_all_triangles chat_world f) = Ok v) \/
   fst (find_all_triangles chat_world f) = Raise AttributeError).
Proof.
  intros f. apply (no_store_no_exception chat_world (PyDict chat) f).
  reflexivity.
Defined.

Lemma cap_bound_witness :
  let f := new_finder new_client 0%Q (Some 1) None in
  let f' := snd (find_triangles chat_world (PyDict chat) f) in
  exists new, triangles f' = triangles f ++ new /\
              Z.of_nat (length new) <= 1 - 1 + Z.of_nat 1.
Proof.
  intros f f'.
  apply (cap_bound chat_world (PyDict chat) f f'
           (fst (find_triangles chat_world (PyDict chat) f)) 1 1).
  - reflexivity.
  - lia.
  - lia.
  - assert (Hcache : relations_cache (api_client f')
                     = {["chat" := [Relation "chat" "animal" 6 1%Q;
                                    Relation "chat" "chien" 7 (-1 # 2)%Q]]})
      by (vm_compute; reflexivity).
    rewrite Hcache. intros name l [<- <-]%lookup_singleton_Some.
    unfold multiplicity. intros c.
    rewrite !filter_cons, filter_nil. simpl.
    destruct (decide ("animal" = c)) as [Ha|_],
             (decide ("chien" = c)) as [Hc|_]; simpl; try lia.
    subst c. discriminate Hc.
  - apply surjective_pairing.
Defined.

Lemma enumeration_complete_witness :
  let f := new_finder new_client 0%Q None None in
  let f' := snd (find_triangles_try chat_world "chat" f) in
  exists relations_from,
    relations_cache (api_client f') !! "chat" = Some relations_from /\
    let all := motifs chat_world "chat" relations_from (api_client f')
                 (set_order chat_world (rel_target <$> relations_from)) in
    triangles f' = triangles f ++ all /\ 1%nat = length all.
Proof.
  intros f f'.
  apply (enumeration_complete chat_world "chat" f 1 f').
  - apply remove_dups_set_semantics.
  - vm_compute. reflexivity.
Defined.

Lemma in_progress_after_guards_witness :
  let f := new_finder new_client 0%Q None (Some empty_database) in
  let d0 := {| journal := [IsNodeProcessed "chat"; MarkNodeInProgress "chat"];
               processed_nodes_table := {["chat" := in_progress]};
               triangles_table := [] |} in
  processed_nodes_table d0 !! "chat" = Some in_progress.
Proof.
  intros f d0.
  apply (in_progress_after_guards chat_world (PyDict chat) f "chat"
           (snd (enter_node chat_world (PyDict chat) f)) d0).
  - vm_compute. reflexivity.
  - vm_compute. reflexivity.
Defined.

Lemma completed_after_all_targets_witness :
  let f := new_finder new_client 0%Q None (Some empty_database) in
  exists f' d',
    find_triangles chat_world (PyDict chat) f = (Ok (triangles f'), f') /\
    db f' = Some d' /\
    processed_nodes_table d' !! "chat" = Some completed.
Proof.
  intros f.
  pose (f0 := snd (enter_node chat_world (PyDict chat) f)).
  pose (f1 := snd (find_triangles_try chat_world "chat" f0)).
  apply (completed_after_all_targets chat_world (PyDict chat) f "chat" f0
           1 f1
           {| journal := [IsNodeProcessed "chat"; MarkNodeInProgress "chat";
                          SaveTriangle
                            (Triangle "chat" "animal" "chien" 6 6 7
                               1%Q 1%Q (-1 # 2)%Q)];
              processed_nodes_table := {["chat" := in_progress]};
              triangles_table :=
                [Triangle "chat" "animal" "chien" 6 6 7 1%Q 1%Q (-1 # 2)%Q] |}).
  - vm_compute. reflexivity.
  - vm_compute. reflexivity.
  - vm_compute. reflexivity.
  - reflexivity.
Defined.

Lemma get_user_input_accepts_witness :
  let valid := main.valid_max_triangles main.ascii_isdigit main.ascii_int in
  valid "12" = Some true /\
  exists rejected line,
    ["abc"; "0"; "12"; "x"] = rejected ++ line :: ["x"] /\
    "12" = (if decide (line = "") then "" else line) /\
    Forall (fun l => valid (if decide (l = "") then "" else l) = Some false)
      rejected.
Proof.
  intros valid.
  apply (get_user_input_accepts "" valid ["abc"; "0"; "12"; "x"] "12" ["x"]).
  vm_compute. reflexivity.
Defined.

Lemma configured_cap_is_positive_witness : 0 < 12.
Proof.
  apply (configured_cap_is_positive main.ascii_isdigit main.ascii_int
           ["abc"; "0"; "12"; "x"] (Some 12) ["x"]).
  vm_compute. reflexivity.
Defined.

Lemma listed_type_has_triangles_witness :
  let f := new_finder new_client 0%Q None None in
  let stats := get_statistics (snd (find_all_triangles mot_world f)) in
  let v := [Triangle "mot" "parole" "terme" 6 6 7 1%Q 1%Q (-1 # 2)%Q] in
  exists total pairs,
    visualizer.plot_specific_relation_pairs 6
      (visualizer.add_triangles v visualizer.new_visualizer)
    = Some (total, pairs) /\
    (tally (relation_types stats) 6 <= total)%nat.
Proof.
  intros f stats v.
  apply (listed_type_has_triangles mot_world new_client 0%Q None None v 6).
  - vm_compute. reflexivity.
  - exists 1%nat. vm_compute. reflexivity.
Defined.

(** The summary for the type 6 of four triangles, three of which have
    it: two with the pair (6, 7) and one with the pair (5, 7). *)
Example mot_summary :
  visualizer.plot_specific_relation_pairs 6
    (visualizer.add_triangles
       [Triangle "mot" "parole" "terme" 6 6 7 1%Q 1%Q (-1 # 2)%Q;
        Triangle "mot" "parole" "verbe" 6 5 7 1%Q 1%Q 1%Q;
        Triangle "sac" "objet" "poche" 6 6 7 1%Q 1%Q 1%Q;
        Triangle "sac" "objet" "cuir" 9 6 7 1%Q 1%Q 1%Q]
       visualizer.new_visualizer)
  = Some (3%nat, [("R26-R37", 2%nat); ("R25-R37", 1%nat)]).
Proof. vm_compute. reflexivity. Qed.

Lemma pair_key_injective_witness : 6 = 6 /\ 7 = 7.
Proof. exact (pair_key_injective 6 7 6 7 eq_refl). Defined.
